(** * Vibe Security examples: a shallow embedding of the example snippets

    The repository ships a security checklist together with example
    modules for Next.js and React Native.  This development embeds the
    executable parts of those modules (rate limiter, CSRF wrapper,
    permission history, certificate pinning helper, XOR storage cipher,
    the API client's refresh queue, the module import structure) and
    proves what the code does.

    Conventions.  JavaScript numbers that the examples use as counters,
    limits and timestamps are integers and are modelled by [Z].  A
    JavaScript string is a sequence of UTF-16 code units; where only
    equality of strings matters it is a [string], where code units matter
    it is a [list Z].  Code that can throw returns a [completion]; code
    that mutates closure state or the response object runs in the state
    monad [M]. *)

From Stdlib Require Import ZArith List String Bool Lia.
From stdpp Require Import gmap strings list.

Local Open Scope string_scope.
Local Open Scope list_scope.
Local Open Scope Z_scope.

(* ===================================================================== *)
(** * JavaScript completions and thrown values *)
(* ===================================================================== *)

Module Js.

(** The [rateLimit] property the rate limiter attaches to its error. *)
Record rate_info := mk_rate_info {
  ri_limit : Z;
  ri_remaining : Z;
  ri_reset : Z;
}.

(** A thrown value, with the properties the examples read from it:
    [error.status], [error.code], [error.rateLimit], [error.message]. *)
Record error := mk_error {
  err_name : string;
  err_message : string;
  err_status : option Z;
  err_code : option string;
  err_rateLimit : option rate_info;
}.

Definition TypeError (msg : string) : error :=
  mk_error "TypeError" msg None None None.
Definition ReferenceError (ident : string) : error :=
  mk_error "ReferenceError" (ident +:+ " is not defined") None None None.
Definition Error (msg : string) : error :=
  mk_error "Error" msg None None None.

Inductive completion (A : Type) : Type :=
| Normal (a : A)
| Throw (e : error).
Arguments Normal {A} a.
Arguments Throw {A} e.

(** State-and-exception monad: the state survives a throw, as the
    mutations a JavaScript function made before throwing do. *)
Definition M (S A : Type) : Type := S -> completion A * S.

Definition ret {S A} (a : A) : M S A := fun s => (Normal a, s).
Definition throw {S A} (e : error) : M S A := fun s => (Throw e, s).
Definition bind {S A B} (m : M S A) (k : A -> M S B) : M S B :=
  fun s => match m s with
           | (Normal a, s') => k a s'
           | (Throw e, s') => (Throw e, s')
           end.
Definition try_catch {S A} (body : M S A) (handler : error -> M S A) : M S A :=
  fun s => match body s with
           | (Normal a, s') => (Normal a, s')
           | (Throw e, s') => handler e s'
           end.
Definition get_state {S} : M S S := fun s => (Normal s, s).
Definition modify {S} (f : S -> S) : M S unit := fun s => (Normal tt, f s).
Definition lift_completion {S A} (c : completion A) : M S A := fun s => (c, s).

(** [a || b] on numbers: [undefined] and [0] are falsy. *)
Definition or_num (a : option Z) (b : Z) : Z :=
  match a with
  | Some v => if v =? 0 then b else v
  | None => b
  end.

(** [a || b] on strings: [undefined] and the empty string are falsy. *)
Definition or_str (a : option string) (b : string) : string :=
  match a with
  | Some v => if String.eqb v "" then b else v
  | None => b
  end.

(** A parameter or destructuring default applies to [undefined] only. *)
Definition default {A} (a : option A) (d : A) : A :=
  match a with Some v => v | None => d end.

(** [Math.ceil(x / d)] for integers [x] and [d > 0]. *)
Definition ceil_div (x d : Z) : Z := - ((- x) / d).

(** Values of response headers, JSON body fields and global bindings. *)
Inductive jsval :=
| VNum (z : Z)
| VStr (s : string)
| VBool (b : bool)
| VObject (name : string).

Definition truthy (v : jsval) : bool :=
  match v with
  | VNum z => negb (z =? 0)
  | VStr s => negb (String.eqb s "")
  | VBool b => b
  | VObject _ => true
  end.

(** A free identifier that no enclosing block binds is looked up among
    the host's global bindings; a miss throws a ReferenceError. *)
Definition read_global {S} (globals : gmap string jsval) (ident : string) : M S jsval :=
  match globals !! ident with
  | Some v => ret v
  | None => throw (ReferenceError ident)
  end.

(** An identifier is resolved against the bindings of the enclosing
    scopes first, then against the globals. *)
Fixpoint binding (scope : list (string * jsval)) (ident : string) : option jsval :=
  match scope with
  | [] => None
  | (x, v) :: rest => if String.eqb ident x then Some v else binding rest ident
  end.

Definition read_identifier {S} (scope : list (string * jsval))
    (globals : gmap string jsval) (ident : string) : M S jsval :=
  match binding scope ident with
  | Some v => ret v
  | None => read_global globals ident
  end.

End Js.

Declare Scope js_scope.
Delimit Scope js_scope with js.
Notation "'let*' x ':=' m 'in' k" := (Js.bind m (fun x => k))
  (at level 10, x pattern, m at level 100, k at level 200) : js_scope.
Notation "m ';;' k" := (Js.bind m (fun _ => k))
  (at level 100, k at level 200, right associativity) : js_scope.

(* ===================================================================== *)
(** * The cache behind the rate limiter *)
(* ===================================================================== *)

(** The [lru-cache] package is not part of the repository.  The model
    keeps what the rate limiter relies on: entries ordered from most to
    least recently used, a capacity [max] ([0] is unbounded) and a time
    to live [ttl] in milliseconds ([0] never expires) that every [set]
    restarts.  The source also calls [getTtl], a method the package does
    not have. *)
Module LRU.
Import Js.

Record entry := mk_entry {
  e_key : string;
  e_value : Z;
  e_start : Z;
}.

Record cache := mk_cache {
  max : Z;
  ttl : Z;
  items : list entry;
}.

(** [new LRUCache({ max, ttl })] *)
Definition create (max ttl : Z) : completion cache :=
  if max <? 0 then Throw (TypeError "max option must be a nonnegative integer")
  else if ttl <? 0 then Throw (TypeError "ttl must be a positive integer if specified")
  else if (max =? 0) && (ttl =? 0)
       then Throw (TypeError "At least one of max, maxSize, or ttl is required")
  else Normal (mk_cache max ttl []).

Definition stale (c : cache) (now : Z) (e : entry) : bool :=
  (0 <? ttl c) && (ttl c <? now - e_start e).

Fixpoint find (k : string) (l : list entry) : option entry :=
  match l with
  | [] => None
  | e :: l' => if String.eqb k (e_key e) then Some e else find k l'
  end.

Fixpoint remove (k : string) (l : list entry) : list entry :=
  match l with
  | [] => []
  | e :: l' => if String.eqb k (e_key e) then remove k l' else e :: remove k l'
  end.

Definition with_items (c : cache) (l : list entry) : cache :=
  mk_cache (max c) (ttl c) l.

(** [cache.get(k)]: a live entry becomes the most recently used one, a
    stale entry is dropped and reads as [undefined]. *)
Definition get (k : string) (now : Z) (c : cache) : option Z * cache :=
  match find k (items c) with
  | None => (None, c)
  | Some e =>
      if stale c now e then (None, with_items c (remove k (items c)))
      else (Some (e_value e), with_items c (e :: remove k (items c)))
  end.

(** [cache.getTtl(k)]: the package has no method of this name (the
    remaining life of an entry is read with [getRemainingTTL]), so the
    property is [undefined] and the call throws. *)
Definition getTtl_error : error := TypeError "tokenCache.getTtl is not a function".

Definition getTtl (k : string) (now : Z) (c : cache) : completion (option Z) :=
  Throw getTtl_error.

Definition evict (c : cache) (l : list entry) : list entry :=
  if 0 <? max c then firstn (Z.to_nat (max c)) l else l.

(** [cache.set(k, v)] *)
Definition set (k : string) (v : Z) (now : Z) (c : cache) : cache :=
  with_items c (evict c (mk_entry k v now :: remove k (items c))).

(** [cache.has(k)] *)
Definition has (k : string) (now : Z) (c : cache) : bool :=
  match find k (items c) with
  | None => false
  | Some e => negb (stale c now e)
  end.

(** [cache.delete(k)] *)
Definition delete (k : string) (c : cache) : cache :=
  with_items c (remove k (items c)).

End LRU.

(* ===================================================================== *)
(** * Rate limiting utility (examples/nextjs, rate-limit module) *)
(* ===================================================================== *)

Module RateLimit.
Import Js.
Local Open Scope js_scope.

(** The [options] argument of [rateLimit]; [None] is an absent property. *)
Record options := mk_options {
  interval : option Z;
  maxRequests : option Z;
  uniqueTokenPerInterval : option Z;
}.

(** The value of [this] in the body of [rateLimit], which the arrow
    functions of the returned object capture.  Module code is strict, so
    a plain call [rateLimit(...)] binds it to [undefined]; in sloppy code
    it is the global object, which has no [check] property.
    [ThisInstance] stands for a call that binds [this] to an object whose
    [check] is the instance's own. *)
Inductive this_value := ThisUndefined | ThisGlobal | ThisInstance.

(** What the closures of one limiter instance share: the destructured
    options, the token cache, and the captured [this]. *)
Record limiter := mk_limiter {
  lim_this : this_value;
  lim_interval : Z;
  lim_maxRequests : Z;
  tokenCache : LRU.cache;
}.

Definition rateLimit (this_ : this_value) (o : options) : completion limiter :=
  let interval := default (interval o) (60 * 1000) in
  let maxRequests := default (maxRequests o) 10 in
  let uniqueTokenPerInterval := default (uniqueTokenPerInterval o) 500 in
  match LRU.create uniqueTokenPerInterval interval with
  | Normal c => Normal (mk_limiter this_ interval maxRequests c)
  | Throw e => Throw e
  end.

Definition set_cache (l : limiter) (c : LRU.cache) : limiter :=
  mk_limiter (lim_this l) (lim_interval l) (lim_maxRequests l) c.

(** The object [check] resolves to. *)
Record check_result := mk_check_result {
  success : bool;
  limit : Z;
  remaining : Z;
  reset : Z;
}.

Definition rate_limit_error (info : rate_info) : error :=
  mk_error "Error" "Rate limit exceeded" (Some 429) None (Some info).

(** [check(limit, token)] at clock reading [now].  The call of
    [tokenCache.getTtl] comes after [tokenCache.get] and before
    [tokenCache.set] and the limit test. *)
Definition check (limit : option Z) (token : string) (now : Z) : M limiter check_result :=
  fun l =>
    let maxRequestsForToken := or_num limit (lim_maxRequests l) in
    let '(cached, c1) := LRU.get token now (tokenCache l) in
    let tokenCount := or_num cached 0 + 1 in
    let currentTime := now in
    match LRU.getTtl token now c1 with
    | Throw e => (Throw e, set_cache l c1)
    | Normal expiry =>
        let ttl := or_num expiry (currentTime + lim_interval l) in
        let reset := ceil_div (ttl - currentTime) 1000 in
        let c2 := LRU.set token tokenCount now c1 in
        let rateLimitInfo :=
          mk_rate_info maxRequestsForToken (Z.max 0 (maxRequestsForToken - tokenCount))
            reset in
        if maxRequestsForToken <? tokenCount
        then (Throw (rate_limit_error rateLimitInfo), set_cache l c2)
        else (Normal (mk_check_result true (ri_limit rateLimitInfo)
                        (ri_remaining rateLimitInfo) (ri_reset rateLimitInfo)),
              set_cache l c2)
    end.

(** The object [getStatus] returns. *)
Record status := mk_status {
  st_limit : Z;
  st_remaining : Z;
  st_reset : Z;
  st_exceeded : bool;
}.


(** [reset(token)] *)
Definition reset_token (token : string) (now : Z) : M limiter bool :=
  fun l =>
    let exists_ := LRU.has token now (tokenCache l) in
    (Normal exists_, set_cache l (LRU.delete token (tokenCache l))).

(** The count the cache holds for a token at time [now], read without
    touching the cache: what [tokenCache.get(token) || 0] evaluates to. *)
Definition stored_count (token : string) (now : Z) (l : limiter) : Z :=
  or_num (fst (LRU.get token now (tokenCache l))) 0.


(** ** Requests, responses and the wrapped handler *)

(** The parts of [req] the default key generator reads. *)
Record request := mk_request {
  x_forwarded_for : option string;
  ip : option string;
}.

(** The response object [res], as [setHeader], [status] and [json]
    leave it. *)
Record response := mk_response {
  res_headers : gmap string jsval;
  res_status : option Z;
  res_body : option (list (string * jsval));
}.

Definition fresh_response : response := mk_response ∅ None None.

Inductive event :=
| HandlerCalled (req : request)
| ConsoleError (label : string).

Record world := mk_world {
  w_limiter : limiter;
  w_res : response;
  w_log : list event;
}.

Definition setHeader (name : string) (v : jsval) : M world unit :=
  modify (fun w =>
    let r := w_res w in
    mk_world (w_limiter w)
      (mk_response (<[name := v]> (res_headers r)) (res_status r) (res_body r))
      (w_log w)).

(** [res.status(code).json(body)] *)
Definition status_json (code : Z) (body : list (string * jsval)) : M world unit :=
  modify (fun w =>
    mk_world (w_limiter w)
      (mk_response (res_headers (w_res w)) (Some code) (Some body))
      (w_log w)).

Definition console_error (label : string) : M world unit :=
  modify (fun w => mk_world (w_limiter w) (w_res w) (w_log w ++ [ConsoleError label])).

(** [keyGenerator] may be a function of the request or any other value,
    which is then used as the token itself. *)
Inductive key_generator :=
| KeyFunction (f : request -> completion string)
| KeyValue (token : string).

(** The [options] argument of [withRateLimit]. *)
Record wrap_options := mk_wrap_options {
  keyGenerator : option key_generator;
  wo_limit : option Z;
  wo_headers : option bool;
}.

Definition default_keyGenerator (req : request) : completion string :=
  Normal (or_str (x_forwarded_for req) (or_str (ip req) "anonymous")).

(** [await Promise.resolve(typeof keyGenerator === 'function'
      ? keyGenerator(req) : keyGenerator)] *)
Definition generate_token (options : wrap_options) (req : request) : completion string :=
  match default (keyGenerator options) (KeyFunction default_keyGenerator) with
  | KeyFunction f => f req
  | KeyValue t => Normal t
  end.

(** [this.check(limit, token)] inside the arrow functions of the
    returned object. *)
Definition this_check (limit : Z) (token : string) (now : Z) : M world check_result :=
  fun w =>
    match lim_this (w_limiter w) with
    | ThisUndefined =>
        (Throw (TypeError "Cannot read properties of undefined (reading 'check')"), w)
    | ThisGlobal =>
        (Throw (TypeError "this.check is not a function"), w)
    | ThisInstance =>
        let '(r, l') := check (Some limit) token now (w_limiter w) in
        (r, mk_world l' (w_res w) (w_log w))
    end.

Section Wrapper.
(** What a route handler returns.  A handler that is an async function
    returns a promise; its rejection is a returned value here, since
    [return handler(req, res)] does not await it. *)
Variable V : Type.

(** Global bindings of the host. *)
Variable globals : gmap string jsval.

Definition handler_fn : Type := request -> response -> completion V * response.

(** What the wrapped handler returns: the handler's own result, or the
    result of [res.status(..).json(..)]. *)
Inductive retval :=
| HandlerReturned (v : V)
| ResponseSent.

Definition call_handler (handler : handler_fn) (req : request) : M world V :=
  fun w =>
    let '(r, res') := handler req (w_res w) in
    (r, mk_world (w_limiter w) res' (w_log w ++ [HandlerCalled req])).

(** The [catch] block of the wrapped handler.  [keyGenerator], [limit]
    and [headers] are declared with [const] inside the [try] block, so
    the [headers] read here is not that binding but a free identifier. *)
Definition withRateLimit_catch (error : error) : M world retval :=
  if bool_decide (err_status error = Some 429)
  then
    let* headers := read_global globals "headers" in
    match truthy headers, err_rateLimit error with
    | true, Some info =>
        setHeader "X-RateLimit-Limit" (VNum (ri_limit info)) ;;
        setHeader "X-RateLimit-Remaining" (VNum 0) ;;
        setHeader "X-RateLimit-Reset" (VNum (ri_reset info)) ;;
        setHeader "Retry-After" (VNum (ri_reset info))
    | _, _ => ret tt
    end ;;
    status_json 429
      [("error", VStr "Too Many Requests");
       ("message", VStr "Rate limit exceeded. Please try again later.");
       ("retryAfter", VNum (or_num (option_map ri_reset (err_rateLimit error)) 60))] ;;
    ret ResponseSent
  else
    console_error "Rate limit error:" ;;
    status_json 500
      [("error", VStr "Internal Server Error");
       ("message", VStr "An unexpected error occurred")] ;;
    ret ResponseSent.

(** [withRateLimit(handler, options)(req, res)] at clock reading [now]. *)
Definition withRateLimit (handler : handler_fn) (options : wrap_options)
    (req : request) (now : Z) : M world retval :=
  try_catch
    (let* w := get_state in
     let limit := default (wo_limit options) (lim_maxRequests (w_limiter w)) in
     let headers := default (wo_headers options) true in
     let* token := lift_completion (generate_token options req) in
     let* result := this_check limit token now in
     (if headers
      then setHeader "X-RateLimit-Limit" (VNum (RateLimit.limit result)) ;;
           setHeader "X-RateLimit-Remaining" (VNum (remaining result)) ;;
           setHeader "X-RateLimit-Reset" (VNum (reset result))
      else ret tt) ;;
     let* v := call_handler handler req in
     ret (HandlerReturned v))
    withRateLimit_catch.

End Wrapper.

Arguments HandlerReturned {V} v.
Arguments ResponseSent {V}.

(** The instances the module exports; module code calls [rateLimit]
    as a plain function. *)
Definition globalLimiter : completion limiter :=
  rateLimit ThisUndefined (mk_options (Some (60 * 1000)) (Some 60) None).
Definition authLimiter : completion limiter :=
  rateLimit ThisUndefined (mk_options (Some (60 * 1000)) (Some 5) None).
Definition sensitiveApiLimiter : completion limiter :=
  rateLimit ThisUndefined (mk_options (Some (60 * 1000)) (Some 10) None).

(** The global instance right after module evaluation. *)
Definition globalLimiter0 : limiter :=
  mk_limiter ThisUndefined 60000 60 (LRU.mk_cache 500 60000 []).

(** World transformers used to state what a wrapped call leaves behind. *)
Definition responded (code : Z) (body : list (string * jsval)) (w : world) : world :=
  mk_world (w_limiter w)
    (mk_response (res_headers (w_res w)) (Some code) (Some body)) (w_log w).

Definition logged (ev : event) (w : world) : world :=
  mk_world (w_limiter w) (w_res w) (w_log w ++ [ev]).

Definition body_500 : list (string * jsval) :=
  [("error", VStr "Internal Server Error");
   ("message", VStr "An unexpected error occurred")].

End RateLimit.

(* ===================================================================== *)
(** * CSRF protection (examples/nextjs/utils/csrf-protection.js) *)
(* ===================================================================== *)

Module CsrfProtection.
Import Js.
Local Open Scope js_scope.

(** [process.env], as far as the module reads it. *)
Record process_env := mk_env {
  SESSION_SECRET : option string;
  NODE_ENV : option string;
}.

Record cookie_options := mk_cookie_options {
  secure : bool;
  httpOnly : bool;
  sameSite : string;
  domain : option string;
}.

Record session_options := mk_session_options {
  password : string;
  cookieName : string;
  cookieOptions : cookie_options;
}.

Definition production (env : process_env) : bool :=
  bool_decide (NODE_ENV env = Some "production").

Definition sessionOptions (env : process_env) : session_options :=
  mk_session_options
    (or_str (SESSION_SECRET env) "complex-password-at-least-32-characters-long")
    "next-csrf-session"
    (mk_cookie_options (production env) true "lax"
       (if production env then Some ".example.com" else None)).

(** The response object, as far as the wrapper writes to it; [res_other]
    is whatever the middleware and the handler do with it. *)
Record response (T : Type) := mk_response {
  res_status : option Z;
  res_body : option (list (string * jsval));
  res_other : T;
}.
Arguments mk_response {T}.
Arguments res_status {T}.
Arguments res_body {T}.
Arguments res_other {T}.

Inductive event :=
| SessionHandlerCalled
| ConsoleError (label : string).

Record world (T : Type) := mk_world {
  w_res : response T;
  w_log : list event;
}.
Arguments mk_world {T}.
Arguments w_res {T}.
Arguments w_log {T}.

Inductive retval (V : Type) :=
| HandlerReturned (v : V)
| ResponseSent.
Arguments HandlerReturned {V} v.
Arguments ResponseSent {V}.

Section Wrapper.
(** Requests, handler results and the rest of the response state. *)
Variables Req V T : Type.

Definition handler_fn : Type := Req -> response T -> completion V * response T.

(** [withIronSessionApiRoute] of iron-session and the middleware
    [csrf(csrfConfig)] of next-csrf; a [Throw] is a rejected promise. *)
Variable withIronSessionApiRoute : handler_fn -> session_options -> handler_fn.
Variable csrfMiddleware : Req -> response T -> completion unit * response T.
Variable env : process_env.

Definition status_json (code : Z) (body : list (string * jsval)) : M (world T) unit :=
  modify (fun w =>
    mk_world (mk_response (Some code) (Some body) (res_other (w_res w))) (w_log w)).

Definition console_error (label : string) : M (world T) unit :=
  modify (fun w => mk_world (w_res w) (w_log w ++ [ConsoleError label])).

Definition run_csrfMiddleware (req : Req) : M (world T) unit :=
  fun w =>
    let '(r, res') := csrfMiddleware req (w_res w) in
    (r, mk_world res' (w_log w)).

Definition call_withSession (withSession : handler_fn) (req : Req) : M (world T) V :=
  fun w =>
    let '(r, res') := withSession req (w_res w) in
    (r, mk_world res' (w_log w ++ [SessionHandlerCalled])).

Definition withCsrfApiRoute_catch (error : error) : M (world T) (retval V) :=
  if bool_decide (err_code error = Some "CSRF_TOKEN_INVALID")
  then
    status_json 403
      [("error", VStr "Invalid CSRF token");
       ("message", VStr "CSRF validation failed. Please try again.")] ;;
    ret ResponseSent
  else
    console_error "CSRF error:" ;;
    status_json 500
      [("error", VStr "Internal server error");
       ("message", VStr "An unexpected error occurred")] ;;
    ret ResponseSent.

(** [withCsrfApiRoute(handler)(req, res)] *)
Definition withCsrfApiRoute (handler : handler_fn) (req : Req) : M (world T) (retval V) :=
  let withSession := withIronSessionApiRoute handler (sessionOptions env) in
  try_catch
    (run_csrfMiddleware req ;;
     let* v := call_withSession withSession req in
     ret (HandlerReturned v))
    withCsrfApiRoute_catch.

(** What the [catch] block leaves behind for an error: the 403 answer
    for the code 'CSRF_TOKEN_INVALID', else the logged 500 answer. *)
Definition answered (error : error) (w : world T) : world T :=
  if bool_decide (err_code error = Some "CSRF_TOKEN_INVALID")
  then mk_world
         (mk_response (Some 403)
            (Some [("error", VStr "Invalid CSRF token");
                   ("message", VStr "CSRF validation failed. Please try again.")])
            (res_other (w_res w)))
         (w_log w)
  else mk_world
         (mk_response (Some 500)
            (Some [("error", VStr "Internal server error");
                   ("message", VStr "An unexpected error occurred")])
            (res_other (w_res w)))
         (w_log w ++ [ConsoleError "CSRF error:"]).

End Wrapper.

Arguments answered {T}.

(** A handler that throws, behind a CSRF middleware and a session
    wrapper that let everything through. *)
Definition failing_handler (e : error) : handler_fn unit unit unit :=
  fun _ res => (Throw e, res).

Definition passing_csrf : unit -> response unit -> completion unit * response unit :=
  fun _ res => (Normal tt, res).

Definition plain_session (h : handler_fn unit unit unit) (_ : session_options)
    : handler_fn unit unit unit := h.

Definition no_env : process_env := mk_env None None.

Definition fresh_world : world unit := mk_world (mk_response None None tt) [].

End CsrfProtection.

(* ===================================================================== *)
(** * Permission history (examples/react-native/utils/permissions-manager.js) *)
(* ===================================================================== *)

(** Names every object literal and parsed JSON object inherits from
    [Object.prototype]: [obj[name]] is truthy for them without an own
    property of that name. *)
Module ObjectPrototype.

Definition inherited : list string :=
  ["constructor"; "__proto__"; "hasOwnProperty"; "isPrototypeOf";
   "propertyIsEnumerable"; "toLocaleString"; "toString"; "valueOf";
   "__defineGetter__"; "__defineSetter__"; "__lookupGetter__"; "__lookupSetter__"].

Definition is_inherited (name : string) : bool :=
  existsb (String.eqb name) inherited.

End ObjectPrototype.

Module PermissionsManager.
Import Js.

(** One recorded request: [{ result, timestamp }]. *)
Record history_entry := mk_history_entry {
  result : string;
  timestamp : string;
}.

(** The item under [PERMISSION_HISTORY_KEY] in AsyncStorage: absent, a
    string that does not parse to a history object, or the JSON text of
    a history object (permission type to array of entries). *)
Inductive stored :=
| NoItem
| Unparsable
| History (h : gmap string (list history_entry)).

(** How the calls into AsyncStorage and [timestamp.toISOString()] go
    during one call: [None] is a rejection or a RangeError. *)
Record io := mk_io {
  getItem_ok : bool;
  toISOString : option string;
  setItem_ok : bool;
}.

(** [array.slice(-n)] *)
Definition slice_last {A} (n : nat) (l : list A) : list A :=
  drop (length l - n)%nat l.

(** [history[permissionType]] followed by [push]: an own array is
    extended; a name inherited from [Object.prototype] is truthy and has
    no [push]. *)
Definition push_entry (permissionType : string) (e : history_entry)
    (h : gmap string (list history_entry)) : completion (gmap string (list history_entry)) :=
  match h !! permissionType with
  | Some l => Normal (<[permissionType := l ++ [e]]> h)
  | None =>
      if ObjectPrototype.is_inherited permissionType
      then Throw (TypeError "history[permissionType].push is not a function")
      else Normal (<[permissionType := [] ++ [e]]> h)
  end.

Definition trim (permissionType : string) (h : gmap string (list history_entry))
    : gmap string (list history_entry) :=
  match h !! permissionType with
  | Some l => if (5 <? length l)%nat then <[permissionType := slice_last 5 l]> h else h
  | None => h
  end.

(** The [try] block of [savePermissionHistory]: the new stored item. *)
Definition savePermissionHistory_try (permissionType result : string) (env : io)
    (s : stored) : completion stored :=
  if negb (getItem_ok env) then Throw (Error "AsyncStorage.getItem failed") else
  match s with
  | Unparsable => Throw (mk_error "SyntaxError" "Unexpected token" None None None)
  | NoItem | History _ =>
      let history := match s with History h => h | _ => ∅ end in
      match toISOString env with
      | None => Throw (mk_error "RangeError" "Invalid time value" None None None)
      | Some ts =>
          match push_entry permissionType (mk_history_entry result ts) history with
          | Throw e => Throw e
          | Normal h1 =>
              let h2 := trim permissionType h1 in
              if setItem_ok env then Normal (History h2)
              else Throw (Error "AsyncStorage.setItem failed")
          end
      end
  end.

(** [savePermissionHistory(permissionType, result, timestamp)]: the
    stored item afterwards; a failure is logged and leaves it as it was. *)
Definition savePermissionHistory (permissionType result : string) (env : io)
    (s : stored) : stored :=
  match savePermissionHistory_try permissionType result env s with
  | Normal s' => s'
  | Throw _ => s
  end.

(** The history object a stored item parses to ([{}] when absent) and
    the entries it holds for one permission type. *)
Definition history_of (s : stored) : gmap string (list history_entry) :=
  match s with History h => h | _ => ∅ end.

Definition previous (permissionType : string) (s : stored) : list history_entry :=
  default (history_of s !! permissionType) [].

Definition io_ok (ts : string) : io := mk_io true (Some ts) true.

(** At most five entries per permission type. *)
Definition bounded (s : stored) : Prop :=
  match s with
  | History h => forall k l, h !! k = Some l -> (length l <= 5)%nat
  | _ => True
  end.

End PermissionsManager.

(* ===================================================================== *)
(** * Certificate pinning helper (examples/react-native, certificate-pinning module) *)
(* ===================================================================== *)

Module CertificatePinning.
Import Js.
Local Open Scope js_scope.

Record pin_config := mk_pin_config {
  includeSubdomains : bool;
  certs : list string;
}.

(** The object literal [PINNED_DOMAINS], in property order. *)
Definition PINNED_DOMAINS : list (string * pin_config) :=
  [("api.example.com",
    mk_pin_config true
      ["sha256/AAAAAAAAAAAAAAAAAAAAAAAAAAAAAAAAAAAAAAAAAAA=";
       "sha256/BBBBBBBBBBBBBBBBBBBBBBBBBBBBBBBBBBBBBBBBBBB="]);
   ("auth.example.com",
    mk_pin_config false
      ["sha256/CCCCCCCCCCCCCCCCCCCCCCCCCCCCCCCCCCCCCCCCCCC="])].

Definition DEFAULT_TIMEOUT : Z := 30000.

(** [s.endsWith(suffix)] *)
Definition ends_with (s suffix : string) : bool :=
  (String.length suffix <=? String.length s)%nat
  && String.eqb (substring (String.length s - String.length suffix)
                           (String.length suffix) s) suffix.

(** [s.includes(sub)] *)
Fixpoint includes (s sub : string) : bool :=
  String.prefix sub s
  || match s with
     | EmptyString => false
     | String _ s' => includes s' sub
     end.

Fixpoint own_property {A} (table : list (string * A)) (key : string) : option A :=
  match table with
  | [] => None
  | (k, v) :: rest => if String.eqb key k then Some v else own_property rest key
  end.

(** What [findPinnedDomain] returns: a configuration object of the
    table, a value inherited from [Object.prototype] (truthy, without
    [certs] or [includeSubdomains]), or [null]. *)
Inductive pinned :=
| Config (c : pin_config)
| PrototypeValue
| NotPinned.

(** The [for] loop over [Object.entries(PINNED_DOMAINS)]. *)
Fixpoint subdomain_match (entries : list (string * pin_config)) (domain : string)
    : option pin_config :=
  match entries with
  | [] => None
  | (pinnedDomain, config) :: rest =>
      if includeSubdomains config && ends_with domain ("." +:+ pinnedDomain)
      then Some config
      else subdomain_match rest domain
  end.

Definition findPinnedDomain (domain : string) : pinned :=
  match own_property PINNED_DOMAINS domain with
  | Some config => Config config
  | None =>
      if ObjectPrototype.is_inherited domain then PrototypeValue
      else match subdomain_match PINNED_DOMAINS domain with
           | Some config => Config config
           | None => NotPinned
           end
  end.

(** Request options as the caller passes them. *)
Record request_options := mk_request_options {
  method : option string;
  headers : option (list (string * string));
  body : option string;
}.

(** [{ ...options, timeout }] handed to the plain [fetch]. *)
Record fetch_options := mk_fetch_options {
  fo_options : request_options;
  fo_timeout : Z;
}.

(** The options object built for the pinning library. *)
Record pinning_options := mk_pinning_options {
  po_method : string;
  po_timeoutInterval : Z;
  po_headers : list (string * string);
  po_body : option string;
  po_sslPinning_certs : option (list string);
  po_trustkit_includeSubdomains : option (option bool);
}.

Inductive platform_os := ios | android.

Section Host.
(** Payloads: parsed JSON, text, blobs, and whatever the pinning
    library resolves to. *)
Variable R : Type.

Record http_response := mk_http_response {
  content_type : option string;
  json : completion R;
  text : completion R;
  blob : completion R;
}.

(** The libraries and platform [secureFetch] calls into. *)
Record host := mk_host {
  OS : platform_os;
  isConnected : completion bool;
  hostname : string -> completion string;
  fetch : string -> fetch_options -> completion http_response;
  sslPinningFetch : string -> pinning_options -> completion R;
}.

Inductive call :=
| NetInfoFetch
| ConsoleWarn (msg : string)
| Fetch (url : string) (o : fetch_options)
| SslPinningFetch (url : string) (o : pinning_options)
| ConsoleError (label : string).

Definition record (c : call) : M (list call) unit :=
  modify (fun t => t ++ [c]).

Definition processResponse (response : http_response) : completion R :=
  let contentType := or_str (content_type response) "" in
  if includes contentType "application/json" then json response
  else if includes contentType "text/" then text response
  else blob response.

Definition pinningOptions_of (h : host) (options : request_options) (timeout : Z)
    (pinnedDomain : pinned) : pinning_options :=
  mk_pinning_options
    (or_str (method options) "GET")
    timeout
    (default (headers options) [])
    (body options)
    (match pinnedDomain with Config c => Some (certs c) | _ => None end)
    (match OS h with
     | android =>
         Some (match pinnedDomain with
               | Config c => Some (includeSubdomains c)
               | _ => None
               end)
     | ios => None
     end).

Definition secureFetch_catch (error : error) : M (list call) R :=
  if negb (String.eqb (err_message error) "")
     && (includes (err_message error) "certificate"
         || includes (err_message error) "SSL"
         || includes (err_message error) "pinning")
  then
    record (ConsoleError "Certificate pinning error - possible security breach:") ;;
    throw (Error "Security error: Server certificate validation failed")
  else
    record (ConsoleError "Secure fetch error:") ;;
    throw error.

(** [secureFetch(url, options = {}, timeout = DEFAULT_TIMEOUT)] *)
Definition secureFetch (h : host) (url : string) (options : option request_options)
    (timeout : option Z) : M (list call) R :=
  let options := default options (mk_request_options None None None) in
  let timeout := default timeout DEFAULT_TIMEOUT in
  try_catch
    (record NetInfoFetch ;;
     let* connected := lift_completion (isConnected h) in
     if negb connected then throw (Error "No internet connection") else
     let* domain := lift_completion (hostname h url) in
     let pinnedDomain := findPinnedDomain domain in
     match pinnedDomain with
     | NotPinned =>
         record (ConsoleWarn ("Certificate pinning not configured for " +:+ domain)) ;;
         record (Fetch url (mk_fetch_options options timeout)) ;;
         let* response := lift_completion (fetch h url (mk_fetch_options options timeout)) in
         lift_completion (processResponse response)
     | _ =>
         let pinningOptions := pinningOptions_of h options timeout pinnedDomain in
         record (SslPinningFetch url pinningOptions) ;;
         lift_completion (sslPinningFetch h url pinningOptions)
     end)
    secureFetch_catch.

End Host.

Arguments mk_http_response {R}.
Arguments mk_host {R}.
Arguments OS {R}.
Arguments isConnected {R}.
Arguments hostname {R}.
Arguments fetch {R}.
Arguments sslPinningFetch {R}.
Arguments content_type {R}.
Arguments json {R}.
Arguments text {R}.
Arguments blob {R}.

(** The claim's notion of a hostname having a pinning configuration: a
    direct entry of the table, or else the first entry with
    [includeSubdomains] of which the hostname is a subdomain. *)
Definition pinning_configuration (domain : string) : option pin_config :=
  match own_property PINNED_DOMAINS domain with
  | Some config => Some config
  | None => subdomain_match PINNED_DOMAINS domain
  end.

Definition is_pinned_call (c : call) : bool :=
  match c with SslPinningFetch _ _ => true | _ => false end.

Definition is_plain_call (c : call) : bool :=
  match c with Fetch _ _ => true | _ => false end.

(** A host without connectivity, asked for a pinned domain. *)
Definition offline_host : host unit :=
  mk_host ios (Normal false) (fun _ => Normal "api.example.com")
    (fun _ _ => Throw (Error "Network request failed"))
    (fun _ _ => Normal tt).

End CertificatePinning.

(* ===================================================================== *)
(** * Secure input component (examples/react-native/components/secure-input.js) *)
(* ===================================================================== *)

Module SecureInput.
Import Js.
Local Open Scope js_scope.

Definition style : Type := list (string * jsval).
Definition style_sheet : Type := list (string * style).

(** The bindings of the module scope: the imports and the top-level
    declarations [SecureInput], [Validators], [Masks] and [styles]. *)
Definition module_scope : list (string * jsval) :=
  map (fun x => (x, VObject x))
    ["React"; "useState"; "useRef"; "useEffect";
     "View"; "TextInput"; "Text"; "StyleSheet"; "TouchableOpacity";
     "Clipboard"; "Platform"; "Keyboard";
     "z"; "Icon";
     "SecureInput"; "Validators"; "Masks"; "styles"].

Section Module.
(** Global bindings of the host, the style sheet object that
    [StyleSheet.create] of react-native returns, and the evaluation of
    the zod schemas of [Validators]. *)
Variable globals : gmap string jsval.
Variable Sheet : Type.
Variable StyleSheet_create : style_sheet -> completion Sheet.
Variable Validators : completion unit.

(** The object literal passed to [StyleSheet.create]; its property
    values are evaluated in source order. *)
Definition styles_literal : M unit style_sheet :=
  let container := [("marginBottom", VNum 16)] in
  let label :=
    [("fontSize", VNum 14); ("marginBottom", VNum 8);
     ("fontWeight", VStr "500"); ("color", VStr "#333")] in
  let* borderRadius := read_identifier module_scope globals "a8" in
  let inputContainer :=
    [("flexDirection", VStr "row"); ("alignItems", VStr "center");
     ("borderWidth", VNum 1); ("borderColor", VStr "#ccc");
     ("borderRadius", borderRadius);
     ("backgroundColor", VStr "#fff");
     ("paddingHorizontal", VNum 12); ("height", VNum 48)] in
  let inputFocused := [("borderColor", VStr "#007AFF"); ("borderWidth", VNum 2)] in
  let inputError := [("borderColor", VStr "#FF3B30")] in
  let inputDisabled :=
    [("backgroundColor", VStr "#f5f5f5"); ("borderColor", VStr "#e0e0e0")] in
  let input :=
    [("flex", VNum 1); ("fontSize", VNum 16); ("color", VStr "#333");
     ("paddingVertical", VNum 8)] in
  let iconContainer := [("padding", VNum 4); ("marginLeft", VNum 4)] in
  let errorText :=
    [("color", VStr "#FF3B30"); ("fontSize", VNum 12); ("marginTop", VNum 4)] in
  ret [("container", container); ("label", label);
       ("inputContainer", inputContainer); ("inputFocused", inputFocused);
       ("inputError", inputError); ("inputDisabled", inputDisabled);
       ("input", input); ("iconContainer", iconContainer);
       ("errorText", errorText)].

(** [const styles = StyleSheet.create({ ... })] *)
Definition styles : M unit Sheet :=
  let* sheet := styles_literal in
  lift_completion (StyleSheet_create sheet).

(** Evaluation of the module's top-level statements: [SecureInput] and
    [Masks] only create functions, [Validators] builds zod schemas,
    [styles] calls [StyleSheet.create]. *)
Definition evaluate_module : M unit Sheet :=
  lift_completion Validators ;;
  styles.

End Module.

End SecureInput.

(* ===================================================================== *)
(** * The example modules and their imports *)
(* ===================================================================== *)

Module Examples.

Inductive example :=
| SecureHeaders        (* nextjs/config/secure-headers.js *)
| AuthConfig           (* nextjs/auth: NextAuth configuration *)
| AuthMiddleware       (* nextjs/middleware/auth-middleware.js *)
| InputValidation      (* nextjs/utils/input-validation.js *)
| RateLimitModule      (* nextjs/utils: rate limiting utility *)
| CsrfProtectionModule (* nextjs/utils/csrf-protection.js *)
| ApiRoute             (* nextjs: secure API route example *)
| SecureInputModule    (* react-native/components/secure-input.js *)
| AuthProvider         (* react-native/auth/auth-provider.js *)
| ApiClient            (* react-native/services: secure API client *)
| PermissionsManagerModule (* react-native/utils/permissions-manager.js *)
| CertificatePinningModule (* react-native/utils: certificate pinning *)
| SecureStorage        (* react-native/utils: secure storage utilities *)
| BiometricAuth.       (* react-native/utils: biometric authentication *)

Definition all_examples : list example :=
  [SecureHeaders; AuthConfig; AuthMiddleware; InputValidation; RateLimitModule;
   CsrfProtectionModule; ApiRoute; SecureInputModule; AuthProvider; ApiClient;
   PermissionsManagerModule; CertificatePinningModule; SecureStorage; BiometricAuth].

Definition example_eqb (a b : example) : bool :=
  match a, b with
  | SecureHeaders, SecureHeaders | AuthConfig, AuthConfig
  | AuthMiddleware, AuthMiddleware | InputValidation, InputValidation
  | RateLimitModule, RateLimitModule | CsrfProtectionModule, CsrfProtectionModule
  | ApiRoute, ApiRoute | SecureInputModule, SecureInputModule
  | AuthProvider, AuthProvider | ApiClient, ApiClient
  | PermissionsManagerModule, PermissionsManagerModule
  | CertificatePinningModule, CertificatePinningModule
  | SecureStorage, SecureStorage | BiometricAuth, BiometricAuth => true
  | _, _ => false
  end.

(** [import { names } from 'specifier'] *)
Record import_decl := mk_import {
  names : list string;
  specifier : string;
}.

(** The import declarations of each module, outside comments. *)
Definition imports (m : example) : list import_decl :=
  match m with
  | SecureHeaders => []
  | AuthConfig =>
      [mk_import ["NextAuth"] "next-auth";
       mk_import ["CredentialsProvider"] "next-auth/providers/credentials";
       mk_import ["compare"] "bcryptjs";
       mk_import ["z"] "zod"]
  | AuthMiddleware =>
      [mk_import ["NextResponse"] "next/server";
       mk_import ["getToken"] "next-auth/jwt"]
  | InputValidation =>
      [mk_import ["z"] "zod";
       mk_import ["DOMPurify"] "isomorphic-dompurify"]
  | RateLimitModule =>
      [mk_import ["LRUCache"] "lru-cache"]
  | CsrfProtectionModule =>
      [mk_import ["withIronSessionApiRoute"; "withIronSessionSsr"] "iron-session/next";
       mk_import ["getToken"; "csrf"] "next-csrf"]
  | ApiRoute =>
      [mk_import ["NextResponse"] "next/server";
       mk_import ["getServerSession"] "next-auth/next";
       mk_import ["rateLimit"] "@/utils/rate-limit";
       mk_import ["authOptions"] "@/auth/auth-config";
       mk_import ["validateInput"; "schemas"] "@/utils/input-validation";
       mk_import ["z"] "zod"]
  | SecureInputModule =>
      [mk_import ["React"; "useState"; "useRef"; "useEffect"] "react";
       mk_import ["View"; "TextInput"; "Text"; "StyleSheet"; "TouchableOpacity";
                  "Clipboard"; "Platform"; "Keyboard"] "react-native";
       mk_import ["z"] "zod";
       mk_import ["Icon"] "react-native-vector-icons/MaterialCommunityIcons"]
  | AuthProvider =>
      [mk_import ["React"; "createContext"; "useState"; "useContext"; "useEffect"] "react";
       mk_import ["Platform"] "react-native";
       mk_import ["Keychain"] "react-native-keychain";
       mk_import ["z"] "zod";
       mk_import ["secureApiClient"] "../services/api-client";
       mk_import ["checkBiometricAvailability"] "../utils/biometric-auth"]
  | ApiClient =>
      [mk_import ["Platform"] "react-native";
       mk_import ["axios"] "axios";
       mk_import ["NetInfo"] "@react-native-community/netinfo";
       mk_import ["secureFetch"] "../utils/certificate-pinning";
       mk_import ["getInternetCredentials"; "setInternetCredentials"] "react-native-keychain"]
  | PermissionsManagerModule =>
      [mk_import ["Platform"; "Alert"; "Linking"] "react-native";
       mk_import ["request"; "check"; "RESULTS"; "PERMISSIONS"; "openSettings"]
         "react-native-permissions";
       mk_import ["AsyncStorage"] "@react-native-async-storage/async-storage"]
  | CertificatePinningModule =>
      [mk_import ["Platform"] "react-native";
       mk_import ["sslPinningFetch"] "react-native-ssl-pinning";
       mk_import ["NetInfo"] "@react-native-community/netinfo"]
  | SecureStorage =>
      [mk_import ["AsyncStorage"] "@react-native-async-storage/async-storage";
       mk_import ["Keychain"] "react-native-keychain";
       mk_import ["Platform"] "react-native"]
  | BiometricAuth =>
      [mk_import ["ReactNativeBiometrics"; "BiometryTypes"] "react-native-biometrics";
       mk_import ["Keychain"] "react-native-keychain";
       mk_import ["Platform"] "react-native"]
  end.

(** The module specifier under which the sibling examples refer to a
    module (relative path or the [@/] alias of the project root). *)
Definition specifiers (m : example) : list string :=
  match m with
  | SecureHeaders => ["./config/secure-headers"]
  | AuthConfig => ["@/auth/auth-config"]
  | AuthMiddleware => []
  | InputValidation => ["@/utils/input-validation"]
  | RateLimitModule => ["@/utils/rate-limit"]
  | CsrfProtectionModule => ["@/utils/csrf-protection"]
  | ApiRoute => []
  | SecureInputModule => []
  | AuthProvider => ["./auth-provider"]
  | ApiClient => ["../services/api-client"; "./api-client"]
  | PermissionsManagerModule => []
  | CertificatePinningModule => ["../utils/certificate-pinning"]
  | SecureStorage => []
  | BiometricAuth => ["../utils/biometric-auth"]
  end.

(** The names each module exports. *)
Definition exports (m : example) : list string :=
  match m with
  | SecureHeaders => ["secureHeadersConfig"; "getEnvironmentHeaders"]
  | AuthConfig => ["authOptions"; "handler"; "GET"; "POST"]
  | AuthMiddleware => ["middleware"; "config"]
  | InputValidation => ["schemas"; "validateInput"; "sanitizeHtml"; "validateRequest"]
  | RateLimitModule => ["rateLimit"; "globalLimiter"; "authLimiter"; "sensitiveApiLimiter"]
  | CsrfProtectionModule =>
      ["csrfConfig"; "withCsrfApiRoute"; "withCsrfSsr"; "useCsrfToken"; "CsrfToken";
       "createCsrfFetch"]
  | ApiRoute => ["GET"; "POST"]
  | SecureInputModule => ["Validators"; "Masks"; "default"]
  | AuthProvider => ["AuthProvider"; "useAuth"]
  | ApiClient => ["createApiClient"; "createTestApiClient"; "secureApiClient"]
  | PermissionsManagerModule =>
      ["requestPermission"; "checkMultiplePermissions"; "requestMultiplePermissions";
       "clearPermissionHistory"; "getPermissionStatus"; "hasRequiredPermissions";
       "usePermissions"; "PermissionTypes"; "PermissionResults"]
  | CertificatePinningModule => ["secureFetch"; "createSecureApiClient"]
  | SecureStorage => ["SECURITY_LEVEL"; "secureStore"; "secureRetrieve"; "secureRemove"]
  | BiometricAuth =>
      ["checkBiometricAvailability"; "getBiometricType"; "generateBiometricKeys";
       "hasBiometricKeys"; "deleteBiometricKeys"; "authenticateWithBiometrics";
       "signWithBiometrics"; "verifySignature"; "secureBiometricData";
       "retrieveBiometricData"]
  end.

(** The imported names a module's code calls or reads a member of. *)
Definition invoked (m : example) : list string :=
  match m with
  | ApiRoute => ["rateLimit"; "validateInput"; "schemas"]
  | AuthProvider => ["secureApiClient"; "checkBiometricAvailability"]
  | ApiClient => ["secureFetch"]
  | _ => []
  end.

Definition mem (x : string) (l : list string) : bool := existsb (String.eqb x) l.

(** Declaration [d] of some module imports from module [target]: the
    specifier names [target] and every imported name is one of its
    exports. *)
Definition imports_from (d : import_decl) (target : example) : bool :=
  mem (specifier d) (specifiers target)
  && forallb (fun x => mem x (exports target)) (names d).

(** The names [m] imports from [target]. *)
Definition imported_names (m target : example) : list string :=
  flat_map (fun d => if imports_from d target then names d else []) (imports m).

Definition depends_on (m target : example) : bool :=
  negb (example_eqb m target)
  && negb (match imported_names m target with [] => true | _ => false end).

(** All pairs (importing module, imported module) among the examples. *)
Definition cross_imports : list (example * example) :=
  flat_map (fun m =>
    flat_map (fun t => if depends_on m t then [(m, t)] else []) all_examples)
    all_examples.

(** A module invokes a value defined in another one. *)
Definition invokes_across (m target : example) : bool :=
  depends_on m target
  && existsb (fun x => mem x (invoked m)) (imported_names m target).

End Examples.

(* ===================================================================== *)
(** * Secure storage utilities (examples/react-native, secure storage module) *)
(* ===================================================================== *)

(** Strings as sequences of UTF-16 code units, and the two encodings of
    Node's [Buffer] that the XOR cipher goes through. *)
Module Encoding.

(** A JavaScript string: its UTF-16 code units. *)
Definition jsstring : Type := list Z.

Definition is_code_unit (c : Z) : bool := (0 <=? c) && (c <? 0x10000).
Definition is_high_surrogate (c : Z) : bool := (0xD800 <=? c) && (c <? 0xDC00).
Definition is_low_surrogate (c : Z) : bool := (0xDC00 <=? c) && (c <? 0xE000).

(** Every element is a code unit and every surrogate is half of a pair. *)
Fixpoint well_formed (s : jsstring) : bool :=
  match s with
  | [] => true
  | c :: r =>
      if is_high_surrogate c then
        match r with
        | d :: r' => is_low_surrogate d && well_formed r'
        | [] => false
        end
      else is_code_unit c && negb (is_low_surrogate c) && well_formed r
  end.

(** The UTF-8 bytes of a code point. *)
Definition utf8_bytes (cp : Z) : list Z :=
  if cp <? 0x80 then [cp]
  else if cp <? 0x800 then [0xC0 + cp / 64; 0x80 + cp mod 64]
  else if cp <? 0x10000 then
    [0xE0 + cp / 4096; 0x80 + (cp / 64) mod 64; 0x80 + cp mod 64]
  else
    [0xF0 + cp / 262144; 0x80 + (cp / 4096) mod 64;
     0x80 + (cp / 64) mod 64; 0x80 + cp mod 64].

Definition code_point_of_pair (hi lo : Z) : Z :=
  0x10000 + (hi - 0xD800) * 1024 + (lo - 0xDC00).

(** [Buffer.from(string)]: UTF-8, an unpaired surrogate becomes U+FFFD. *)
Fixpoint utf8_encode (s : jsstring) : list Z :=
  match s with
  | [] => []
  | c :: r =>
      if is_high_surrogate c then
        match r with
        | d :: r' =>
            if is_low_surrogate d
            then utf8_bytes (code_point_of_pair c d) ++ utf8_encode r'
            else utf8_bytes 0xFFFD ++ utf8_encode r
        | [] => utf8_bytes 0xFFFD
        end
      else if is_low_surrogate c then utf8_bytes 0xFFFD ++ utf8_encode r
      else utf8_bytes c ++ utf8_encode r
  end.

Definition is_continuation (b : Z) : bool := (0x80 <=? b) && (b <=? 0xBF).

(** The range the byte after lead byte [b0] must lie in. *)
Definition second_byte_ok (b0 b1 : Z) : bool :=
  if b0 =? 0xE0 then (0xA0 <=? b1) && (b1 <=? 0xBF)
  else if b0 =? 0xED then (0x80 <=? b1) && (b1 <=? 0x9F)
  else if b0 =? 0xF0 then (0x90 <=? b1) && (b1 <=? 0xBF)
  else if b0 =? 0xF4 then (0x80 <=? b1) && (b1 <=? 0x8F)
  else is_continuation b1.

(** The code units of a code point. *)
Definition code_units (cp : Z) : jsstring :=
  if cp <? 0x10000 then [cp]
  else [0xD800 + (cp - 0x10000) / 1024; 0xDC00 + (cp - 0x10000) mod 1024].

(** [buffer.toString()]: UTF-8, every maximal ill-formed part becomes
    U+FFFD. *)
Fixpoint utf8_decode (bs : list Z) : jsstring :=
  match bs with
  | [] => []
  | b0 :: r0 =>
      if b0 <? 0x80 then b0 :: utf8_decode r0
      else if (0xC2 <=? b0) && (b0 <=? 0xDF) then
        match r0 with
        | b1 :: r1 =>
            if is_continuation b1
            then ((b0 - 0xC0) * 64 + (b1 - 0x80)) :: utf8_decode r1
            else 0xFFFD :: utf8_decode r0
        | [] => [0xFFFD]
        end
      else if (0xE0 <=? b0) && (b0 <=? 0xEF) then
        match r0 with
        | b1 :: r1 =>
            if second_byte_ok b0 b1 then
              match r1 with
              | b2 :: r2 =>
                  if is_continuation b2
                  then ((b0 - 0xE0) * 4096 + (b1 - 0x80) * 64 + (b2 - 0x80))
                       :: utf8_decode r2
                  else 0xFFFD :: utf8_decode r1
              | [] => [0xFFFD]
              end
            else 0xFFFD :: utf8_decode r0
        | [] => [0xFFFD]
        end
      else if (0xF0 <=? b0) && (b0 <=? 0xF4) then
        match r0 with
        | b1 :: r1 =>
            if second_byte_ok b0 b1 then
              match r1 with
              | b2 :: r2 =>
                  if is_continuation b2 then
                    match r2 with
                    | b3 :: r3 =>
                        if is_continuation b3
                        then code_units ((b0 - 0xF0) * 262144 + (b1 - 0x80) * 4096
                                         + (b2 - 0x80) * 64 + (b3 - 0x80))
                             ++ utf8_decode r3
                        else 0xFFFD :: utf8_decode r2
                    | [] => [0xFFFD]
                    end
                  else 0xFFFD :: utf8_decode r1
              | [] => [0xFFFD]
              end
            else 0xFFFD :: utf8_decode r0
        | [] => [0xFFFD]
        end
      else 0xFFFD :: utf8_decode r0
  end.

(** The character of a six-bit value in the base64 alphabet. *)
Definition base64_char (n : Z) : Z :=
  if n <? 26 then 65 + n
  else if n <? 52 then 97 + (n - 26)
  else if n <? 62 then 48 + (n - 52)
  else if n =? 62 then 43
  else 47.

Definition pad : Z := 61.

(** [buffer.toString('base64')] *)
Fixpoint base64_encode (bs : list Z) : jsstring :=
  match bs with
  | [] => []
  | [a] => [base64_char (a / 4); base64_char ((a mod 4) * 16); pad; pad]
  | [a; b] =>
      [base64_char (a / 4); base64_char ((a mod 4) * 16 + b / 16);
       base64_char ((b mod 16) * 4); pad]
  | a :: b :: c :: r =>
      [base64_char (a / 4); base64_char ((a mod 4) * 16 + b / 16);
       base64_char ((b mod 16) * 4 + c / 64); base64_char (c mod 64)]
      ++ base64_encode r
  end.

(** The six-bit value of a character; the decoder also accepts the URL
    and filename safe alphabet. *)
Definition base64_value (c : Z) : option Z :=
  if (65 <=? c) && (c <=? 90) then Some (c - 65)
  else if (97 <=? c) && (c <=? 122) then Some (c - 97 + 26)
  else if (48 <=? c) && (c <=? 57) then Some (c - 48 + 52)
  else if (c =? 43) || (c =? 45) then Some 62
  else if (c =? 47) || (c =? 95) then Some 63
  else None.

(** The six-bit values up to the first padding character; characters
    outside the alphabet are skipped. *)
Fixpoint sextets (s : jsstring) : list Z :=
  match s with
  | [] => []
  | c :: r =>
      if c =? pad then []
      else match base64_value c with
           | Some v => v :: sextets r
           | None => sextets r
           end
  end.

Fixpoint bytes_of_sextets (vs : list Z) : list Z :=
  match vs with
  | w :: x :: y :: z :: r =>
      [w * 4 + x / 16; (x mod 16) * 16 + y / 4; (y mod 4) * 64 + z]
      ++ bytes_of_sextets r
  | [w; x; y] => [w * 4 + x / 16; (x mod 16) * 16 + y / 4]
  | [w; x] => [w * 4 + x / 16]
  | _ => []
  end.

(** [Buffer.from(string, 'base64')] *)
Definition base64_decode (s : jsstring) : list Z :=
  bytes_of_sextets (sextets s).

Definition is_byte (b : Z) : Prop := 0 <= b < 256.

(** Unicode scalar values: code points that are no surrogates. *)
Definition is_scalar (cp : Z) : Prop := 0 <= cp < 0xD800 \/ 0xE000 <= cp < 0x110000.

End Encoding.

Module SecureStorage.
Import Js Encoding.

(** [key.charCodeAt(i % key.length)] as an operand of [^]: for the empty
    key the index and the code are NaN, which [^] reads as 0. *)
Definition key_code (key : jsstring) (i : nat) : Z :=
  match key with
  | [] => 0
  | _ => nth (i mod length key) key 0
  end.

(** [String.fromCharCode(n)] *)
Definition fromCharCode (n : Z) : Z := n mod 0x10000.

(** The loop shared by both functions, from index [i] on. *)
Fixpoint xor_from (i : nat) (text key : jsstring) : jsstring :=
  match text with
  | [] => []
  | c :: r => fromCharCode (Z.lxor c (key_code key i)) :: xor_from (S i) r key
  end.

Definition _encryptXOR (text key : jsstring) : jsstring :=
  let result := xor_from 0 text key in
  base64_encode (utf8_encode result).

Definition _decryptXOR (encryptedBase64 key : jsstring) : jsstring :=
  let encryptedText := utf8_decode (base64_decode encryptedBase64) in
  xor_from 0 encryptedText key.

(** The two stores of the device: the keychain, by service, with the
    username and password of each entry, and AsyncStorage. *)
Record device := mk_device {
  keychain : gmap string (string * jsstring);
  asyncStorage : gmap string jsstring;
}.

(** [_storeEncrypted(key, value)], given the text [JSON.stringify(value)]
    and the key string the two [Math.random()] calls produced. *)
Definition _storeEncrypted (key : string) (json encryptionKey : jsstring)
    (d : device) : device :=
  let kc := <[key +:+ "_encryption_key" := (key, encryptionKey)]> (keychain d) in
  let encryptedValue := _encryptXOR json encryptionKey in
  mk_device kc (<[key := encryptedValue]> (asyncStorage d)).

(** [_retrieveEncrypted(key)] up to the call of [JSON.parse]: the
    decrypted text, or [None] where the function returns [null]. *)
Definition _retrieveEncrypted (key : string) (d : device) : option jsstring :=
  match keychain d !! (key +:+ "_encryption_key") with
  | None => None
  | Some (_, encryptionKey) =>
      match asyncStorage d !! key with
      | None => None
      | Some [] => None
      | Some encryptedValue => Some (_decryptXOR encryptedValue encryptionKey)
      end
  end.

(** Keys whose characters have code points below 128. *)
Definition ascii_key (key : jsstring) : bool :=
  forallb (fun k => (0 <=? k) && (k <? 128)) key.

End SecureStorage.

(* ===================================================================== *)
(** * Secure API client (examples/react-native, services/api-client module) *)
(* ===================================================================== *)

(** The module keeps its queues in module-level variables and changes
    them from promise reactions.  JavaScript runs each reaction to
    completion, so the model is a state machine whose events are the
    reactions: the response interceptor's error handler, the two [then]
    callbacks and the [catch] callback of the refresh chain, and a call of
    one of the pinned request methods. *)
Module ApiClient.
Import Js.

Definition baseURL : string := "https://api.example.com".

(** An axios request configuration, as far as the module touches it. *)
Record request := mk_request {
  url : string;
  authorization : option string;
  _retry : bool;
}.

(** The error a failed response is rejected with. *)
Record axios_error := mk_axios_error {
  message : string;
  response_status : option Z;
  retry_after : option string;
  config : request;
}.

(** [error.response.headers['retry-after'] || 5]: the text of the header,
    which is falsy only when absent or empty, or the number 5. *)
Inductive retry_delay :=
| HeaderText (text : string)
| Seconds (n : Z).

Definition retryAfter (error : axios_error) : retry_delay :=
  match retry_after error with
  | Some text => if String.eqb text "" then Seconds 5 else HeaderText text
  | None => Seconds 5
  end.

(** Where a refresh chain
    [authProvider.refreshToken().then(..).then(..).catch(..)] stands. *)
Inductive phase :=
| AwaitingRefresh
| AwaitingAccessToken
| Failing (e : error)
| Fulfilled (token : string)
| Rejected (e : error).

(** A refresh chain and the requests whose [reject] was attached to it
    by [tokenRefreshPromise.catch(reject)]. *)
Record chain := mk_chain {
  chain_phase : phase;
  waiters : list request;
}.

Inductive effect :=
| RefreshTokenCalled
| GetAccessTokenCalled
| Replayed (r : request)
| RequestRejected (r : request) (e : error)
| ErrorPassedOn (r : request)
| RetryScheduled (r : request) (delay : retry_delay)
| LoggedOut
| SecureFetchCalled (url : string) (authorization : option string).

(** The module-level variables, the refresh chains created so far (a
    chain is named by its position) and the effects so far. *)
Record state := mk_state {
  requestQueue : list request;
  isRefreshingToken : bool;
  tokenRefreshPromise : option nat;
  refreshSubscribers : list request;
  chains : list chain;
  effects : list effect;
}.

Definition initial : state := mk_state [] false None [] [] [].

Definition emit (es : list effect) (s : state) : state :=
  mk_state (requestQueue s) (isRefreshingToken s) (tokenRefreshPromise s)
    (refreshSubscribers s) (chains s) (effects s ++ es).

Definition set_subscribers (l : list request) (s : state) : state :=
  mk_state (requestQueue s) (isRefreshingToken s) (tokenRefreshPromise s)
    l (chains s) (effects s).

Definition set_refreshing (b : bool) (s : state) : state :=
  mk_state (requestQueue s) b (tokenRefreshPromise s)
    (refreshSubscribers s) (chains s) (effects s).

Definition set_chain (c : nat) (ch : chain) (s : state) : state :=
  mk_state (requestQueue s) (isRefreshingToken s) (tokenRefreshPromise s)
    (refreshSubscribers s) (<[c := ch]> (chains s)) (effects s).

(** [subscribeTokenRefresh(callback)], the callback being the one that
    replays [originalRequest]. *)
Definition subscribeTokenRefresh (originalRequest : request) (s : state) : state :=
  set_subscribers (refreshSubscribers s ++ [originalRequest]) s.

(** What a subscriber's callback does to its request before it calls
    [apiClient(originalRequest)]. *)
Definition retried (newToken : string) (r : request) : request :=
  mk_request (url r) (Some ("Bearer " +:+ newToken)) true.

(** [onTokenRefreshed(token)] *)
Definition onTokenRefreshed (token : string) (s : state) : state :=
  set_subscribers []
    (emit (map (fun r => Replayed (retried token r)) (refreshSubscribers s)) s).

(** [tokenRefreshPromise.catch(reject)] inside the executor of the
    promise handed back for [originalRequest]. *)
Definition attach_reject (originalRequest : request) (s : state) : state :=
  match tokenRefreshPromise s with
  | None =>
      emit [RequestRejected originalRequest
              (TypeError "Cannot read properties of null (reading 'catch')")] s
  | Some c =>
      match chains s !! c with
      | Some ch =>
          match chain_phase ch with
          | Rejected e => emit [RequestRejected originalRequest e] s
          | Fulfilled _ => s
          | _ => set_chain c (mk_chain (chain_phase ch) (waiters ch ++ [originalRequest])) s
          end
      | None => s
      end
  end.

(** The start of a refresh: [isRefreshingToken = true] and the chain on
    [authProvider.refreshToken()].  [refresh_call] says whether that call
    returns a promise or throws. *)
Definition start_refresh (refresh_call : completion unit) (s : state)
    : completion unit * state :=
  let s1 := emit [RefreshTokenCalled] (set_refreshing true s) in
  match refresh_call with
  | Throw e => (Throw e, s1)
  | Normal _ =>
      (Normal tt,
       mk_state (requestQueue s1) (isRefreshingToken s1) (Some (length (chains s1)))
         (refreshSubscribers s1) (chains s1 ++ [mk_chain AwaitingRefresh []]) (effects s1))
  end.

(** The error handler of the response interceptor.  [connected] is what
    NetInfo reports, [authProvider] whether the client was created with
    an authentication provider. *)
Definition response_error (authProvider connected : bool) (refresh_call : completion unit)
    (error : axios_error) (s : state) : state :=
  let originalRequest := config error in
  if String.eqb (message error) "Network Error" && negb connected then
    mk_state (requestQueue s ++ [originalRequest]) (isRefreshingToken s)
      (tokenRefreshPromise s) (refreshSubscribers s) (chains s) (effects s)
  else if bool_decide (response_status error = Some 401)
          && negb (_retry originalRequest) && authProvider then
    let '(started, s1) :=
      if isRefreshingToken s then (Normal tt, s) else start_refresh refresh_call s in
    match started with
    | Throw e => emit [RequestRejected originalRequest e] s1
    | Normal _ => attach_reject originalRequest (subscribeTokenRefresh originalRequest s1)
    end
  else
    match response_status error with
    | Some 429 => emit [RetryScheduled originalRequest (retryAfter error)] s
    | _ => emit [ErrorPassedOn originalRequest] s
    end.

(** The first [then] callback of chain [c], run when
    [authProvider.refreshToken()] settles. *)
Definition refresh_settled (c : nat) (r : completion bool) (s : state) : state :=
  match chains s !! c with
  | Some (mk_chain AwaitingRefresh ws) =>
      match r with
      | Normal success =>
          let s1 := set_refreshing false s in
          if success
          then set_chain c (mk_chain AwaitingAccessToken ws) (emit [GetAccessTokenCalled] s1)
          else set_chain c (mk_chain (Failing (Error "Token refresh failed")) ws) s1
      | Throw e => set_chain c (mk_chain (Failing e) ws) s
      end
  | _ => s
  end.

(** The second [then] callback of chain [c], run when
    [authProvider.getAccessToken()] settles. *)
Definition access_token_settled (c : nat) (r : completion string) (s : state) : state :=
  match chains s !! c with
  | Some (mk_chain AwaitingAccessToken ws) =>
      match r with
      | Normal newToken => set_chain c (mk_chain (Fulfilled newToken) ws) (onTokenRefreshed newToken s)
      | Throw e => set_chain c (mk_chain (Failing e) ws) s
      end
  | _ => s
  end.

(** The [catch] callback of chain [c]; the rejection it passes on
    reaches the [reject] of every waiting request. *)
Definition refresh_failed (c : nat) (s : state) : state :=
  match chains s !! c with
  | Some (mk_chain (Failing e) ws) =>
      set_chain c (mk_chain (Rejected e) ws)
        (emit (LoggedOut :: map (fun r => RequestRejected r e) ws)
           (set_subscribers [] s))
  | _ => s
  end.

(** [securePinnedRequest(url, options)] behind the methods [get], [post],
    [put] and [delete] of the returned client, once
    [authProvider.getAccessToken()] gave [token]. *)
Definition securePinnedRequest (url : string) (headers_authorization token : option string)
    (s : state) : state :=
  let fullUrl := if String.prefix "http" url then url else baseURL +:+ url in
  let authorization :=
    match token with
    | Some t => if String.eqb t "" then headers_authorization else Some ("Bearer " +:+ t)
    | None => headers_authorization
    end in
  emit [SecureFetchCalled fullUrl authorization] s.

Inductive event :=
| ResponseError (connected : bool) (refresh_call : completion unit) (error : axios_error)
| RefreshSettled (c : nat) (r : completion bool)
| AccessTokenSettled (c : nat) (r : completion string)
| RefreshFailed (c : nat)
| PinnedRequest (url : string) (headers_authorization token : option string).

(** One reaction of a client created with an authentication provider. *)
Definition step (ev : event) (s : state) : state :=
  match ev with
  | ResponseError connected refresh_call error =>
      response_error true connected refresh_call error s
  | RefreshSettled c r => refresh_settled c r s
  | AccessTokenSettled c r => access_token_settled c r s
  | RefreshFailed c => refresh_failed c s
  | PinnedRequest url auth token => securePinnedRequest url auth token s
  end.

Definition run (evs : list event) (s : state) : state :=
  fold_left (fun s ev => step ev s) evs s.

(** The rejection of a request that the server answered with 401. *)
Definition unauthorized (r : request) : event :=
  ResponseError true (Normal tt)
    (mk_axios_error "Request failed with status code 401" (Some 401) None r).

Definition is_refresh_call (e : effect) : bool :=
  match e with RefreshTokenCalled => true | _ => false end.

Definition not_retried (rs : list request) : bool :=
  forallb (fun r => negb (_retry r)) rs.

End ApiClient.

(* ===================================================================== *)
(** * Rate limiting utility: the [middleware] method *)
(* ===================================================================== *)

Module RateLimitMiddleware.
Import Js RateLimit.
Local Open Scope js_scope.

(** The state a middleware call works on: the world of the wrapped
    handler, and how often [next] was called. *)
Record mw_world := mk_mw_world {
  mw_base : world;
  next_calls : nat;
}.

Definition lift_world {A} (m : M world A) : M mw_world A :=
  fun s =>
    let '(r, w') := m (mw_base s) in
    (r, mk_mw_world w' (next_calls s)).

(** The [next] argument: absent (or no function), or a function that may
    write to the response and may throw. *)
Definition next_fn : Type := response -> completion unit * response.

(** [if (typeof next === 'function') { next(); }] *)
Definition call_next (next : option next_fn) : M mw_world unit :=
  match next with
  | None => ret tt
  | Some f =>
      fun s =>
        let w := mw_base s in
        let '(r, res') := f (w_res w) in
        (r, mk_mw_world (mk_world (w_limiter w) res' (w_log w)) (S (next_calls s)))
  end.

(** The [catch] block of the middleware; [headers] is the binding of the
    enclosing function here. *)
Definition middleware_catch (headers : bool) (error : error) : M mw_world unit :=
  if bool_decide (err_status error = Some 429)
  then
    match headers, err_rateLimit error with
    | true, Some info =>
        lift_world (setHeader "X-RateLimit-Limit" (VNum (ri_limit info))) ;;
        lift_world (setHeader "X-RateLimit-Remaining" (VNum 0)) ;;
        lift_world (setHeader "X-RateLimit-Reset" (VNum (ri_reset info))) ;;
        lift_world (setHeader "Retry-After" (VNum (ri_reset info)))
    | _, _ => ret tt
    end ;;
    lift_world
      (status_json 429
         [("error", VStr "Too Many Requests");
          ("message", VStr "Rate limit exceeded. Please try again later.");
          ("retryAfter", VNum (or_num (option_map ri_reset (err_rateLimit error)) 60))])
  else
    lift_world (console_error "Rate limit error:") ;;
    lift_world
      (status_json 500
         [("error", VStr "Internal Server Error");
          ("message", VStr "An unexpected error occurred")]).

(** [middleware(options)(req, res, next)] at clock reading [now]. *)
Definition middleware (options : wrap_options) (req : request) (next : option next_fn)
    (now : Z) : M mw_world unit :=
  fun s0 =>
    let limit := default (wo_limit options) (lim_maxRequests (w_limiter (mw_base s0))) in
    let headers := default (wo_headers options) true in
    try_catch
      (let* token := lift_completion (generate_token options req) in
       let* result := lift_world (this_check limit token now) in
       (if headers
        then lift_world (setHeader "X-RateLimit-Limit" (VNum (RateLimit.limit result))) ;;
             lift_world (setHeader "X-RateLimit-Remaining" (VNum (remaining result))) ;;
             lift_world (setHeader "X-RateLimit-Reset" (VNum (reset result)))
        else ret tt) ;;
       call_next next)
      (middleware_catch headers) s0.

(** State transformers used to say what a middleware call leaves behind. *)
Definition mw_set_limiter (l : limiter) (s : mw_world) : mw_world :=
  mk_mw_world (mk_world l (w_res (mw_base s)) (w_log (mw_base s))) (next_calls s).

Definition mw_respond (code : Z) (body : list (string * jsval)) (s : mw_world) : mw_world :=
  mk_mw_world (responded code body (mw_base s)) (next_calls s).

Definition mw_logged (ev : event) (s : mw_world) : mw_world :=
  mk_mw_world (logged ev (mw_base s)) (next_calls s).

(** The keys the cache holds, most recently used first. *)
Definition cached_keys (l : limiter) : list string :=
  map LRU.e_key (LRU.items (tokenCache l)).

(** An instance as [rateLimit] leaves it, before any call. *)
Definition fresh_limiter (this_ : this_value) (interval maxRequests capacity : Z) : limiter :=
  mk_limiter this_ interval maxRequests (LRU.mk_cache capacity interval []).

End RateLimitMiddleware.

(* ===================================================================== *)
(** * Certificate pinning helper: [createSecureApiClient] *)
(* ===================================================================== *)

Module PinnedClient.
Import Js CertificatePinning.

(** An options object as a caller writes it: besides what
    [secureFetch] reads it may carry a [timeout]. *)
Record client_options := mk_client_options {
  co_method : option string;
  co_headers : option (list (string * string));
  co_body : option string;
  co_timeout : option Z;
}.

Definition no_options : client_options := mk_client_options None None None None.

(** [obj[k] = v] on an object given by its properties in order. *)
Fixpoint set_property (obj : list (string * string)) (k v : string) : list (string * string) :=
  match obj with
  | [] => [(k, v)]
  | (k', v') :: rest =>
      if String.eqb k k' then (k, v) :: rest else (k', v') :: set_property rest k v
  end.

(** [{ ...a, ...b }] *)
Definition spread (a b : list (string * string)) : list (string * string) :=
  fold_left (fun acc kv => set_property acc (fst kv) (snd kv)) b a.

Definition first_some {A} (a b : option A) : option A :=
  match a with Some _ => a | None => b end.

(** The object literal the four methods pass to [secureFetch]:
    [{ method: verb, ...defaultOptions, ...options, headers: {..}, body }].
    [secureFetch] is called with two arguments, so a [timeout] property of
    the merged object is read by nobody: the pinned path passes its own
    [timeout] parameter, the fallback path overwrites the property. *)
Definition merged_options (verb : string) (base_headers : list (string * string))
    (forced_body : option (option string)) (defaultOptions options : client_options)
    : request_options :=
  mk_request_options
    (first_some (co_method options) (first_some (co_method defaultOptions) (Some verb)))
    (Some (spread (spread base_headers (default (co_headers defaultOptions) []))
             (default (co_headers options) [])))
    (match forced_body with
     | Some b => b
     | None => first_some (co_body options) (co_body defaultOptions)
     end).

Inductive verb := GET | POST | PUT | DELETE.

Definition verb_name (v : verb) : string :=
  match v with GET => "GET" | POST => "POST" | PUT => "PUT" | DELETE => "DELETE" end.

Definition sends_data (v : verb) : bool :=
  match v with POST | PUT => true | _ => false end.

(** The options of a call of [client.get], [client.post], [client.put]
    or [client.delete]; [json] is [JSON.stringify(data)]. *)
Definition client_request_options (v : verb) (json : option string)
    (defaultOptions options : client_options) : request_options :=
  if sends_data v
  then merged_options (verb_name v) [("Content-Type", "application/json")] (Some json)
         defaultOptions options
  else merged_options (verb_name v) [] None defaultOptions options.

Section Client.
Variable R : Type.
Variable h : host R.

(** A call of one of the methods of [createSecureApiClient(baseURL,
    defaultOptions)]. *)
Definition client_call (baseURL : string) (defaultOptions : client_options)
    (v : verb) (path : string) (json : option string) (options : client_options)
    : M (list call) R :=
  secureFetch R h (baseURL +:+ path)
    (Some (client_request_options v json defaultOptions options)) None.

End Client.

(** The timeout a recorded call carries. *)
Definition call_timeout (c : call) : option Z :=
  match c with
  | Fetch _ o => Some (fo_timeout o)
  | SslPinningFetch _ o => Some (po_timeoutInterval o)
  | _ => None
  end.

(** The error [secureFetch] substitutes for certificate failures. *)
Definition security_error : error :=
  Error "Security error: Server certificate validation failed".

(** The test the [catch] block applies to [error.message]. *)
Definition certificate_related (e : error) : bool :=
  negb (String.eqb (err_message e) "")
  && (includes (err_message e) "certificate"
      || includes (err_message e) "SSL"
      || includes (err_message e) "pinning").

Definition api_config : pin_config :=
  mk_pin_config true
    ["sha256/AAAAAAAAAAAAAAAAAAAAAAAAAAAAAAAAAAAAAAAAAAA=";
     "sha256/BBBBBBBBBBBBBBBBBBBBBBBBBBBBBBBBBBBBBBBBBBB="].

Definition auth_config : pin_config :=
  mk_pin_config false ["sha256/CCCCCCCCCCCCCCCCCCCCCCCCCCCCCCCCCCCCCCCCCCC="].

End PinnedClient.

(* ===================================================================== *)
(** * Permissions manager: requesting and checking permissions *)
(* ===================================================================== *)

Module PermissionFlow.
Import Js PermissionsManager.
Import CertificatePinning (platform_os, ios, android, own_property).
Local Open Scope js_scope.

(** The values of [RESULTS] of react-native-permissions. *)
Inductive status := UNAVAILABLE | DENIED | LIMITED | GRANTED | BLOCKED.

Definition status_name (s : status) : string :=
  match s with
  | UNAVAILABLE => "unavailable"
  | DENIED => "denied"
  | LIMITED => "limited"
  | GRANTED => "granted"
  | BLOCKED => "blocked"
  end.

Definition is_granted (s : status) : bool :=
  match s with GRANTED => true | _ => false end.

(** An entry of [PERMISSION_TYPES]. *)
Record permission_config := mk_permission_config {
  pc_ios : option string;
  pc_android : option string;
  title : string;
  message : string;
  critical : bool;
}.

Inductive effect :=
| ConsoleWarn (msg : string)
| ConsoleError (label : string)
| Checked (permission : string)
| Requested (permission : string)
| RationaleShown (title : string)
| SettingsShown (message : string).

(** The stored history item and what the call did so far. *)
Record state := mk_state {
  store : stored;
  log : list effect;
}.

Definition emit (e : effect) : M state unit :=
  modify (fun s => mk_state (store s) (log s ++ [e])).

Definition os_name (os : platform_os) : string :=
  match os with ios => "ios" | android => "android" end.

Section Platform.
(** The constants [PERMISSIONS.IOS.*] and [PERMISSIONS.ANDROID.*] of
    react-native-permissions, by platform and name; [None] where the
    library has no such constant. *)
Variable PERMISSIONS : platform_os -> string -> option string.
Variable OS : platform_os.

Definition PERMISSION_TYPES : list (string * permission_config) :=
  [("CAMERA",
    mk_permission_config (PERMISSIONS ios "CAMERA") (PERMISSIONS android "CAMERA")
      "Camera Permission" "This app needs access to your camera to take photos." false);
   ("PHOTO_LIBRARY",
    mk_permission_config (PERMISSIONS ios "PHOTO_LIBRARY")
      (PERMISSIONS android "READ_EXTERNAL_STORAGE")
      "Photo Library Permission" "This app needs access to your photos to upload images." false);
   ("MICROPHONE",
    mk_permission_config (PERMISSIONS ios "MICROPHONE") (PERMISSIONS android "RECORD_AUDIO")
      "Microphone Permission" "This app needs access to your microphone for voice notes." false);
   ("LOCATION",
    mk_permission_config (PERMISSIONS ios "LOCATION_WHEN_IN_USE")
      (PERMISSIONS android "ACCESS_FINE_LOCATION")
      "Location Permission"
      "This app needs access to your location to show nearby services." false);
   ("CONTACTS",
    mk_permission_config (PERMISSIONS ios "CONTACTS") (PERMISSIONS android "READ_CONTACTS")
      "Contacts Permission" "This app needs access to your contacts to find friends." false);
   ("NOTIFICATIONS",
    mk_permission_config (PERMISSIONS ios "NOTIFICATIONS") None
      "Notifications Permission"
      "This app needs to send you notifications for important updates." true)].

(** [Platform.select({ ios: .., android: .. })], read for its truthiness:
    an empty string counts as absent. *)
Definition select_platform (c : permission_config) : option string :=
  match (match OS with ios => pc_ios c | android => pc_android c end) with
  | Some p => if String.eqb p "" then None else Some p
  | None => None
  end.

(** [PERMISSION_TYPES[type]]: an entry of the table, a value inherited
    from [Object.prototype] (truthy, without [ios] or [android]), or
    [undefined]. *)
Definition platform_permission (type : string) : option string :=
  match own_property PERMISSION_TYPES type with
  | Some c => select_platform c
  | None => None
  end.

(** [getPermissionByPlatform(type)] *)
Definition getPermissionByPlatform (type : string) : M state (option string) :=
  match own_property PERMISSION_TYPES type with
  | Some c =>
      match select_platform c with
      | Some p => ret (Some p)
      | None => emit (ConsoleWarn ("Permission " +:+ type +:+ " not available on " +:+ os_name OS)) ;;
          ret None
      end
  | None =>
      if ObjectPrototype.is_inherited type
      then emit (ConsoleWarn ("Permission " +:+ type +:+ " not available on " +:+ os_name OS)) ;;
          ret None
      else emit (ConsoleWarn ("Unknown permission type: " +:+ type)) ;; ret None
  end.

(** What [getPermissionHistory(permissionType)] returns for a type: an
    array of entries, or a value that is none (the whole history object
    for the empty string, an inherited value for an inherited name). *)
Inductive history_value :=
| Entries (l : list history_entry)
| NotAnArray.

(** [getPermissionHistory(permissionType)]; [getItem_ok] tells whether
    AsyncStorage answers. *)
Definition getPermissionHistory (permissionType : string) (getItem_ok : bool)
    : M state history_value :=
  fun s =>
    if negb getItem_ok
    then (Normal (if String.eqb permissionType "" then NotAnArray else Entries []),
          mk_state (store s) (log s ++ [ConsoleError "Failed to get permission history:"]))
    else
      match store s with
      | Unparsable =>
          (Normal (if String.eqb permissionType "" then NotAnArray else Entries []),
           mk_state (store s) (log s ++ [ConsoleError "Failed to get permission history:"]))
      | _ =>
          if String.eqb permissionType "" then (Normal NotAnArray, s)
          else
            match history_of (store s) !! permissionType with
            | Some l => (Normal (Entries l), s)
            | None =>
                if ObjectPrototype.is_inherited permissionType
                then (Normal NotAnArray, s)
                else (Normal (Entries []), s)
            end
      end.

Definition is_denial (e : history_entry) : bool :=
  String.eqb (result e) (status_name DENIED) || String.eqb (result e) (status_name BLOCKED).

(** [isTooManyRequests(permissionType)] *)
Definition isTooManyRequests (permissionType : string) (getItem_ok : bool) : M state bool :=
  let* history := getPermissionHistory permissionType getItem_ok in
  match history with
  | Entries l => ret (3 <=? length (List.filter is_denial l))%nat
  | NotAnArray => throw (TypeError "history.filter is not a function")
  end.

(** How the user and the platform answer during one call of
    [requestPermission]. *)
Inductive settings_answer := NotNow | OpenSettings | OpenSettingsFails.

(** One call of [savePermissionHistory] with the default timestamp
    [new Date()]: whether AsyncStorage answers, and the clock. *)
Record save_io := mk_save_io {
  save_getItem_ok : bool;
  now : string;
  save_setItem_ok : bool;
}.

Definition io_of (env : save_io) : io :=
  mk_io (save_getItem_ok env) (Some (now env)) (save_setItem_ok env).

Record answers := mk_answers {
  check_result : completion status;
  first_save : save_io;
  history_read_ok : bool;
  rationale_continue : bool;
  settings : settings_answer;
  request_result : completion status;
  second_save : save_io;
}.

(** [savePermissionHistory(permissionType, status)] inside the flow: it
    never throws. *)
Definition save (permissionType : string) (s : status) (env : save_io) : M state unit :=
  modify (fun st =>
    match savePermissionHistory_try permissionType (status_name s) (io_of env) (store st) with
    | Normal s' => mk_state s' (log st)
    | Throw _ => mk_state (store st) (log st ++ [ConsoleError "Failed to save permission history:"])
    end).

(** [showSettingsDialog(permission)]: [None] when the promise never
    settles, which is the case when [openSettings()] rejects. *)
Definition settings_result (a : settings_answer) : option bool :=
  match a with
  | NotNow => Some false
  | OpenSettings => Some true
  | OpenSettingsFails => None
  end.

Definition showSettingsDialog (c : permission_config) (a : settings_answer)
    : M state (option bool) :=
  emit (SettingsShown (message c +:+ " Please enable it in settings.")) ;;
  ret (settings_result a).

(** [showPermissionRationale(permission)] *)
Definition showPermissionRationale (c : permission_config) (continue : bool) : M state bool :=
  emit (RationaleShown (title c)) ;; ret continue.

(** [requestPermission(permissionType, skipRationale)]: [Some b] when the
    promise resolves to [b], [None] when it never settles. *)
Definition requestPermission (permissionType : string) (skipRationale : bool) (a : answers)
    : M state (option bool) :=
  try_catch
    (match own_property PERMISSION_TYPES permissionType with
     | None =>
         if ObjectPrototype.is_inherited permissionType
         then let* _ := getPermissionByPlatform permissionType in ret (Some false)
         else emit (ConsoleError ("Unknown permission type: " +:+ permissionType)) ;;
              ret (Some false)
     | Some permissionConfig =>
         let* platformPermission := getPermissionByPlatform permissionType in
         match platformPermission with
         | None => ret (Some false)
         | Some p =>
             emit (Checked p) ;;
             let* status := lift_completion (check_result a) in
             save permissionType status (first_save a) ;;
             match status with
             | GRANTED => ret (Some true)
             | DENIED =>
                 let* tooManyRequests :=
                   isTooManyRequests permissionType (history_read_ok a) in
                 if tooManyRequests
                 then showSettingsDialog permissionConfig (settings a)
                 else
                   let* shouldProceed :=
                     if skipRationale then ret true
                     else showPermissionRationale permissionConfig (rationale_continue a) in
                   if negb shouldProceed then ret (Some false)
                   else
                     emit (Requested p) ;;
                     let* result := lift_completion (request_result a) in
                     save permissionType result (second_save a) ;;
                     ret (Some (is_granted result))
             | BLOCKED | UNAVAILABLE => showSettingsDialog permissionConfig (settings a)
             | LIMITED => ret (Some false)
             end
         end
     end)
    (fun error => emit (ConsoleError "Permission request error:") ;; ret (Some false)).

(** [checkMultiplePermissions(permissionTypes)], [check] being what the
    library answers for each permission while the call runs: the result
    object, one property per type that has a platform permission, in
    the order the properties were first set.  The warnings it logs are
    left out. *)
Fixpoint permissionsToCheck (permissionTypes : list string) (acc : list (string * string))
    : list (string * string) :=
  match permissionTypes with
  | [] => acc
  | type :: rest =>
      match platform_permission type with
      | Some p => permissionsToCheck rest (PinnedClient.set_property acc type p)
      | None => permissionsToCheck rest acc
      end
  end.

Definition checkMultiplePermissions (check : string -> completion status)
    (permissionTypes : list string) : list (string * status) :=
  map (fun tp => (fst tp,
                  match check (snd tp) with
                  | Normal s => s
                  | Throw _ => UNAVAILABLE
                  end))
      (permissionsToCheck permissionTypes []).

(** Whether the status recorded for an entry of [permissionsToCheck]
    is granted, and entries that carry the platform permission of their
    type. *)
Definition granted (check : string -> completion status) (tp : string * string) : bool :=
  is_granted (match check (snd tp) with Normal s => s | Throw _ => UNAVAILABLE end).

Definition consistent (acc : list (string * string)) : Prop :=
  forall k v, In (k, v) acc -> platform_permission k = Some v.

(** [hasRequiredPermissions(requiredPermissions)] *)
Definition hasRequiredPermissions (check : string -> completion status)
    (requiredPermissions : list string) : bool :=
  forallb (fun ts => is_granted (snd ts)) (checkMultiplePermissions check requiredPermissions).

(** [getPermissionStatus(permissionType)] *)
Definition getPermissionStatus (check : string -> completion status)
    (permissionType : string) : status :=
  match platform_permission permissionType with
  | None => UNAVAILABLE
  | Some p => match check p with Normal s => s | Throw _ => UNAVAILABLE end
  end.

End Platform.

(** [clearPermissionHistory(permissionType)]; a failing AsyncStorage call
    is logged and leaves the item as it was. *)
Definition clearPermissionHistory (permissionType : option string)
    (getItem_ok setItem_ok removeItem_ok : bool) (s : stored) : stored :=
  match permissionType with
  | Some type =>
      if String.eqb type "" then (if removeItem_ok then NoItem else s)
      else if negb getItem_ok then s
      else
        match s with
        | Unparsable => s
        | _ =>
            match history_of s !! type with
            | Some _ => if setItem_ok then History (delete type (history_of s)) else s
            | None =>
                if ObjectPrototype.is_inherited type
                then (if setItem_ok then History (history_of s) else s)
                else s
            end
        end
  | None => if removeItem_ok then NoItem else s
  end.

Definition working (ts : string) : save_io := mk_save_io true ts true.

Definition storage_ok (env : save_io) : bool :=
  save_getItem_ok env && save_setItem_ok env.

(** Whether [request(...)] was called, and what a call added to the log. *)
Definition is_request (e : effect) : bool :=
  match e with Requested _ => true | _ => false end.

Definition asked (l : list effect) : bool := existsb is_request l.

Definition new_effects (before after : state) : list effect :=
  skipn (length (log before)) (log after).

(** The entries [isTooManyRequests] gets to see: none when the item
    cannot be read or parsed. *)
Definition seen_entries (type : string) (getItem_ok : bool) (s : stored)
    : list history_entry :=
  if getItem_ok then match s with Unparsable => [] | _ => previous type s end else [].

Definition denials (l : list history_entry) : nat := length (List.filter is_denial l).

(** Two of the last four stored entries of a type are denied or blocked. *)
Definition recently_denied (type : string) (s : stored) : Prop :=
  (2 <= denials (slice_last 4 (previous type s)))%nat.

(** What a failing read of the item leaves in the log. *)
Definition read_failure_log (getItem_ok : bool) (s : stored) : list effect :=
  if getItem_ok
  then match s with
       | Unparsable => [ConsoleError "Failed to get permission history:"]
       | _ => []
       end
  else [ConsoleError "Failed to get permission history:"].

Definition is_settings_dialog (e : effect) : bool :=
  match e with SettingsShown _ => true | _ => false end.

End PermissionFlow.

(* ===================================================================== *)
(** * Secure API client: states the refresh logic can reach *)
(* ===================================================================== *)

Module ApiClientStates.
Import Js ApiClient.

Definition awaiting_refresh (ch : chain) : bool :=
  match chain_phase ch with AwaitingRefresh => true | _ => false end.

(** [isRefreshingToken] is set although no chain waits for
    [authProvider.refreshToken()] any more. *)
Definition stuck (s : state) : Prop :=
  isRefreshingToken s = true /\ forallb (fun ch => negb (awaiting_refresh ch)) (chains s) = true.

Definition refresh_calls (s : state) : list effect :=
  List.filter is_refresh_call (effects s).

Definition is_replay (e : effect) : bool :=
  match e with Replayed _ => true | _ => false end.

Definition replays (s : state) : list effect := List.filter is_replay (effects s).

(** Two requests answered with 401, the second one after the refresh
    reported its result and before the access token arrived. *)
Definition request_a : request := mk_request "/user/profile" (Some "Bearer old") false.
Definition request_b : request := mk_request "/user/avatar" (Some "Bearer old") false.

End ApiClientStates.

(* ===================================================================== *)
(** * Input masks and validators (examples/react-native/components/secure-input.js) *)
(* ===================================================================== *)

(** Strings are sequences of UTF-16 code units; the regular expressions
    of the module have no [u] flag and look at one code unit at a time. *)
Module SecureInputMasks.
Import Js Encoding.

(** [\d] and [\D] *)
Definition is_digit (c : Z) : bool := (48 <=? c) && (c <=? 57).

(** [text.replace(/\D/g, '')] *)
Definition digits_only (text : jsstring) : jsstring := List.filter is_digit text.

(** [s.substring(start, end)] and [s.substring(start)] *)
Definition substring (start stop : nat) (s : jsstring) : jsstring :=
  take (Nat.max start stop - Nat.min start stop) (drop (Nat.min start stop) s).

Definition substring_from (start : nat) (s : jsstring) : jsstring := drop start s.

(** [groups.join(sep)] *)
Fixpoint join (sep : jsstring) (groups : list jsstring) : jsstring :=
  match groups with
  | [] => []
  | [g] => g
  | g :: rest => g ++ sep ++ join sep rest
  end.

Definition space : jsstring := [32].
Definition plus : jsstring := [43].
Definition slash : jsstring := [47].
Definition dash : jsstring := [45].

Module Masks.

(** The loop [for (let i = 0; i < digits.length; i += 4)] of
    [Masks.creditCard]; [digits.length] iterations are more than it runs. *)
Fixpoint push_groups (fuel i : nat) (digits : jsstring) (groups : list jsstring)
    : list jsstring :=
  match fuel with
  | O => groups
  | S fuel' =>
      if (i <? length digits)%nat
      then push_groups fuel' (i + 4) digits (groups ++ [substring i (i + 4) digits])
      else groups
  end.

Definition creditCard (text : jsstring) : jsstring :=
  let digits := substring 0 16 (digits_only text) in
  join space (push_groups (length digits) 0 digits []).

Definition phone (text : jsstring) : jsstring :=
  let digits := digits_only text in
  if (length digits <=? 3)%nat then digits
  else if (length digits <=? 6)%nat
  then substring 0 3 digits ++ space ++ substring_from 3 digits
  else if (length digits <=? 10)%nat
  then substring 0 3 digits ++ space ++ substring 3 6 digits ++ space
       ++ substring_from 6 digits
  else plus ++ substring 0 1 digits ++ space ++ substring 1 4 digits ++ space
       ++ substring 4 7 digits ++ space ++ substring 7 11 digits.

Definition expiryDate (text : jsstring) : jsstring :=
  let digits := substring 0 4 (digits_only text) in
  if (length digits <=? 2)%nat then digits
  else substring 0 2 digits ++ slash ++ substring_from 2 digits.

Definition ssn (text : jsstring) : jsstring :=
  let digits := substring 0 9 (digits_only text) in
  if (length digits <=? 3)%nat then digits
  else if (length digits <=? 5)%nat
  then substring 0 3 digits ++ dash ++ substring_from 3 digits
  else substring 0 3 digits ++ dash ++ substring 3 5 digits ++ dash
       ++ substring_from 5 digits.

End Masks.

(** The first two code units are a month, 01 to 12: [(0[1-9]|1[0-2])]. *)
Definition is_month (m1 m2 : Z) : bool :=
  ((m1 =? 48) && (49 <=? m2) && (m2 <=? 57)) || ((m1 =? 49) && (48 <=? m2) && (m2 <=? 50)).

(** A [z.string().regex(pattern, message)] validator: the strings the
    pattern matches and the message of the issue otherwise. *)
Record validator := mk_validator {
  matches : jsstring -> bool;
  issue : string;
}.

Module Validators.

(** [/^\+?[0-9]{10,15}$/] *)
Definition phone : validator :=
  mk_validator
    (fun v =>
       let rest := match v with c :: rest => if c =? 43 then rest else v | [] => v end in
       (10 <=? length rest)%nat && (length rest <=? 15)%nat && forallb is_digit rest)
    "Please enter a valid phone number".

(** [/^[0-9]{16}$/] *)
Definition creditCard : validator :=
  mk_validator (fun v => (length v =? 16)%nat && forallb is_digit v)
    "Please enter a valid 16-digit card number".

(** [/^[0-9]{3,4}$/] *)
Definition cvv : validator :=
  mk_validator
    (fun v => (3 <=? length v)%nat && (length v <=? 4)%nat && forallb is_digit v)
    "Please enter a valid CVV code".

(** [/^(0[1-9]|1[0-2])\/([0-9]{2})$/] *)
Definition expiryDate : validator :=
  mk_validator
    (fun v =>
       match v with
       | [m1; m2; s; y1; y2] =>
           is_month m1 m2 && (s =? 47) && is_digit y1 && is_digit y2
       | _ => false
       end)
    "Please use MM/YY format".

End Validators.

(** [validateInput(inputValue)] of the component for a validator that is
    a Zod schema of the kind above, [errorMessage] being the prop of that
    name: the new [error] state and the result. *)
Definition validateInput (v : validator) (errorMessage : option string)
    (inputValue : jsstring) : string * bool :=
  if matches v inputValue then ("", true)
  else (or_str (Some (issue v)) (or_str errorMessage "Invalid input"), false).

End SecureInputMasks.

(* ===================================================================== *)
(** * Authorization middleware (examples/nextjs/middleware/auth-middleware.js) *)
(* ===================================================================== *)

Module AuthMiddleware.
Import Js.
Import CertificatePinning (own_property).

Record route := mk_route {
  path : string;
  requiredRole : string;
}.

Definition protectedRoutes : list route :=
  [mk_route "/dashboard" "user";
   mk_route "/admin" "admin";
   mk_route "/api/admin" "admin"].

(** [s.startsWith(p)] *)
Definition startsWith (s p : string) : bool := String.prefix p s.

(** [pathname === route.path || pathname.startsWith(`${route.path}/`)] *)
Definition route_matches (pathname : string) (r : route) : bool :=
  String.eqb pathname (path r) || startsWith pathname (path r +:+ "/").

(** White space as [\s] finds it in the template of the policy. *)
Definition is_space (c : Ascii.ascii) : bool :=
  let n := Ascii.nat_of_ascii c in
  ((9 <=? n)%nat && (n <=? 13)%nat) || (n =? 32)%nat.

(** [s.replace(/\s+/g, ' ')] *)
Fixpoint collapse_spaces (in_run : bool) (s : string) : string :=
  match s with
  | EmptyString => EmptyString
  | String c rest =>
      if is_space c
      then if in_run then collapse_spaces true rest
           else " " +:+ collapse_spaces true rest
      else String c (collapse_spaces false rest)
  end.

Fixpoint trim_start (s : string) : string :=
  match s with
  | String c rest => if is_space c then trim_start rest else s
  | EmptyString => EmptyString
  end.

Fixpoint trim_end (s : string) : string :=
  match s with
  | EmptyString => EmptyString
  | String c rest =>
      match trim_end rest with
      | EmptyString => if is_space c then EmptyString else String c EmptyString
      | rest' => String c rest'
      end
  end.

(** [s.trim()] *)
Definition trim (s : string) : string := trim_end (trim_start s).

Definition policy_template : string :=
"
    default-src 'self';
    script-src 'self' 'unsafe-inline' 'unsafe-eval';
    style-src 'self' 'unsafe-inline';
    img-src 'self' data:;
    font-src 'self';
    object-src 'none';
    base-uri 'self';
    form-action 'self';
    frame-ancestors 'self';
    block-all-mixed-content;
    upgrade-insecure-requests;
  ".

Definition secureHeaders : list (string * string) :=
  [("X-DNS-Prefetch-Control", "on");
   ("Strict-Transport-Security", "max-age=63072000; includeSubDomains; preload");
   ("X-XSS-Protection", "1; mode=block");
   ("X-Content-Type-Options", "nosniff");
   ("Referrer-Policy", "strict-origin-when-cross-origin");
   ("Content-Security-Policy", trim (collapse_spaces false policy_template));
   ("Permissions-Policy", "camera=(), microphone=(), geolocation=()")].

(** The token of [getToken], as far as the middleware reads it: the
    [role] claim, a string or absent. *)
Record jwt := mk_jwt {
  role : option string;
}.

Definition roleHierarchy : list (string * list string) :=
  [("admin", ["admin"; "user"; "guest"]);
   ("user", ["user"; "guest"]);
   ("guest", ["guest"])].

(** [userRole && roleHierarchy[userRole]?.includes(requiredRole)], read
    for its truthiness.  A role named like a property that every object
    inherits finds a value without [includes], and the call throws. *)
Definition hasAccess (userRole : option string) (required : string) : completion bool :=
  match userRole with
  | None => Normal false
  | Some r =>
      if String.eqb r "" then Normal false
      else match own_property roleHierarchy r with
           | Some roles => Normal (existsb (String.eqb required) roles)
           | None =>
               if ObjectPrototype.is_inherited r
               then Throw (TypeError "roleHierarchy[userRole]?.includes is not a function")
               else Normal false
           end
  end.

(** What the middleware returns: the response passed on, a redirect to
    a path of the site, or a response whose body is the JSON text of
    [{ error }]. *)
Inductive outcome :=
| Pass
| RedirectTo (pathname : string) (searchParams : list (string * string))
| Body (status : Z) (error : string).

Record reply := mk_response {
  result : outcome;
  headers : list (string * string);
}.

(** [response.headers.set(key, value)] for every entry of the table. *)
Definition with_headers (table hs : list (string * string)) : list (string * string) :=
  fold_left (fun acc kv => PinnedClient.set_property acc (fst kv) (snd kv)) table hs.

(** [NextResponse.redirect(new URL(pathname, request.url))] *)
Definition redirect (pathname : string) (searchParams : list (string * string)) : reply :=
  mk_response (RedirectTo pathname searchParams) [].

(** [new NextResponse(JSON.stringify({ error }), { status, headers })] *)
Definition json_error (status : Z) (error : string) : reply :=
  mk_response (Body status error) [("Content-Type", "application/json")].

(** [middleware(request)], for the pathname of the request and what
    [getToken] answers; the second component tells whether the error was
    logged. *)
Definition middleware (pathname : string) (getToken : completion (option jwt))
    : reply * bool :=
  let response := mk_response Pass (with_headers secureHeaders []) in
  let isProtectedRoute := existsb (route_matches pathname) protectedRoutes in
  if negb isProtectedRoute then (response, false)
  else
    let body : completion reply :=
      match getToken with
      | Throw e => Throw e
      | Normal None =>
          Normal (redirect "/auth/login" [("returnUrl", pathname)])
      | Normal (Some token) =>
          match List.find (route_matches pathname) protectedRoutes with
          | Some routeConfig =>
              if String.eqb (requiredRole routeConfig) "" then Normal response
              else
                match hasAccess (role token) (requiredRole routeConfig) with
                | Throw e => Throw e
                | Normal true => Normal response
                | Normal false =>
                    if startsWith pathname "/api/"
                    then Normal (json_error 403 "Insufficient permissions")
                    else Normal (redirect "/unauthorized" [])
                end
          | None => Normal response
          end
      end in
    match body with
    | Normal r => (r, false)
    | Throw _ =>
        if startsWith pathname "/api/"
        then (json_error 401 "Authentication error", true)
        else (redirect "/auth/error" [], true)
    end.

(** The role the first matching route requires. *)
Definition required (pathname : string) : option string :=
  match List.find (route_matches pathname) protectedRoutes with
  | Some r => Some (requiredRole r)
  | None => None
  end.

Definition passes (r : reply) : bool :=
  match result r with Pass => true | _ => false end.

End AuthMiddleware.

(* ===================================================================== *)
(** * Input validation (examples/nextjs/utils/input-validation.js) *)
(* ===================================================================== *)

Module InputValidation.
Import Js.

(** An issue of a [ZodError]: the path to the value, its segments as
    [join] writes them, and the message. *)
Record issue := mk_issue {
  issue_path : list string;
  issue_message : string;
}.

(** What [schema.parse(data)] does. *)
Inductive parsed (D : Type) :=
| Valid (validatedData : D)
| ZodError (errors : list issue)
| OtherError (e : error).
Arguments Valid {D}.
Arguments ZodError {D}.
Arguments OtherError {D}.

(** [err.path.join('.')] *)
Definition join_path (path : list string) : string := String.concat "." path.

(** [acc[path] = err.message] on an object literal: the assignment to
    [__proto__] goes to the setter of [Object.prototype], which ignores a
    string. *)
Definition assign (acc : gmap string string) (key value : string) : gmap string string :=
  if String.eqb key "__proto__" then acc else <[key := value]> acc.

(** [error.errors.reduce(.., {})] *)
Definition formattedErrors (errors : list issue) : gmap string string :=
  fold_left (fun acc err => assign acc (join_path (issue_path err)) (issue_message err))
    errors ∅.

Record validation (D : Type) := mk_validation {
  data : option D;
  success : bool;
  errors : option (gmap string string);
}.
Arguments mk_validation {D}.
Arguments data {D}.
Arguments success {D}.
Arguments errors {D}.

(** [validateInput(data, schema)], given what [schema.parse(data)] does:
    the result and whether the error was logged. *)
Definition validateInput {D} (parse : parsed D) : validation D * bool :=
  match parse with
  | Valid validatedData => (mk_validation (Some validatedData) true None, false)
  | ZodError errs => (mk_validation None false (Some (formattedErrors errs)), false)
  | OtherError _ =>
      (mk_validation None false
         (Some {[ "_form" := "Validation failed. Please check your input." ]}), true)
  end.

(** The response of the route: [null] until [status(..).json(..)]. *)
Inductive body :=
| Errors (errors : gmap string string)
| InternalError.

Record exchange (D : Type) := mk_exchange {
  req_source : option D;
  answered : option (Z * body);
  next_calls : nat;
  logged : list string;
}.
Arguments mk_exchange {D}.
Arguments req_source {D}.
Arguments answered {D}.
Arguments next_calls {D}.
Arguments logged {D}.

(** [validateRequest(schema, source)(req, res, next)].  [respond] tells
    whether [res.status(400).json(..)] returns or throws, [next] whether
    the next handler does. *)
Definition validateRequest {D} (parse : parsed D) (respond next : completion unit)
    (x : exchange D) : exchange D :=
  let '(result, was_logged) := validateInput parse in
  let x0 := mk_exchange (req_source x) (answered x) (next_calls x)
              (logged x ++ if was_logged then ["Validation error:"] else []) in
  let caught (x' : exchange D) :=
    mk_exchange (req_source x') (Some (500, InternalError)) (next_calls x')
      (logged x' ++ ["Request validation error:"]) in
  if negb (success result) then
    match respond with
    | Normal _ =>
        mk_exchange (req_source x0) (Some (400, Errors (default (errors result) ∅)))
          (next_calls x0) (logged x0)
    | Throw _ => caught x0
    end
  else
    let x1 := mk_exchange (data result) (answered x0) (S (next_calls x0)) (logged x0) in
    match next with
    | Normal _ => x1
    | Throw _ => caught x1
    end.

(** The issues reported for a key, in the order of the error. *)
Definition issues_at (key : string) (errs : list issue) : list issue :=
  List.filter (fun err => String.eqb (join_path (issue_path err)) key) errs.

End InputValidation.

(* ===================================================================== *)
(** * Properties of the cache model *)
(* ===================================================================== *)

Module LRUFacts.
Import Js LRU.

Lemma find_key k l e : find k l = Some e -> e_key e = k.
Proof.
  induction l as [|x l IH]; simpl; [discriminate|].
  destruct (String.eqb k (e_key x)) eqn:E; [|exact IH].
  intros [= <-]. symmetry. now apply String.eqb_eq.
Qed.

Lemma find_remove_same k l : find k (remove k l) = None.
Proof.
  induction l as [|x l IH]; simpl; [reflexivity|].
  destruct (String.eqb k (e_key x)) eqn:E; simpl; [exact IH|].
  now rewrite E.
Qed.

Lemma find_remove_other k k' l : k <> k' -> find k' (remove k l) = find k' l.
Proof.
  intros Hne. induction l as [|x l IH]; simpl; [reflexivity|].
  destruct (String.eqb k (e_key x)) eqn:E; simpl.
  - apply String.eqb_eq in E. subst k.
    destruct (String.eqb k' (e_key x)) eqn:E'; [|exact IH].
    apply String.eqb_eq in E'. congruence.
  - now rewrite IH.
Qed.

Lemma evict_cons c e l : exists l', evict c (e :: l) = e :: l'.
Proof.
  unfold evict. destruct (0 <? max c) eqn:E; [|now eexists].
  apply Z.ltb_lt in E.
  destruct (Z.to_nat (max c)) as [|n] eqn:En; [lia|].
  simpl. now eexists.
Qed.

(** What [get] returns depends on the entry found and its age only. *)
Lemma get_value k now c :
  fst (get k now c) =
  match find k (items c) with
  | Some e => if stale c now e then None else Some (e_value e)
  | None => None
  end.
Proof.
  unfold get. destruct (find k (items c)) as [e|]; [|reflexivity].
  now destruct (stale c now e).
Qed.

Lemma fresh_not_stale c k v now l :
  stale (with_items c l) now (mk_entry k v now) = false.
Proof.
  unfold stale; simpl. rewrite Z.sub_diag.
  destruct (0 <? ttl c) eqn:E; [|reflexivity].
  apply Z.ltb_lt in E. simpl. apply Z.ltb_ge. lia.
Qed.

(** A value just stored is read back. *)
Lemma get_set_same k v now c : fst (get k now (set k v now c)) = Some v.
Proof.
  rewrite get_value. unfold set.
  destruct (evict_cons c (mk_entry k v now) (remove k (items c))) as [l' ->].
  simpl. rewrite String.eqb_refl.
  now rewrite fresh_not_stale.
Qed.

(** [get] reorders or drops entries but never changes what a later
    [get] at the same time returns, for any key. *)
Lemma get_get k k' now c :
  fst (get k' now (snd (get k now c))) = fst (get k' now c).
Proof.
  rewrite !get_value. unfold get.
  destruct (find k (items c)) as [e|] eqn:Hf; [|reflexivity].
  pose proof (find_key _ _ _ Hf) as Hk.
  destruct (stale c now e) eqn:Hs; simpl.
  - destruct (String.eqb_spec k k') as [->|Hne].
    + now rewrite find_remove_same, Hf, Hs.
    + now rewrite find_remove_other.
  - destruct (String.eqb_spec k' (e_key e)) as [He|He].
    + rewrite He, Hk in *. rewrite Hf. unfold stale in *. simpl. now rewrite Hs.
    + rewrite find_remove_other by congruence. reflexivity.
Qed.

(** The same for a later reading of the clock: an entry that [get]
    dropped as stale stays stale. *)
Lemma get_get_later k k' now now' c :
  now <= now' ->
  fst (get k' now' (snd (get k now c))) = fst (get k' now' c).
Proof.
  intros Hle. rewrite !get_value. unfold get.
  destruct (find k (items c)) as [e|] eqn:Hf; [|reflexivity].
  pose proof (find_key _ _ _ Hf) as Hk.
  destruct (stale c now e) eqn:Hs; simpl.
  - destruct (String.eqb_spec k k') as [->|Hne].
    + rewrite find_remove_same, Hf.
      assert (stale c now' e = true) as ->; [|reflexivity].
      unfold stale in *. apply andb_true_iff in Hs as [H0 Hs].
      rewrite H0. simpl. apply Z.ltb_lt in Hs. apply Z.ltb_lt. lia.
    + now rewrite find_remove_other.
  - destruct (String.eqb_spec k' (e_key e)) as [He|He].
    + rewrite He, Hk in *. now rewrite Hf.
    + rewrite find_remove_other by congruence. reflexivity.
Qed.

End LRUFacts.

(* ===================================================================== *)
(** * Properties of the rate limiter *)
(* ===================================================================== *)

Module RateLimitFacts.
Import Js RateLimit.
Local Open Scope js_scope.

Lemma or_num_zero (v : Z) : or_num (Some v) 0 = v.
Proof. unfold or_num. destruct (Z.eqb_spec v 0); congruence. Qed.

(** [check] stops at [tokenCache.getTtl]: it throws that TypeError and
    leaves the cache as its own [get] left it. *)
Lemma check_throws limit_arg token now l :
  check limit_arg token now l =
  (Throw LRU.getTtl_error, set_cache l (snd (LRU.get token now (tokenCache l)))).
Proof.
  unfold check. now destruct (LRU.get token now (tokenCache l)) as [cached c1].
Qed.


(** The [get] of a call changes no count read at that time or later. *)
Lemma stored_count_get t token now now' l :
  now <= now' ->
  stored_count t now' (set_cache l (snd (LRU.get token now (tokenCache l)))) =
  stored_count t now' l.
Proof.
  intros Hle. unfold stored_count. cbn [tokenCache set_cache].
  now rewrite LRUFacts.get_get_later.
Qed.

Lemma get_absent token now c :
  LRU.find token (LRU.items c) = None -> snd (LRU.get token now c) = c.
Proof. unfold LRU.get. now intros ->. Qed.

(** C8, what the code does.  No call of [check] gets as far as storing
    the count or testing the limit: [tokenCache.getTtl] is not a
    function, so every call throws that TypeError (which has no status
    429 and is not the 'Rate limit exceeded' error, whatever the limit
    and the count), returns no result, and leaves the count of every
    token as it was; a cache without an entry for the token is left
    untouched. *)
Theorem check_throws_before_recording
    (l : limiter) (limit_arg : option Z) (token : string) (now : Z) :
  let r := fst (check limit_arg token now l) in
  let l' := snd (check limit_arg token now l) in
  r = Throw LRU.getTtl_error /\
  err_status LRU.getTtl_error <> Some 429 /\
  (forall info, r <> Throw (rate_limit_error info)) /\
  (forall t, stored_count t now l' = stored_count t now l) /\
  (LRU.find token (LRU.items (tokenCache l)) = None -> l' = l).
Proof.
  cbv zeta. rewrite check_throws. cbn [fst snd]. repeat split.
  - discriminate.
  - intros info. discriminate.
  - intros t. apply stored_count_get. lia.
  - intros Hf. rewrite get_absent by exact Hf. now destruct l.
Qed.

(** ** [getStatus] and the token cache *)




(** An instance keeps the [this] of the [rateLimit] call that made it. *)
Lemma rateLimit_this this_ o l : rateLimit this_ o = Normal l -> lim_this l = this_.
Proof.
  unfold rateLimit. destruct (LRU.create _ _); [|discriminate].
  now intros [= <-].
Qed.

Lemma check_this limit_arg token now l :
  lim_this (snd (check limit_arg token now l)) = lim_this l.
Proof. now rewrite check_throws. Qed.

(** ** The wrapped handler *)

Section Wrapped.
Context {V : Type} (globals : gmap string jsval) (handler : handler_fn V).

(** C1, what the code does.  On an instance made by a plain call
    [rateLimit(...)] the arrow function's [this] is not the instance,
    [this.check] throws a TypeError, and the wrapped handler answers
    500 for every request whose token is generated normally: the
    original handler is not called, no attempt is counted, whatever
    the token's count. *)
Theorem withRateLimit_plain_instance_responds_500
    (options : wrap_options) (req : request) (now : Z) (w : world) (token : string) :
  lim_this (w_limiter w) <> ThisInstance ->
  generate_token options req = Normal token ->
  withRateLimit V globals handler options req now w =
  (Normal ResponseSent,
   responded 500 body_500 (logged (ConsoleError "Rate limit error:") w)).
Proof.
  intros Hthis Htok.
  unfold withRateLimit, try_catch, bind, get_state, lift_completion. simpl.
  rewrite Htok. unfold this_check.
  destruct (lim_this (w_limiter w)); [reflexivity | reflexivity | congruence].
Qed.

(** With [this] bound to the instance the answer is 500 all the same:
    [check] throws the TypeError of [tokenCache.getTtl], the handler is
    not called and nothing is counted. *)
Lemma withRateLimit_bound_instance_responds_500
    (options : wrap_options) (req : request) (now : Z) (w : world) (token : string) :
  lim_this (w_limiter w) = ThisInstance ->
  generate_token options req = Normal token ->
  withRateLimit V globals handler options req now w =
  (Normal ResponseSent,
   responded 500 body_500
     (logged (ConsoleError "Rate limit error:")
        (mk_world
           (snd (check (Some (default (wo_limit options) (lim_maxRequests (w_limiter w))))
                   token now (w_limiter w)))
           (w_res w) (w_log w)))).
Proof.
  intros Hthis Htok.
  unfold withRateLimit, try_catch, bind, get_state, lift_completion. simpl.
  rewrite Htok. unfold this_check. rewrite Hthis.
  rewrite check_throws. reflexivity.
Qed.

(** When an error with status 429 reaches the [catch] block (the key
    generator may throw one), the block reads [headers], which only the
    [try] block declares: unless the host defines a global of that name
    the wrapped handler rejects with a ReferenceError and sends
    nothing. *)
Lemma withRateLimit_status_429_rejects
    (options : wrap_options) (req : request) (now : Z) (w : world) (e : error) :
  generate_token options req = Throw e ->
  err_status e = Some 429 ->
  globals !! "headers" = None ->
  withRateLimit V globals handler options req now w =
  (Throw (ReferenceError "headers"), w).
Proof.
  intros Htok Hst Hg.
  unfold withRateLimit, try_catch, bind, get_state, lift_completion. simpl.
  rewrite Htok. unfold withRateLimit_catch.
  rewrite bool_decide_eq_true_2 by exact Hst.
  unfold bind, read_global. simpl. now rewrite Hg.
Qed.

End Wrapped.

(** A first request to a handler wrapped by the global instance. *)
Lemma withRateLimit_plain_instance_responds_500_witness :
  withRateLimit unit ∅ (fun _ r => (Normal tt, r)) (mk_wrap_options None None None)
    (mk_request None (Some "203.0.113.7")) 1000
    (mk_world globalLimiter0 fresh_response []) =
  (Normal ResponseSent,
   responded 500 body_500
     (logged (ConsoleError "Rate limit error:")
        (mk_world globalLimiter0 fresh_response []))).
Proof.
  apply (withRateLimit_plain_instance_responds_500 ∅ (fun _ r => (Normal tt, r))
           (mk_wrap_options None None None) (mk_request None (Some "203.0.113.7"))
           1000 (mk_world globalLimiter0 fresh_response []) "203.0.113.7").
  - discriminate.
  - reflexivity.
Defined.

End RateLimitFacts.

(* ===================================================================== *)
(** * Properties of the CSRF wrapper *)
(* ===================================================================== *)

Module CsrfProtectionFacts.
Import Js CsrfProtection.

Section Wrapper.
Context {Req V T : Type}.
Context (withIronSessionApiRoute : handler_fn Req V T -> session_options -> handler_fn Req V T).
Context (csrfMiddleware : Req -> response T -> completion unit * response T).
Context (env : process_env).

(** C6, as the code has it.  When the CSRF middleware resolves, the
    session-wrapped handler is called; when that returns, its result is
    returned.  One [catch] block takes the errors of both: an error of
    the CSRF middleware (the handler is then not called) and an error of
    the called handler.  It answers 403 with error 'Invalid CSRF token'
    when the error's code is 'CSRF_TOKEN_INVALID' and 500, after logging
    the error, otherwise. *)
Theorem withCsrfApiRoute_outcomes
    (handler : handler_fn Req V T) (req : Req) (w : world T) :
  let withSession := withIronSessionApiRoute handler (sessionOptions env) in
  let wrapped := withCsrfApiRoute Req V T withIronSessionApiRoute csrfMiddleware env in
  match csrfMiddleware req (w_res w) with
  | (Normal _, res1) =>
      match withSession req res1 with
      | (Normal v, res2) =>
          wrapped handler req w =
          (Normal (HandlerReturned v), mk_world res2 (w_log w ++ [SessionHandlerCalled]))
      | (Throw e, res2) =>
          wrapped handler req w =
          (Normal ResponseSent,
           answered e (mk_world res2 (w_log w ++ [SessionHandlerCalled])))
      end
  | (Throw e, res1) =>
      wrapped handler req w = (Normal ResponseSent, answered e (mk_world res1 (w_log w)))
  end.
Proof.
  intros withSession wrapped. subst wrapped.
  unfold withCsrfApiRoute, try_catch, bind, run_csrfMiddleware, call_withSession.
  fold withSession.
  destruct (csrfMiddleware req (w_res w)) as [[[]|e] res1]; simpl.
  - destruct (withSession req res1) as [[v|e] res2]; [reflexivity|].
    unfold withCsrfApiRoute_catch, answered.
    destruct (bool_decide (err_code e = Some "CSRF_TOKEN_INVALID")); reflexivity.
  - unfold withCsrfApiRoute_catch, answered.
    destruct (bool_decide (err_code e = Some "CSRF_TOKEN_INVALID")); reflexivity.
Qed.

End Wrapper.

(** C6 as stated fails: CSRF validation passes and the handler throws.
    The handler was invoked, yet the answer is the 500 of the error
    case and what the handler did (its rejection) is not what the
    wrapper returns; were the code of its error 'CSRF_TOKEN_INVALID',
    the answer would be 403 'Invalid CSRF token'. *)
Lemma handler_error_answered_as_csrf_error :
  withCsrfApiRoute unit unit unit plain_session passing_csrf no_env
    (failing_handler (Error "database unavailable")) tt fresh_world =
  (Normal ResponseSent,
   mk_world
     (mk_response (Some 500)
        (Some [("error", VStr "Internal server error");
               ("message", VStr "An unexpected error occurred")]) tt)
     [SessionHandlerCalled; ConsoleError "CSRF error:"]) /\
  withCsrfApiRoute unit unit unit plain_session passing_csrf no_env
    (failing_handler (mk_error "Error" "stale" None (Some "CSRF_TOKEN_INVALID") None))
    tt fresh_world =
  (Normal ResponseSent,
   mk_world
     (mk_response (Some 403)
        (Some [("error", VStr "Invalid CSRF token");
               ("message", VStr "CSRF validation failed. Please try again.")]) tt)
     [SessionHandlerCalled]).
Proof. split; reflexivity. Qed.

End CsrfProtectionFacts.

(* ===================================================================== *)
(** * Properties of the permission history *)
(* ===================================================================== *)

Module PermissionsManagerFacts.
Import Js PermissionsManager.

Lemma slice_last_length {A} (n : nat) (l : list A) : (length (slice_last n l) <= n)%nat.
Proof. unfold slice_last. rewrite length_drop. lia. Qed.

Lemma slice_last_short {A} (n : nat) (l : list A) :
  (length l <= n)%nat -> slice_last n l = l.
Proof.
  intros H. unfold slice_last.
  replace (length l - n)%nat with 0%nat by lia. reflexivity.
Qed.

(** Appending and trimming amount to one update of the history object. *)
Lemma push_trim permissionType e (h h1 : gmap string (list history_entry)) :
  push_entry permissionType e h = Normal h1 ->
  trim permissionType h1 =
  <[permissionType := slice_last 5 (default (h !! permissionType) [] ++ [e])]> h.
Proof.
  unfold push_entry, trim. intros H.
  assert (h1 = <[permissionType := default (h !! permissionType) [] ++ [e]]> h) as ->.
  { destruct (h !! permissionType) as [l|]; simpl.
    - now injection H as <-.
    - destruct (ObjectPrototype.is_inherited permissionType); [discriminate|].
      now injection H as <-. }
  rewrite lookup_insert_eq.
  destruct (Nat.ltb_spec 5 (length (default (h !! permissionType) [] ++ [e]))).
  - now rewrite insert_insert_eq.
  - now rewrite slice_last_short by lia.
Qed.

Lemma bounded_insert k l (h : gmap string (list history_entry)) :
  bounded (History h) -> (length l <= 5)%nat -> bounded (History (<[k := l]> h)).
Proof.
  intros Hb Hl k' l'. simpl in *.
  destruct (decide (k = k')) as [->|Hne].
  - rewrite lookup_insert_eq. now intros [= <-].
  - rewrite lookup_insert_ne by done. apply Hb.
Qed.

Lemma bounded_history_of s : bounded s -> bounded (History (history_of s)).
Proof.
  destruct s; simpl; intros H k l; try (rewrite lookup_empty; discriminate).
  apply H.
Qed.

(** What a successful run writes back. *)
Lemma savePermissionHistory_try_ok permissionType result env s s' :
  savePermissionHistory_try permissionType result env s = Normal s' ->
  exists ts, toISOString env = Some ts /\
    s' = History (<[permissionType :=
                      slice_last 5 (previous permissionType s ++ [mk_history_entry result ts])]>
                    (history_of s)).
Proof.
  unfold savePermissionHistory_try, previous.
  destruct (getItem_ok env); simpl; [|discriminate].
  destruct s as [| |h]; try discriminate;
    (destruct (toISOString env) as [ts|]; [|discriminate]);
    (destruct (push_entry _ _ _) as [h1|] eqn:Hp; [|discriminate]);
    (destruct (setItem_ok env); [|discriminate]);
    intros [= <-]; exists ts; split; trivial; f_equal;
    now apply push_trim in Hp.
Qed.

(** C10. [savePermissionHistory] keeps the stored history within five
    entries per permission type: from any stored history within the
    bound, every call (whatever AsyncStorage and the clock do) leaves one
    within the bound.  When the call stores something, the entries of
    the requested type are the last five of the old entries followed by
    the new one; when it fails the stored item is unchanged. *)
Theorem savePermissionHistory_preserves_bound
    (permissionType result : string) (env : io) (s : stored) :
  bounded s ->
  bounded (savePermissionHistory permissionType result env s) /\
  match savePermissionHistory_try permissionType result env s with
  | Normal s' =>
      exists ts, toISOString env = Some ts /\
        savePermissionHistory permissionType result env s = s' /\
        history_of s' !! permissionType =
          Some (slice_last 5 (previous permissionType s ++ [mk_history_entry result ts]))
  | Throw _ => savePermissionHistory permissionType result env s = s
  end.
Proof.
  intros Hb. unfold savePermissionHistory.
  destruct (savePermissionHistory_try permissionType result env s) as [s'|e] eqn:Ht.
  - apply savePermissionHistory_try_ok in Ht as (ts & Hts & ->).
    split.
    + apply bounded_insert; [now apply bounded_history_of | apply slice_last_length].
    + exists ts. repeat split; trivial. simpl. apply lookup_insert_eq.
  - split; trivial.
Qed.

(** A history holding five camera requests, and a sixth one recorded. *)
Lemma savePermissionHistory_preserves_bound_witness :
  let e := mk_history_entry "denied" "2024-01-01T00:00:00.000Z" in
  let s := History {[ "CAMERA" := [e; e; e; e; e] ]} in
  bounded s /\
  bounded (savePermissionHistory "CAMERA" "granted" (io_ok "2024-01-02T00:00:00.000Z") s).
Proof.
  intros e s.
  assert (Hs : bounded s).
  { intros k l H. apply lookup_singleton_Some in H as [_ <-]. simpl. lia. }
  split; [exact Hs|].
  exact (proj1 (savePermissionHistory_preserves_bound "CAMERA" "granted"
                  (io_ok "2024-01-02T00:00:00.000Z") s Hs)).
Defined.

End PermissionsManagerFacts.

(* ===================================================================== *)
(** * Properties of the certificate pinning helper *)
(* ===================================================================== *)

Module CertificatePinningFacts.
Import Js CertificatePinning.

(** No name inherited from [Object.prototype] is an entry of the table
    or a subdomain of one. *)
Lemma inherited_not_configured domain :
  ObjectPrototype.is_inherited domain = true -> pinning_configuration domain = None.
Proof.
  unfold ObjectPrototype.is_inherited. intros H.
  apply existsb_exists in H as (x & Hin & Heq).
  apply String.eqb_eq in Heq. subst x.
  unfold ObjectPrototype.inherited in Hin. simpl in Hin.
  repeat (destruct Hin as [<-|Hin]; [reflexivity|]).
  contradiction.
Qed.

Lemma findPinnedDomain_configured domain c :
  pinning_configuration domain = Some c -> findPinnedDomain domain = Config c.
Proof.
  intros H. unfold findPinnedDomain.
  destruct (ObjectPrototype.is_inherited domain) eqn:Hi.
  - rewrite inherited_not_configured in H by exact Hi. discriminate.
  - unfold pinning_configuration in H.
    destruct (own_property PINNED_DOMAINS domain); [congruence|].
    now rewrite H.
Qed.

Lemma findPinnedDomain_not_configured domain :
  pinning_configuration domain = None ->
  ObjectPrototype.is_inherited domain = false ->
  findPinnedDomain domain = NotPinned.
Proof.
  intros H Hi. unfold findPinnedDomain, pinning_configuration in *.
  destruct (own_property PINNED_DOMAINS domain); [discriminate|].
  now rewrite Hi, H.
Qed.

(** A hostname that names an inherited property is no entry of the
    table, yet the direct lookup finds a truthy value for it. *)
Lemma findPinnedDomain_constructor :
  pinning_configuration "constructor" = None /\
  findPinnedDomain "constructor" = PrototypeValue.
Proof. split; reflexivity. Qed.

Lemma offline_message_is_no_certificate_error :
  let m := "No internet connection" in
  includes m "certificate" || includes m "SSL" || includes m "pinning" = false.
Proof. reflexivity. Qed.

(** C5 as stated fails: without connectivity a URL whose hostname is
    pinned is forwarded nowhere; the call rejects after the
    connectivity check. *)
Lemma secureFetch_offline_not_forwarded :
  pinning_configuration "api.example.com" =
    Some (mk_pin_config true
            ["sha256/AAAAAAAAAAAAAAAAAAAAAAAAAAAAAAAAAAAAAAAAAAA=";
             "sha256/BBBBBBBBBBBBBBBBBBBBBBBBBBBBBBBBBBBBBBBBBBB="]) /\
  secureFetch unit offline_host "https://api.example.com/users" None None [] =
    (Throw (Error "No internet connection"),
     [NetInfoFetch; ConsoleError "Secure fetch error:"]) /\
  existsb is_pinned_call
    (snd (secureFetch unit offline_host "https://api.example.com/users" None None [])) = false.
Proof. repeat split. Qed.

Section Host.
Context {R : Type} (h : host R).

(** C5, as the code has it.  [secureFetch] first asks NetInfo; without
    connectivity it rejects with 'No internet connection' and sends
    nothing.  With connectivity and a URL that parses: if the hostname
    has a pinning configuration, the request goes to the pinning
    library's fetch with that configuration's certificate hashes and
    its result is returned as it is; if it has none (and does not name
    a property inherited from [Object.prototype]) the request goes to
    the plain [fetch] with the timeout added and the processed response
    is returned.  Every failure passes through the [catch] block; the
    function itself verifies no certificate. *)
Theorem secureFetch_forwards
    (url : string) (options : option request_options) (timeout : option Z)
    (tr : list call) :
  let o := default options (mk_request_options None None None) in
  let t := default timeout DEFAULT_TIMEOUT in
  match isConnected h with
  | Normal false =>
      secureFetch R h url options timeout tr =
      (Throw (Error "No internet connection"),
       tr ++ [NetInfoFetch; ConsoleError "Secure fetch error:"])
  | Normal true =>
      match hostname h url with
      | Normal domain =>
          match pinning_configuration domain with
          | Some c =>
              let po := pinningOptions_of R h o t (Config c) in
              po_sslPinning_certs po = Some (certs c) /\
              secureFetch R h url options timeout tr =
              match sslPinningFetch h url po with
              | Normal r => (Normal r, tr ++ [NetInfoFetch; SslPinningFetch url po])
              | Throw e =>
                  secureFetch_catch R e (tr ++ [NetInfoFetch; SslPinningFetch url po])
              end
          | None =>
              if ObjectPrototype.is_inherited domain then True else
              let fo := mk_fetch_options o t in
              let warned :=
                tr ++ [NetInfoFetch;
                       ConsoleWarn ("Certificate pinning not configured for " +:+ domain);
                       Fetch url fo] in
              secureFetch R h url options timeout tr =
              match fetch h url fo with
              | Normal response =>
                  match processResponse R response with
                  | Normal r => (Normal r, warned)
                  | Throw e => secureFetch_catch R e warned
                  end
              | Throw e => secureFetch_catch R e warned
              end
          end
      | Throw e => secureFetch R h url options timeout tr =
                   secureFetch_catch R e (tr ++ [NetInfoFetch])
      end
  | Throw e => secureFetch R h url options timeout tr =
               secureFetch_catch R e (tr ++ [NetInfoFetch])
  end.
Proof.
  intros o t.
  unfold secureFetch, try_catch, bind, record, modify, lift_completion, throw.
  fold o t.
  destruct (isConnected h) as [[|]|e]; simpl; [| |reflexivity].
  - destruct (hostname h url) as [domain|e]; [|reflexivity].
    destruct (pinning_configuration domain) as [c|] eqn:Hc.
    + rewrite (findPinnedDomain_configured _ _ Hc). simpl.
      split; [reflexivity|].
      rewrite <- app_assoc. simpl.
      destruct (sslPinningFetch h url _); reflexivity.
    + destruct (ObjectPrototype.is_inherited domain) eqn:Hi; [exact I|].
      rewrite (findPinnedDomain_not_configured _ Hc Hi). simpl.
      rewrite <- !app_assoc. simpl.
      destruct (fetch h url _) as [response|e]; [|reflexivity].
      destruct (processResponse R response); reflexivity.
  - unfold secureFetch_catch, bind, record, modify, throw. simpl.
    now rewrite <- app_assoc.
Qed.

End Host.

End CertificatePinningFacts.

(* ===================================================================== *)
(** * Properties of the secure input module *)
(* ===================================================================== *)

Module SecureInputFacts.
Import Js SecureInput.

Lemma a8_is_not_declared : binding module_scope "a8" = None.
Proof. reflexivity. Qed.

Section Module.
Context (globals : gmap string jsval) {Sheet : Type}.
Context (StyleSheet_create : style_sheet -> completion Sheet).

(** C3, what the code does.  The [styles] definition reads the
    identifier [a8] ([borderRadius: a8]), which neither the module nor
    (by hypothesis) the host declares: evaluating [styles] throws a
    ReferenceError before [StyleSheet.create] is called, and with it
    the evaluation of the module fails once [Validators] is built. *)
Theorem styles_throws_reference_error :
  globals !! "a8" = None ->
  styles globals Sheet StyleSheet_create tt = (Throw (ReferenceError "a8"), tt) /\
  evaluate_module globals Sheet StyleSheet_create (Normal tt) tt =
    (Throw (ReferenceError "a8"), tt).
Proof.
  intros Hg.
  unfold evaluate_module, styles, styles_literal, bind, lift_completion,
    read_identifier, read_global.
  rewrite a8_is_not_declared, Hg. split; reflexivity.
Qed.

End Module.

(** Evaluation on a host without extra globals, with a [StyleSheet.create]
    that returns its argument. *)
Lemma styles_throws_reference_error_witness :
  styles ∅ style_sheet Normal tt = (Throw (ReferenceError "a8"), tt) /\
  evaluate_module ∅ style_sheet Normal (Normal tt) tt = (Throw (ReferenceError "a8"), tt).
Proof.
  apply (styles_throws_reference_error ∅ Normal). reflexivity.
Defined.

End SecureInputFacts.

(* ===================================================================== *)
(** * Properties of the import structure *)
(* ===================================================================== *)

Module ExamplesFacts.
Import Examples.

(** C2 as stated fails: the authentication provider imports
    [checkBiometricAvailability] from the biometric module and calls
    it; the API route imports and calls [rateLimit]. *)
Lemma auth_provider_uses_biometric_auth :
  imported_names AuthProvider BiometricAuth = ["checkBiometricAvailability"] /\
  invokes_across AuthProvider BiometricAuth = true /\
  imported_names ApiRoute RateLimitModule = ["rateLimit"] /\
  invokes_across ApiRoute RateLimitModule = true.
Proof. repeat split. Qed.

(** C2, as the code has it.  Six import edges connect the example
    modules: the API route imports from the rate limiter, the auth
    configuration and the input validation; the auth provider from the
    API client and the biometric module; the API client from the
    certificate pinning module.  Every such edge except the one to the
    auth configuration is also invoked.  All other pairs of example
    modules are independent of each other. *)
Theorem cross_imports_are :
  cross_imports =
    [(ApiRoute, AuthConfig); (ApiRoute, InputValidation); (ApiRoute, RateLimitModule);
     (AuthProvider, ApiClient); (AuthProvider, BiometricAuth);
     (ApiClient, CertificatePinningModule)] /\
  List.filter (fun p => invokes_across (fst p) (snd p)) cross_imports =
    [(ApiRoute, InputValidation); (ApiRoute, RateLimitModule);
     (AuthProvider, ApiClient); (AuthProvider, BiometricAuth);
     (ApiClient, CertificatePinningModule)] /\
  (forall m t, depends_on m t = true <-> In (m, t) cross_imports).
Proof.
  split; [reflexivity|]. split; [reflexivity|].
  intros m t. split.
  - destruct m, t; vm_compute; intros H; try discriminate; tauto.
  - destruct m, t; vm_compute; intros H; try reflexivity;
      repeat (destruct H as [H|H]; [discriminate|]); contradiction.
Qed.

End ExamplesFacts.

(* ===================================================================== *)
(** * Properties of the encodings *)
(* ===================================================================== *)

Module EncodingFacts.
Import Encoding.

Ltac zlia := Z.to_euclidean_division_equations; lia.

(** Decide the comparisons in the goal by arithmetic. *)
Ltac decide_cmp :=
  repeat match goal with
  | |- context [?a <? ?b] =>
      first [ rewrite (proj2 (Z.ltb_lt a b)) by zlia
            | rewrite (proj2 (Z.ltb_ge a b)) by zlia ]
  | |- context [?a <=? ?b] =>
      first [ rewrite (proj2 (Z.leb_le a b)) by zlia
            | rewrite (proj2 (Z.leb_gt a b)) by zlia ]
  | |- context [?a =? ?b] =>
      first [ rewrite (proj2 (Z.eqb_eq a b)) by zlia
            | rewrite (proj2 (Z.eqb_neq a b)) by zlia ]
  end.

(** ** Base64 *)

Lemma base64_value_char n :
  0 <= n < 64 -> base64_value (base64_char n) = Some n /\ base64_char n <> pad.
Proof.
  intros Hn. unfold base64_char, base64_value, pad.
  destruct (Z.ltb_spec n 26); [decide_cmp; simpl; split; [f_equal|]; lia|].
  destruct (Z.ltb_spec n 52); [decide_cmp; simpl; split; [f_equal|]; lia|].
  destruct (Z.ltb_spec n 62); [decide_cmp; simpl; split; [f_equal|]; lia|].
  destruct (Z.eqb_spec n 62); [subst; simpl; split; [reflexivity|lia]|].
  assert (n = 63) as -> by lia. simpl. split; [reflexivity|lia].
Qed.

Lemma sextets_char n r : 0 <= n < 64 -> sextets (base64_char n :: r) = n :: sextets r.
Proof.
  intros Hn. destruct (base64_value_char n Hn) as [Hv Hp]. simpl.
  rewrite (proj2 (Z.eqb_neq _ _) Hp). now rewrite Hv.
Qed.

Lemma sextets_pad r : sextets (pad :: r) = [].
Proof. reflexivity. Qed.

(** Induction over a list three elements at a time. *)
Lemma list_ind3 {A} (P : list A -> Prop) :
  P [] -> (forall a, P [a]) -> (forall a b, P [a; b]) ->
  (forall a b c r, P r -> P (a :: b :: c :: r)) ->
  forall l, P l.
Proof.
  intros H0 H1 H2 H3.
  fix IH 1. intros [|a [|b [|c r]]].
  - exact H0.
  - apply H1.
  - apply H2.
  - apply H3, IH.
Qed.

Theorem base64_roundtrip (bs : list Z) :
  Forall is_byte bs -> base64_decode (base64_encode bs) = bs.
Proof.
  unfold base64_decode, is_byte.
  induction bs as [|a|a b|a b c r IH] using list_ind3; intros H.
  - reflexivity.
  - apply Forall_cons_1 in H as [Ha _].
    cbn [base64_encode]. rewrite !sextets_char, sextets_pad by zlia.
    cbn [bytes_of_sextets]. f_equal. zlia.
  - apply Forall_cons_1 in H as [Ha H]. apply Forall_cons_1 in H as [Hb _].
    cbn [base64_encode]. rewrite !sextets_char, sextets_pad by zlia.
    cbn [bytes_of_sextets]. f_equal; [|f_equal]; zlia.
  - apply Forall_cons_1 in H as [Ha H]. apply Forall_cons_1 in H as [Hb H].
    apply Forall_cons_1 in H as [Hc H].
    cbn [base64_encode app]. rewrite !sextets_char by zlia.
    cbn [bytes_of_sextets app]. rewrite (IH H).
    f_equal; [|f_equal; [|f_equal]]; zlia.
Qed.

Lemma base64_encode_nil bs : base64_encode bs = [] -> bs = [].
Proof. destruct bs as [|a [|b [|c r]]]; simpl; congruence. Qed.

(** ** UTF-8 *)

Ltac prune := cbn [andb orb negb]; cbv iota.

Ltac decide_step :=
  match goal with
  | |- context [?a <? ?b] =>
      first [ rewrite (proj2 (Z.ltb_lt a b)) by zlia
            | rewrite (proj2 (Z.ltb_ge a b)) by zlia ]
  | |- context [?a <=? ?b] =>
      first [ rewrite (proj2 (Z.leb_le a b)) by zlia
            | rewrite (proj2 (Z.leb_gt a b)) by zlia ]
  | |- context [?a =? ?b] =>
      first [ rewrite (proj2 (Z.eqb_eq a b)) by zlia
            | rewrite (proj2 (Z.eqb_neq a b)) by zlia ]
  end; prune.

(** Decoding the bytes of a scalar value gives back its code units. *)
Lemma utf8_decode_bytes cp rest :
  is_scalar cp ->
  utf8_decode (utf8_bytes cp ++ rest) = code_units cp ++ utf8_decode rest.
Proof.
  intros Hs. unfold is_scalar in Hs. unfold utf8_bytes, code_units.
  destruct (Z.ltb_spec cp 0x80) as [H1|H1].
  { decide_cmp. cbn [app utf8_decode]. now decide_cmp. }
  destruct (Z.ltb_spec cp 0x800) as [H2|H2].
  { decide_cmp. cbn [app utf8_decode]. unfold is_continuation.
    repeat decide_step. f_equal. zlia. }
  destruct (Z.ltb_spec cp 0x10000) as [H3|H3].
  { cbn [app utf8_decode]. unfold second_byte_ok; unfold is_continuation.
    repeat decide_step.
    destruct (Z.eqb_spec (0xE0 + cp / 4096) 0xE0) as [E|E]; prune.
    - repeat decide_step. f_equal. zlia.
    - destruct (Z.eqb_spec (0xE0 + cp / 4096) 0xED) as [E'|E']; prune.
      + repeat decide_step. f_equal. zlia.
      + repeat decide_step. f_equal. zlia. }
  cbn [app utf8_decode]. unfold second_byte_ok; unfold is_continuation.
  repeat decide_step.
  destruct (Z.eqb_spec (0xF0 + cp / 262144) 0xF0) as [E|E]; prune.
  - repeat decide_step. unfold code_units. repeat decide_step.
    cbn [app]. f_equal; [zlia | f_equal; zlia].
  - destruct (Z.eqb_spec (0xF0 + cp / 262144) 0xF4) as [E'|E']; prune.
    + repeat decide_step. unfold code_units. repeat decide_step.
      cbn [app]. f_equal; [zlia | f_equal; zlia].
    + repeat decide_step. unfold code_units. repeat decide_step.
      cbn [app]. f_equal; [zlia | f_equal; zlia].
Qed.

(** Induction along the code points of a well-formed string. *)
Lemma well_formed_ind (P : jsstring -> Prop) :
  P [] ->
  (forall c d r,
     is_high_surrogate c = true -> is_low_surrogate d = true ->
     well_formed r = true -> P r -> P (c :: d :: r)) ->
  (forall c r,
     is_high_surrogate c = false -> is_low_surrogate c = false ->
     is_code_unit c = true -> well_formed r = true -> P r -> P (c :: r)) ->
  forall s, well_formed s = true -> P s.
Proof.
  intros Hnil Hpair Hone s.
  remember (length s) as n eqn:Hn.
  revert s Hn. induction n as [n IH] using lt_wf_ind. intros s Hn Hwf.
  destruct s as [|c r]; [exact Hnil|].
  cbn [well_formed] in Hwf.
  destruct (is_high_surrogate c) eqn:Hh.
  - destruct r as [|d r']; [discriminate|].
    apply andb_true_iff in Hwf as [Hl Hwf].
    apply Hpair; trivial.
    apply (IH (length r')); [simpl in Hn; lia | reflexivity | exact Hwf].
  - apply andb_true_iff in Hwf as [Hc Hwf].
    apply andb_true_iff in Hc as [Hc Hl]. apply negb_true_iff in Hl.
    apply Hone; trivial.
    apply (IH (length r)); [simpl in Hn; lia | reflexivity | exact Hwf].
Qed.

Lemma surrogate_bounds c :
  (is_high_surrogate c = true <-> 0xD800 <= c < 0xDC00) /\
  (is_low_surrogate c = true <-> 0xDC00 <= c < 0xE000) /\
  (is_code_unit c = true <-> 0 <= c < 0x10000).
Proof.
  unfold is_high_surrogate, is_low_surrogate, is_code_unit.
  rewrite !andb_true_iff, !Z.leb_le, !Z.ltb_lt. tauto.
Qed.

Lemma is_high_surrogate_false c : is_high_surrogate c = false <-> ~ 0xD800 <= c < 0xDC00.
Proof. rewrite <- not_true_iff_false. now rewrite (proj1 (surrogate_bounds c)). Qed.

Lemma is_low_surrogate_false c : is_low_surrogate c = false <-> ~ 0xDC00 <= c < 0xE000.
Proof.
  rewrite <- not_true_iff_false.
  now rewrite (proj1 (proj2 (surrogate_bounds c))).
Qed.

Lemma code_units_pair c d :
  0xD800 <= c < 0xDC00 -> 0xDC00 <= d < 0xE000 ->
  is_scalar (code_point_of_pair c d) /\
  code_units (code_point_of_pair c d) = [c; d].
Proof.
  intros Hc Hd. unfold is_scalar, code_units, code_point_of_pair.
  split; [lia|]. decide_cmp. f_equal; [|f_equal]; zlia.
Qed.

Lemma code_units_single c : 0 <= c < 0x10000 -> code_units c = [c].
Proof. intros Hc. unfold code_units. now decide_cmp. Qed.

(** Encoding a well-formed string to UTF-8 and decoding it is the identity. *)
Theorem utf8_roundtrip (s : jsstring) :
  well_formed s = true -> utf8_decode (utf8_encode s) = s.
Proof.
  intros Hwf. pattern s. apply well_formed_ind; [| | |exact Hwf]; clear s Hwf;
    [reflexivity | intros c d r Hh Hl Hr IH | intros c r Hh Hl Hc Hr IH].
  - cbn [utf8_encode]. rewrite Hh, Hl.
    apply surrogate_bounds in Hh, Hl.
    destruct (code_units_pair c d Hh Hl) as [Hs Hu].
    rewrite utf8_decode_bytes, Hu, IH by trivial. reflexivity.
  - cbn [utf8_encode]. rewrite Hh, Hl.
    apply surrogate_bounds in Hc.
    apply is_high_surrogate_false in Hh. apply is_low_surrogate_false in Hl.
    rewrite utf8_decode_bytes, code_units_single, IH by (trivial; unfold is_scalar; lia).
    reflexivity.
Qed.

Lemma utf8_bytes_are_bytes cp : 0 <= cp < 0x110000 -> Forall is_byte (utf8_bytes cp).
Proof.
  intros H. unfold utf8_bytes, is_byte.
  destruct (cp <? 0x80) eqn:E1; [apply Z.ltb_lt in E1|apply Z.ltb_ge in E1].
  { repeat constructor; lia. }
  destruct (cp <? 0x800) eqn:E2; [apply Z.ltb_lt in E2|apply Z.ltb_ge in E2].
  { repeat constructor; zlia. }
  destruct (cp <? 0x10000) eqn:E3; [apply Z.ltb_lt in E3|apply Z.ltb_ge in E3].
  { repeat constructor; zlia. }
  repeat constructor; zlia.
Qed.

Lemma utf8_encode_bytes (s : jsstring) :
  well_formed s = true -> Forall is_byte (utf8_encode s).
Proof.
  intros Hwf. pattern s. apply well_formed_ind; [| | |exact Hwf]; clear s Hwf;
    [|intros c d r Hh Hl Hr IH | intros c r Hh Hl Hc Hr IH].
  - constructor.
  - cbn [utf8_encode]. rewrite Hh, Hl. apply Forall_app. split; [|exact IH].
    apply surrogate_bounds in Hh, Hl. apply utf8_bytes_are_bytes.
    unfold code_point_of_pair. lia.
  - cbn [utf8_encode]. rewrite Hh, Hl. apply Forall_app. split; [|exact IH].
    apply surrogate_bounds in Hc. apply utf8_bytes_are_bytes. lia.
Qed.

Lemma utf8_bytes_not_nil cp : utf8_bytes cp <> [].
Proof.
  unfold utf8_bytes.
  destruct (cp <? 0x80), (cp <? 0x800), (cp <? 0x10000); discriminate.
Qed.

Lemma utf8_encode_nil (s : jsstring) : utf8_encode s = [] -> s = [].
Proof.
  destruct s as [|c r]; trivial. cbn [utf8_encode].
  destruct (is_high_surrogate c).
  - destruct r as [|d r']; [intros H; now apply utf8_bytes_not_nil in H|].
    destruct (is_low_surrogate d); intros H; apply app_eq_nil in H as [H _];
      now apply utf8_bytes_not_nil in H.
  - destruct (is_low_surrogate c); intros H; apply app_eq_nil in H as [H _];
      now apply utf8_bytes_not_nil in H.
Qed.

End EncodingFacts.

(* ===================================================================== *)
(** * Properties of the XOR cipher and the encrypted store *)
(* ===================================================================== *)

Module SecureStorageFacts.
Import Encoding EncodingFacts SecureStorage.

(** The operand taken from an ASCII key is below 128. *)
Lemma key_code_range key i : ascii_key key = true -> 0 <= key_code key i < 128.
Proof.
  intros Hk. unfold key_code. destruct key as [|k0 key']; [lia|].
  set (key := k0 :: key') in *.
  assert (Hin : In (nth (i mod length key) key 0) key).
  { apply nth_In. apply Nat.mod_upper_bound. discriminate. }
  unfold ascii_key in Hk. rewrite forallb_forall in Hk.
  specialize (Hk _ Hin). apply andb_true_iff in Hk as [H1 H2].
  apply Z.leb_le in H1. apply Z.ltb_lt in H2. lia.
Qed.

(** XOR with a value below 128 touches the low seven bits only. *)
Lemma lxor_low c k :
  0 <= c -> 0 <= k < 128 -> 0 <= Z.lxor c k /\ Z.lxor c k / 128 = c / 128.
Proof.
  intros Hc Hk. split.
  - apply Z.lxor_nonneg. lia.
  - change 128 with (2 ^ 7). rewrite <- !Z.shiftr_div_pow2 by lia.
    rewrite Z.shiftr_lxor.
    rewrite (Z.shiftr_div_pow2 k) by lia. rewrite (Z.div_small k) by (simpl; lia).
    apply Z.lxor_0_r.
Qed.

(** The classes of code units are unions of blocks of 128. *)
Lemma class_by_block c c' :
  c / 128 = c' / 128 ->
  is_code_unit c = is_code_unit c' /\
  is_high_surrogate c = is_high_surrogate c' /\
  is_low_surrogate c = is_low_surrogate c'.
Proof.
  intros H. unfold is_code_unit, is_high_surrogate, is_low_surrogate.
  repeat split; f_equal;
    first [ apply eq_iff_eq_true; rewrite !Z.leb_le; zlia
          | apply eq_iff_eq_true; rewrite !Z.ltb_lt; zlia ].
Qed.

Lemma xor_code_unit c k :
  is_code_unit c = true -> 0 <= k < 128 ->
  fromCharCode (Z.lxor c k) = Z.lxor c k /\
  Z.lxor c k / 128 = c / 128 /\
  0 <= Z.lxor c k.
Proof.
  intros Hc Hk. apply surrogate_bounds in Hc.
  destruct (lxor_low c k) as [H0 Hb]; [lia | lia |].
  repeat split; trivial.
  unfold fromCharCode. apply Z.mod_small. zlia.
Qed.

Lemma xor_twice c k : Z.lxor (Z.lxor c k) k = c.
Proof. now rewrite Z.lxor_assoc, Z.lxor_nilpotent, Z.lxor_0_r. Qed.

Lemma well_formed_code_units s : well_formed s = true -> Forall (fun c => is_code_unit c = true) s.
Proof.
  intros Hwf. pattern s. apply well_formed_ind; [| | |exact Hwf]; clear s Hwf.
  - constructor.
  - intros c d r Hh Hl _ IH.
    apply surrogate_bounds in Hh, Hl.
    repeat constructor; trivial; apply surrogate_bounds; lia.
  - intros c r _ _ Hc _ IH. now constructor.
Qed.

(** The loop keeps a well-formed string well formed. *)
Lemma xor_from_well_formed key :
  ascii_key key = true ->
  forall text, well_formed text = true ->
  forall i, well_formed (xor_from i text key) = true.
Proof.
  intros Hk text Hwf. pattern text. apply well_formed_ind; [| | |exact Hwf]; clear text Hwf.
  - reflexivity.
  - intros c d r Hh Hl _ IH i. cbn [xor_from].
    assert (Hc : is_code_unit c = true) by (apply surrogate_bounds in Hh; apply surrogate_bounds; lia).
    assert (Hd : is_code_unit d = true) by (apply surrogate_bounds in Hl; apply surrogate_bounds; lia).
    destruct (xor_code_unit c _ Hc (key_code_range key i Hk)) as (-> & Hb & _).
    destruct (xor_code_unit d _ Hd (key_code_range key (S i) Hk)) as (-> & Hb' & _).
    destruct (class_by_block _ _ Hb) as (_ & Eh & _).
    destruct (class_by_block _ _ Hb') as (_ & _ & El).
    cbn [well_formed]. now rewrite Eh, Hh, El, Hl, IH.
  - intros c r Hh Hl Hc _ IH i. cbn [xor_from].
    destruct (xor_code_unit c _ Hc (key_code_range key i Hk)) as (-> & Hb & _).
    destruct (class_by_block _ _ Hb) as (Ec & Eh & El).
    cbn [well_formed]. now rewrite Eh, Hh, Ec, Hc, El, Hl, IH.
Qed.

(** Applying the loop twice with the same key gives the text back. *)
Lemma xor_from_involutive key :
  ascii_key key = true ->
  forall text, Forall (fun c => is_code_unit c = true) text ->
  forall i, xor_from i (xor_from i text key) key = text.
Proof.
  intros Hk text Ht. induction Ht as [|c r Hc _ IH]; intros i; [reflexivity|].
  cbn [xor_from].
  destruct (xor_code_unit c _ Hc (key_code_range key i Hk)) as (E & Hb & H0).
  rewrite E. rewrite xor_twice. rewrite IH. f_equal.
  apply surrogate_bounds in Hc. unfold fromCharCode. now apply Z.mod_small.
Qed.

Lemma xor_from_nil i text key : xor_from i text key = [] -> text = [].
Proof. destruct text; [trivial | discriminate]. Qed.

(** C9 as stated fails: a string holding an unpaired surrogate does not
    come back, since [Buffer.from] writes U+FFFD for it. *)
Lemma xor_roundtrip_fails_on_lone_surrogate :
  ascii_key [97] = true /\
  _encryptXOR [0xD800] [97] = [55; 55; 43; 57] /\
  _decryptXOR (_encryptXOR [0xD800] [97]) [97] = [0xFF9C] /\
  _decryptXOR (_encryptXOR [0xD800] [97]) [97] <> [0xD800].
Proof. repeat split. discriminate. Qed.

(** C9, as the code has it.  For every well-formed string [text] (no
    unpaired surrogate) and every key whose characters have code points
    below 128,
    [_decryptXOR(_encryptXOR(text, key), key) = text]; and after
    [_storeEncrypted] stored a non-empty such text under a storage key
    with such an encryption key, [_retrieveEncrypted] decrypts exactly
    that text for [JSON.parse]. *)
Theorem xor_cipher_roundtrip (text key : jsstring) :
  well_formed text = true ->
  ascii_key key = true ->
  _decryptXOR (_encryptXOR text key) key = text /\
  forall (name : string) (d : device),
    text <> [] ->
    _retrieveEncrypted name (_storeEncrypted name text key d) = Some text.
Proof.
  intros Hwf Hk.
  assert (Hrt : _decryptXOR (_encryptXOR text key) key = text).
  { unfold _decryptXOR, _encryptXOR.
    pose proof (xor_from_well_formed key Hk text Hwf 0%nat) as Hx.
    rewrite base64_roundtrip by now apply utf8_encode_bytes.
    rewrite utf8_roundtrip by exact Hx.
    apply xor_from_involutive; trivial. now apply well_formed_code_units. }
  split; [exact Hrt|].
  intros name d Hne. unfold _retrieveEncrypted, _storeEncrypted. cbn [keychain asyncStorage].
  rewrite !lookup_insert_eq.
  destruct (_encryptXOR text key) as [|b bs] eqn:He.
  - exfalso. apply Hne. unfold _encryptXOR in He.
    apply base64_encode_nil, utf8_encode_nil, xor_from_nil in He. exact He.
  - congruence.
Qed.

(** The text ["hi"] under the key ["a"]. *)
Lemma xor_cipher_roundtrip_witness :
  _decryptXOR (_encryptXOR [104; 105] [97]) [97] = [104; 105].
Proof.
  exact (proj1 (xor_cipher_roundtrip [104; 105] [97] eq_refl eq_refl)).
Defined.

End SecureStorageFacts.

(* ===================================================================== *)
(** * Properties of the API client's refresh queue *)
(* ===================================================================== *)

Module ApiClientFacts.
Import Js ApiClient ApiClientStates.

Lemma run_app evs evs' s : run (evs ++ evs') s = run evs' (run evs s).
Proof. apply fold_left_app. Qed.

Lemma effects_attach_reject r s :
  List.filter is_refresh_call (effects (attach_reject r s)) =
  List.filter is_refresh_call (effects s).
Proof.
  unfold attach_reject.
  destruct (tokenRefreshPromise s) as [c|]; cbn [emit effects].
  - destruct (chains s !! c) as [[ph ws]|]; [|reflexivity].
    destruct ph; cbn [chain_phase emit set_chain effects]; trivial;
      rewrite List.filter_app; cbn; now rewrite app_nil_r.
  - rewrite List.filter_app. cbn. now rewrite app_nil_r.
Qed.

Lemma subscribers_attach_reject r s :
  refreshSubscribers (attach_reject r s) = refreshSubscribers s.
Proof.
  unfold attach_reject.
  destruct (tokenRefreshPromise s) as [c|]; [|reflexivity].
  destruct (chains s !! c) as [[ph ws]|]; [|reflexivity].
  now destruct ph.
Qed.

(** In any state: while [isRefreshingToken] is set, a 401 answer for a
    request not yet retried joins the queue and starts no refresh. *)
Lemma unauthorized_joins_queue r s :
  isRefreshingToken s = true -> _retry r = false ->
  refreshSubscribers (step (unauthorized r) s) = refreshSubscribers s ++ [r] /\
  List.filter is_refresh_call (effects (step (unauthorized r) s)) =
  List.filter is_refresh_call (effects s).
Proof.
  intros Hf Hr. unfold unauthorized, step, response_error.
  cbn [message config response_status].
  rewrite bool_decide_eq_true_2 by reflexivity. rewrite Hr, Hf.
  change (String.eqb "Request failed with status code 401" "Network Error") with false.
  cbn [negb andb]. cbv beta iota zeta. split.
  - now rewrite subscribers_attach_reject.
  - now rewrite effects_attach_reject.
Qed.

(** In any state: when the access token of a chain arrives, all queued
    requests are replayed in order and the queue is emptied. *)
Lemma access_token_replays_queue c ws token s :
  chains s !! c = Some (mk_chain AwaitingAccessToken ws) ->
  effects (step (AccessTokenSettled c (Normal token)) s) =
    effects s ++ map (fun q => Replayed (retried token q)) (refreshSubscribers s) /\
  refreshSubscribers (step (AccessTokenSettled c (Normal token)) s) = [].
Proof.
  intros Hc. cbn [step]. unfold access_token_settled. rewrite Hc. split; reflexivity.
Qed.

(** When [authProvider.refreshToken()] rejects, no callback clears
    [isRefreshingToken]: the flag stays set after the chain has failed. *)
Lemma rejected_refresh_keeps_flag c ws e s :
  chains s !! c = Some (mk_chain AwaitingRefresh ws) ->
  isRefreshingToken s = true ->
  isRefreshingToken (run [RefreshSettled c (Throw e); RefreshFailed c] s) = true.
Proof.
  intros Hc Hf. cbn [run fold_left step]. unfold refresh_settled. rewrite Hc.
  unfold refresh_failed. cbn [set_chain chains].
  rewrite list_lookup_insert_eq by (now apply lookup_lt_Some in Hc).
  exact Hf.
Qed.

(** A 401 answer that arrives while the refresh is in flight only joins
    the queue: no second refresh, nothing sent. *)
Lemma unauthorized_while_refreshing r q subs ws effs :
  _retry r = false ->
  step (unauthorized r) (mk_state q true (Some 0%nat) subs [mk_chain AwaitingRefresh ws] effs) =
  mk_state q true (Some 0%nat) (subs ++ [r]) [mk_chain AwaitingRefresh (ws ++ [r])] effs.
Proof.
  intros Hr. unfold unauthorized, step, response_error. cbn [message config response_status].
  rewrite bool_decide_eq_true_2 by reflexivity. rewrite Hr. reflexivity.
Qed.

Lemma queue_grows rs : forall q subs ws effs,
  not_retried rs = true ->
  run (map unauthorized rs)
      (mk_state q true (Some 0%nat) subs [mk_chain AwaitingRefresh ws] effs) =
  mk_state q true (Some 0%nat) (subs ++ rs) [mk_chain AwaitingRefresh (ws ++ rs)] effs.
Proof.
  induction rs as [|r rs IH]; intros q subs ws effs H.
  - now rewrite !app_nil_r.
  - cbn [not_retried forallb] in H. apply andb_true_iff in H as [Hr H].
    apply negb_true_iff in Hr.
    cbn [map run fold_left]. rewrite unauthorized_while_refreshing by exact Hr.
    fold (run (map unauthorized rs)). rewrite IH by exact H.
    now rewrite <- !app_assoc.
Qed.

(** The first 401 answer starts the refresh and is queued itself. *)
Lemma first_unauthorized r :
  _retry r = false ->
  step (unauthorized r) initial =
  mk_state [] true (Some 0%nat) [r] [mk_chain AwaitingRefresh [r]] [RefreshTokenCalled].
Proof.
  intros Hr. unfold unauthorized, step, response_error. cbn [message config response_status].
  rewrite bool_decide_eq_true_2 by reflexivity. rewrite Hr. reflexivity.
Qed.

(** C7 as stated fails: a [post] through the client while a refresh is in
    flight goes to [secureFetch] at once; it is not queued and not
    replayed when the refresh completes. *)
Lemma pinned_request_not_queued :
  let r1 := mk_request "/user/profile" (Some "Bearer old") false in
  let s1 := step (unauthorized r1) initial in
  let s2 := step (PinnedRequest "/auth/login" None (Some "old")) s1 in
  isRefreshingToken s1 = true /\
  refreshSubscribers s2 = [r1] /\
  effects s2 =
    [RefreshTokenCalled;
     SecureFetchCalled "https://api.example.com/auth/login" (Some "Bearer old")] /\
  effects (run [RefreshSettled 0 (Normal true); AccessTokenSettled 0 (Normal "new")] s2) =
    [RefreshTokenCalled;
     SecureFetchCalled "https://api.example.com/auth/login" (Some "Bearer old");
     GetAccessTokenCalled;
     Replayed (mk_request "/user/profile" (Some "Bearer new") true)].
Proof. repeat split. Qed.

(** A 401 answer that finds the flag clear starts a refresh, on a new
    chain, and is queued on it. *)
Lemma unauthorized_starts_refresh r s :
  isRefreshingToken s = false -> _retry r = false ->
  step (unauthorized r) s =
  mk_state (requestQueue s) true (Some (length (chains s))) (refreshSubscribers s ++ [r])
    (chains s ++ [mk_chain AwaitingRefresh [r]]) (effects s ++ [RefreshTokenCalled]).
Proof.
  intros Hf Hr. unfold unauthorized, step, response_error.
  cbn [message config response_status].
  rewrite bool_decide_eq_true_2 by reflexivity. rewrite Hr, Hf.
  change (String.eqb "Request failed with status code 401" "Network Error") with false.
  cbn [negb andb]. cbv beta iota zeta.
  unfold start_refresh, attach_reject, subscribeTokenRefresh.
  cbn [emit set_refreshing set_subscribers tokenRefreshPromise chains requestQueue
       isRefreshingToken refreshSubscribers effects].
  rewrite lookup_app_r by reflexivity. rewrite Nat.sub_diag.
  cbn [lookup list_lookup chain_phase waiters set_chain app chains requestQueue
       isRefreshingToken tokenRefreshPromise refreshSubscribers effects].
  unfold set_chain, set_subscribers.
  cbn [chains requestQueue isRefreshingToken tokenRefreshPromise refreshSubscribers effects].
  f_equal. rewrite insert_app_r_alt by reflexivity. now rewrite Nat.sub_diag.
Qed.

Lemma replays_attach_reject r s : replays (attach_reject r s) = replays s.
Proof.
  unfold replays, attach_reject.
  destruct (tokenRefreshPromise s) as [c|]; cbn [emit effects].
  - destruct (chains s !! c) as [[ph ws]|]; [|reflexivity].
    destruct ph; cbn [chain_phase emit set_chain effects]; trivial;
      rewrite List.filter_app; cbn; now rewrite app_nil_r.
  - rewrite List.filter_app. cbn. now rewrite app_nil_r.
Qed.

(** C7, as the code has it.  The refresh queue lives in the response
    interceptor of the axios instance and is steered by the flag
    [isRefreshingToken].  In every state: a request answered with 401 and
    not yet retried is appended to the queue and nothing is replayed; it
    starts a refresh when the flag is clear and none when it is set.
    When the refresh reports success the access token is asked for;
    when the access token arrives, every request then in the queue is
    replayed once, in order, with the new token, and the queue is
    emptied.  When the refresh reports failure the queue is emptied,
    [logout] is called and the requests that waited on this refresh are
    rejected.  So when all the 401 answers arrive before
    [refreshToken()] settles, one refresh serves them all.  The pinned
    methods ([get], [post], [put], [delete]) call [secureFetch] and
    leave the queue and the refresh state as they are. *)
Theorem refresh_queue_replays :
  (forall s r, _retry r = false ->
     let s' := step (unauthorized r) s in
     refreshSubscribers s' = refreshSubscribers s ++ [r] /\
     isRefreshingToken s' = true /\
     refresh_calls s' =
       refresh_calls s ++ (if isRefreshingToken s then [] else [RefreshTokenCalled]) /\
     replays s' = replays s) /\
  (forall s c ws, chains s !! c = Some (mk_chain AwaitingRefresh ws) ->
     let s' := step (RefreshSettled c (Normal true)) s in
     effects s' = effects s ++ [GetAccessTokenCalled] /\
     refreshSubscribers s' = refreshSubscribers s /\
     chains s' !! c = Some (mk_chain AwaitingAccessToken ws)) /\
  (forall s c ws token, chains s !! c = Some (mk_chain AwaitingAccessToken ws) ->
     let s' := step (AccessTokenSettled c (Normal token)) s in
     effects s' = effects s ++ map (fun q => Replayed (retried token q)) (refreshSubscribers s) /\
     refreshSubscribers s' = []) /\
  (forall s c ws, chains s !! c = Some (mk_chain AwaitingRefresh ws) ->
     let s' := run [RefreshSettled c (Normal false); RefreshFailed c] s in
     effects s' =
       effects s ++ LoggedOut
                 :: map (fun q => RequestRejected q (Error "Token refresh failed")) ws /\
     refreshSubscribers s' = [] /\
     isRefreshingToken s' = false) /\
  (forall r rs token, not_retried (r :: rs) = true ->
     let queued := map unauthorized (r :: rs) in
     run (queued ++ [RefreshSettled 0 (Normal true); AccessTokenSettled 0 (Normal token)])
         initial =
       mk_state [] false (Some 0%nat) [] [mk_chain (Fulfilled token) (r :: rs)]
         ([RefreshTokenCalled; GetAccessTokenCalled]
          ++ map (fun q => Replayed (retried token q)) (r :: rs)) /\
     run (queued ++ [RefreshSettled 0 (Normal false); RefreshFailed 0]) initial =
       mk_state [] false (Some 0%nat) []
         [mk_chain (Rejected (Error "Token refresh failed")) (r :: rs)]
         ([RefreshTokenCalled; LoggedOut]
          ++ map (fun q => RequestRejected q (Error "Token refresh failed")) (r :: rs))) /\
  (forall s url auth tok,
     let s' := step (PinnedRequest url auth tok) s in
     refreshSubscribers s' = refreshSubscribers s /\
     isRefreshingToken s' = isRefreshingToken s /\
     tokenRefreshPromise s' = tokenRefreshPromise s /\
     chains s' = chains s /\
     requestQueue s' = requestQueue s /\
     exists target authorization,
       effects s' = effects s ++ [SecureFetchCalled target authorization]).
Proof.
  split; [|split; [|split; [|split; [|split]]]].
  - intros s r Hr. cbv zeta. destruct (isRefreshingToken s) eqn:Hf.
    + destruct (unauthorized_joins_queue r s Hf Hr) as [Hq Hc].
      repeat split.
      * exact Hq.
      * unfold unauthorized, step, response_error. cbn [message config response_status].
        rewrite bool_decide_eq_true_2 by reflexivity. rewrite Hr, Hf.
        change (String.eqb "Request failed with status code 401" "Network Error")
          with false.
        cbn [negb andb]. cbv beta iota zeta.
        unfold attach_reject, subscribeTokenRefresh. cbn [set_subscribers tokenRefreshPromise
          chains]. destruct (tokenRefreshPromise s) as [c|]; [|exact Hf].
        destruct (chains s !! c) as [[ph ws]|]; [|exact Hf]. destruct ph; exact Hf.
      * unfold refresh_calls. rewrite Hc. now rewrite app_nil_r.
      * unfold unauthorized, step, response_error. cbn [message config response_status].
        rewrite bool_decide_eq_true_2 by reflexivity. rewrite Hr, Hf.
        change (String.eqb "Request failed with status code 401" "Network Error")
          with false.
        cbn [negb andb]. cbv beta iota zeta. now rewrite replays_attach_reject.
    + rewrite (unauthorized_starts_refresh r s Hf Hr).
      unfold refresh_calls, replays. cbn [refreshSubscribers isRefreshingToken effects].
      rewrite !List.filter_app. cbn. rewrite app_nil_r. repeat split.
  - intros s c ws Hc. cbv zeta. cbn [step]. unfold refresh_settled. rewrite Hc.
    cbn [set_chain emit set_refreshing effects refreshSubscribers chains].
    repeat split. apply list_lookup_insert_eq. now apply lookup_lt_Some in Hc.
  - intros s c ws token Hc. exact (access_token_replays_queue c ws token s Hc).
  - intros s c ws Hc. cbv zeta. cbn [run fold_left step].
    unfold refresh_settled. rewrite Hc. unfold refresh_failed.
    cbn [set_chain set_refreshing chains].
    rewrite list_lookup_insert_eq by (now apply lookup_lt_Some in Hc).
    cbn [set_chain emit set_subscribers set_refreshing effects refreshSubscribers
         isRefreshingToken]. repeat split.
  - intros r rs token H queued.
    assert (Hq : run queued initial =
                 mk_state [] true (Some 0%nat) (r :: rs) [mk_chain AwaitingRefresh (r :: rs)]
                   [RefreshTokenCalled]).
    { subst queued. cbn [not_retried forallb] in H. apply andb_true_iff in H as [Hr H].
      apply negb_true_iff in Hr.
      cbn [map run fold_left]. rewrite first_unauthorized by exact Hr.
      fold (run (map unauthorized rs)). now rewrite queue_grows. }
    split; rewrite run_app, Hq; reflexivity.
  - intros s url auth tok. cbn. repeat split. eauto.
Qed.

(** Two requests answered with 401, then a successful refresh. *)
Lemma refresh_queue_replays_witness :
  let r1 := mk_request "/user/profile" (Some "Bearer old") false in
  let r2 := mk_request "/user/avatar" (Some "Bearer old") false in
  run [unauthorized r1; unauthorized r2;
       RefreshSettled 0 (Normal true); AccessTokenSettled 0 (Normal "new")] initial =
  mk_state [] false (Some 0%nat) [] [mk_chain (Fulfilled "new") [r1; r2]]
    [RefreshTokenCalled; GetAccessTokenCalled;
     Replayed (mk_request "/user/profile" (Some "Bearer new") true);
     Replayed (mk_request "/user/avatar" (Some "Bearer new") true)].
Proof.
  intros r1 r2.
  exact (proj1 (proj1 (proj2 (proj2 (proj2 (proj2 refresh_queue_replays))))
                  r1 [r2] "new" eq_refl)).
Defined.

(** The flag is cleared when the refresh reports its result, before the
    access token arrives: a 401 answer in between starts a second
    refresh, and is replayed with the token of the first. *)
Lemma late_unauthorized_starts_second_refresh :
  let s := run [unauthorized request_a; RefreshSettled 0 (Normal true);
                unauthorized request_b; AccessTokenSettled 0 (Normal "new")] initial in
  refresh_calls s = [RefreshTokenCalled; RefreshTokenCalled] /\
  replays s = [Replayed (retried "new" request_a); Replayed (retried "new" request_b)].
Proof. split; reflexivity. Qed.

(** A 401 answer between a failed refresh and its [catch] callback is
    queued on a second refresh and dropped from the queue by that
    callback: when the second refresh succeeds it is neither replayed
    nor rejected. *)
Lemma request_lost_between_refreshes :
  let s := run [unauthorized request_a; RefreshSettled 0 (Normal false);
                unauthorized request_b; RefreshFailed 0;
                RefreshSettled 1 (Normal true); AccessTokenSettled 1 (Normal "new")]
             initial in
  effects s =
    [RefreshTokenCalled; RefreshTokenCalled; LoggedOut;
     RequestRejected request_a (Error "Token refresh failed"); GetAccessTokenCalled] /\
  refreshSubscribers s = [].
Proof. split; reflexivity. Qed.

End ApiClientFacts.

(* ===================================================================== *)
(** * More properties of the rate limiter *)
(* ===================================================================== *)

Module RateLimitMoreFacts.
Import Js RateLimit RateLimitMiddleware RateLimitFacts.
Local Open Scope js_scope.

(** ** The middleware *)

(** On an instance made by a plain call [rateLimit(...)] the middleware
    has the same [this] as the wrapped handler: [this.check] throws, every
    request whose token is generated normally is answered with 500 and
    [next] is never called. *)
Theorem middleware_plain_instance_responds_500
    (options : wrap_options) (req : request) (next : option next_fn) (now : Z)
    (s : mw_world) (token : string) :
  lim_this (w_limiter (mw_base s)) <> ThisInstance ->
  generate_token options req = Normal token ->
  middleware options req next now s =
  (Normal tt,
   mk_mw_world (responded 500 body_500 (logged (ConsoleError "Rate limit error:") (mw_base s)))
     (next_calls s)).
Proof.
  intros Hthis Htok.
  unfold middleware, try_catch, bind, lift_completion, lift_world. rewrite Htok.
  unfold this_check.
  destruct (lim_this (w_limiter (mw_base s))); [reflexivity | reflexivity | congruence].
Qed.

Lemma middleware_plain_instance_responds_500_witness :
  middleware (mk_wrap_options None None None) (mk_request None (Some "203.0.113.7"))
    (Some (fun r => (Normal tt, r))) 1000
    (mk_mw_world (mk_world globalLimiter0 fresh_response []) 0) =
  (Normal tt,
   mk_mw_world
     (responded 500 body_500
        (logged (ConsoleError "Rate limit error:") (mk_world globalLimiter0 fresh_response [])))
     0).
Proof.
  apply (middleware_plain_instance_responds_500 (mk_wrap_options None None None)
           (mk_request None (Some "203.0.113.7")) (Some (fun r => (Normal tt, r))) 1000
           (mk_mw_world (mk_world globalLimiter0 fresh_response []) 0) "203.0.113.7").
  - discriminate.
  - reflexivity.
Defined.

(** With [this] bound to the instance the middleware answers 500 as
    well, and never 429: [check] throws the TypeError of
    [tokenCache.getTtl], which the [catch] block logs and answers with
    500; no header is set, [next] is not called, and no attempt is
    counted, whatever the token's count. *)
Theorem middleware_bound_instance_responds_500
    (options : wrap_options) (req : request) (next : option next_fn) (now : Z)
    (s : mw_world) (token : string) :
  lim_this (w_limiter (mw_base s)) = ThisInstance ->
  generate_token options req = Normal token ->
  let l := w_limiter (mw_base s) in
  let lim := default (wo_limit options) (lim_maxRequests l) in
  let s' := snd (middleware options req next now s) in
  middleware options req next now s =
    (Normal tt,
     mw_respond 500 body_500
       (mw_logged (ConsoleError "Rate limit error:")
          (mw_set_limiter (snd (check (Some lim) token now l)) s))) /\
  next_calls s' = next_calls s /\
  res_headers (w_res (mw_base s')) = res_headers (w_res (mw_base s)) /\
  (forall t, stored_count t now (w_limiter (mw_base s')) = stored_count t now l).
Proof.
  intros Hthis Htok l lim s'.
  assert (Hm : middleware options req next now s =
    (Normal tt,
     mw_respond 500 body_500
       (mw_logged (ConsoleError "Rate limit error:")
          (mw_set_limiter (snd (check (Some lim) token now l)) s)))).
  { unfold middleware, try_catch, bind, lift_completion, lift_world.
    rewrite Htok. unfold this_check. rewrite Hthis. fold l lim.
    rewrite check_throws. reflexivity. }
  subst s'. rewrite Hm. cbn [snd]. repeat split.
  intros t. cbn. rewrite check_throws. cbn [snd]. apply stored_count_get. lia.
Qed.

(** The first request of a client, on an instance bound to its own
    [check]: 500. *)
Lemma middleware_bound_instance_responds_500_witness :
  let l := mk_limiter ThisInstance 60000 10 (LRU.mk_cache 500 60000 []) in
  let s := mk_mw_world (mk_world l fresh_response []) 0 in
  res_status
    (w_res (mw_base
       (snd (middleware (mk_wrap_options None None None)
               (mk_request None (Some "203.0.113.7"))
               (Some (fun r => (Normal tt, r))) 1000 s)))) = Some 500.
Proof.
  intros l s.
  pose proof (middleware_bound_instance_responds_500 (mk_wrap_options None None None)
                (mk_request None (Some "203.0.113.7")) (Some (fun r => (Normal tt, r)))
                1000 s "203.0.113.7" eq_refl eq_refl) as [H _].
  rewrite H. reflexivity.
Defined.

(** ** [reset] and what [check] leaves in the cache *)

Lemma remove_length k l : (length (LRU.remove k l) <= length l)%nat.
Proof.
  induction l as [|e l IH]; simpl; [lia|].
  destruct (String.eqb k (LRU.e_key e)); simpl; lia.
Qed.

Lemma remove_subset k x l : In x (LRU.remove k l) -> In x l.
Proof.
  induction l as [|e l IH]; simpl; [tauto|].
  destruct (String.eqb k (LRU.e_key e)); simpl; intuition.
Qed.

Lemma find_in k l e : LRU.find k l = Some e -> In e l.
Proof.
  induction l as [|x l IH]; simpl; [discriminate|].
  destruct (String.eqb k (LRU.e_key x)); [intros [= <-]; now left|].
  intros H. right. now apply IH.
Qed.

Lemma find_remove_length k x l :
  LRU.find k l = Some x -> (S (length (LRU.remove k l)) <= length l)%nat.
Proof.
  induction l as [|y l IH]; simpl; [discriminate|].
  destruct (String.eqb k (LRU.e_key y)).
  - intros _. pose proof (remove_length k l). lia.
  - intros H. specialize (IH H). simpl. lia.
Qed.

Lemma remove_keeps k l k' :
  k' <> k -> In k' (map LRU.e_key l) -> In k' (map LRU.e_key (LRU.remove k l)).
Proof.
  intros Hne. induction l as [|y l IH]; simpl; [tauto|].
  destruct (String.eqb_spec k (LRU.e_key y)) as [E|E]; simpl.
  - intros [H|H]; [congruence|now apply IH].
  - intros [H|H]; [now left|right; now apply IH].
Qed.

Lemma stored_count_find token now l :
  stored_count token now l =
  match LRU.find token (LRU.items (tokenCache l)) with
  | Some e => if LRU.stale (tokenCache l) now e then 0 else LRU.e_value e
  | None => 0
  end.
Proof.
  unfold stored_count. rewrite LRUFacts.get_value.
  destruct (LRU.find _ _) as [e|]; [|reflexivity].
  destruct (LRU.stale _ _ _); [reflexivity|apply or_num_zero].
Qed.

(** [reset(token)] reports whether the token had a live entry, leaves the
    token without a count, and leaves every other token's count as it
    was; it reports false only for a token whose count was 0 already. *)
Theorem reset_clears_only_that_token (l : limiter) (token : string) (now : Z) :
  let r := reset_token token now l in
  fst r = Normal (LRU.has token now (tokenCache l)) /\
  (forall now', stored_count token now' (snd r) = 0) /\
  (forall t now', t <> token -> stored_count t now' (snd r) = stored_count t now' l) /\
  (LRU.has token now (tokenCache l) = false -> stored_count token now l = 0).
Proof.
  cbn. repeat split.
  - intros now'. rewrite stored_count_find. cbn. now rewrite LRUFacts.find_remove_same.
  - intros t now' Hne. rewrite !stored_count_find. cbn.
    rewrite LRUFacts.find_remove_other by congruence. reflexivity.
  - rewrite stored_count_find. unfold LRU.has.
    destruct (LRU.find _ _) as [e|]; [|reflexivity].
    intros H. apply negb_false_iff in H. now rewrite H.
Qed.

(** A [check] changes no count: for every token, the checked one
    included, the count read at the time of the call or later is what it
    was before the call. *)
Theorem check_changes_no_count
    (l : limiter) (limit_arg : option Z) (token t : string) (now now' : Z) :
  now <= now' ->
  stored_count t now' (snd (check limit_arg token now l)) = stored_count t now' l.
Proof.
  intros Hle. rewrite check_throws. cbn [snd]. now apply stored_count_get.
Qed.

(** The first check of a client leaves no attempt on record. *)
Lemma check_changes_no_count_witness :
  let l := mk_limiter ThisUndefined 60000 10 (LRU.mk_cache 500 60000 []) in
  stored_count "203.0.113.7" 2000 (snd (check None "203.0.113.7" 1000 l)) = 0.
Proof.
  intros l.
  rewrite (check_changes_no_count l None "203.0.113.7" "203.0.113.7" 1000 2000); [|lia].
  reflexivity.
Defined.

(** A [check] stores no entry and evicts none: the cache does not grow,
    it holds no key afterwards that it did not hold before, it keeps
    every entry of the other tokens, and an instance whose cache has no
    entry for the token is left exactly as it was, a full cache
    included. *)
Theorem check_stores_nothing
    (l : limiter) (limit_arg : option Z) (token : string) (now : Z) :
  let l' := snd (check limit_arg token now l) in
  (length (cached_keys l') <= length (cached_keys l))%nat /\
  (forall k, In k (cached_keys l') -> In k (cached_keys l)) /\
  (forall k, k <> token -> In k (cached_keys l) -> In k (cached_keys l')) /\
  (~ In token (cached_keys l) -> l' = l).
Proof.
  cbv zeta. rewrite check_throws. cbn [snd]. unfold cached_keys, LRU.get.
  destruct (LRU.find token (LRU.items (tokenCache l))) as [e|] eqn:Hf.
  - pose proof (find_in _ _ _ Hf) as He.
    pose proof (LRUFacts.find_key _ _ _ Hf) as Hk.
    pose proof (remove_keeps token (LRU.items (tokenCache l))) as Hkeep.
    destruct (LRU.stale (tokenCache l) now e); cbn [snd tokenCache set_cache LRU.items
      LRU.with_items]; rewrite ?length_map; repeat split.
    + apply remove_length.
    + intros k Hin. apply in_map_iff in Hin as (x & <- & Hx).
      apply in_map. now apply remove_subset in Hx.
    + intros k Hne. now apply Hkeep.
    + intros Hnot. exfalso. apply Hnot. apply in_map_iff. now exists e.
    + cbn [length]. now apply find_remove_length with (x := e).
    + intros k Hin. cbn [map] in Hin. destruct Hin as [<-|Hin].
      * now apply in_map.
      * apply in_map_iff in Hin as (x & <- & Hx).
        apply in_map. now apply remove_subset in Hx.
    + intros k Hne Hin. cbn [map]. right. now apply Hkeep.
    + intros Hnot. exfalso. apply Hnot. apply in_map_iff. now exists e.
  - cbn [snd]. assert (set_cache l (tokenCache l) = l) as -> by now destruct l.
    repeat split; try (intros; assumption). lia.
Qed.

End RateLimitMoreFacts.

(* ===================================================================== *)
(** * More properties of the certificate pinning helper *)
(* ===================================================================== *)

Module PinnedClientFacts.
Import Js CertificatePinning PinnedClient.

(** ** Which hostnames are pinned *)

Lemma string_length_append p t :
  String.length (p +:+ t) = (String.length p + String.length t)%nat.
Proof. induction p as [|c p IH]; simpl; [reflexivity|now rewrite IH]. Qed.

Lemma substring_append p k n t :
  substring (String.length p + k) n (p +:+ t) = substring k n t.
Proof. induction p as [|c p IH]; simpl; [reflexivity|exact IH]. Qed.

(** Whether a string ends with [u] is decided by any suffix of it that is
    at least as long as [u]. *)
Lemma ends_with_append p t u :
  (String.length u <= String.length t)%nat ->
  ends_with (p +:+ t) u = ends_with t u.
Proof.
  intros Hlen. unfold ends_with. rewrite string_length_append.
  replace (String.length p + String.length t - String.length u)%nat
    with (String.length p + (String.length t - String.length u))%nat by lia.
  rewrite substring_append.
  destruct (Nat.leb_spec (String.length u) (String.length p + String.length t)),
           (Nat.leb_spec (String.length u) (String.length t)); try lia; reflexivity.
Qed.

Lemma inherited_cases domain :
  ObjectPrototype.is_inherited domain = true -> In domain ObjectPrototype.inherited.
Proof.
  unfold ObjectPrototype.is_inherited. intros H.
  apply existsb_exists in H as (x & Hin & Heq).
  apply String.eqb_eq in Heq. now subst.
Qed.

(** No inherited property name ends with a given dotted suffix when none
    of the twelve names does. *)
Lemma inherited_not_suffixed p t :
  forallb (fun name => negb (ends_with name t)) ObjectPrototype.inherited = true ->
  ends_with t t = true ->
  ObjectPrototype.is_inherited (p +:+ t) = false.
Proof.
  intros Hall Hself.
  destruct (ObjectPrototype.is_inherited (p +:+ t)) eqn:E; [|reflexivity].
  apply inherited_cases in E.
  rewrite forallb_forall in Hall. specialize (Hall _ E).
  rewrite ends_with_append in Hall by lia. now rewrite Hself in Hall.
Qed.

(** The hostnames [findPinnedDomain] pins: api.example.com and every
    hostname ending in .api.example.com get the api configuration,
    auth.example.com alone gets the auth configuration.  In particular
    every subdomain of api.example.com is pinned with the api hashes,
    and no subdomain of auth.example.com is pinned at all. *)
Theorem findPinnedDomain_exact :
  (forall domain,
     findPinnedDomain domain =
     if String.eqb domain "api.example.com" || ends_with domain ".api.example.com"
     then Config api_config
     else if String.eqb domain "auth.example.com" then Config auth_config
     else if ObjectPrototype.is_inherited domain then PrototypeValue
     else NotPinned) /\
  (forall label, findPinnedDomain (label +:+ ".api.example.com") = Config api_config) /\
  (forall label, findPinnedDomain (label +:+ ".auth.example.com") = NotPinned).
Proof.
  assert (Hexact : forall domain,
     findPinnedDomain domain =
     if String.eqb domain "api.example.com" || ends_with domain ".api.example.com"
     then Config api_config
     else if String.eqb domain "auth.example.com" then Config auth_config
     else if ObjectPrototype.is_inherited domain then PrototypeValue
     else NotPinned).
  { intros domain. unfold findPinnedDomain.
    destruct (String.eqb_spec domain "api.example.com") as [->|Hapi]; [reflexivity|].
    destruct (String.eqb_spec domain "auth.example.com") as [->|Hauth]; [reflexivity|].
    cbn [own_property PINNED_DOMAINS].
    rewrite (proj2 (String.eqb_neq _ _) Hapi), (proj2 (String.eqb_neq _ _) Hauth).
    cbn [orb].
    destruct (ObjectPrototype.is_inherited domain) eqn:Hi.
    - apply inherited_cases in Hi. unfold ObjectPrototype.inherited in Hi. simpl in Hi.
      repeat (destruct Hi as [<-|Hi]; [reflexivity|]). contradiction.
    - cbn [subdomain_match PINNED_DOMAINS includeSubdomains andb].
      change ("." +:+ "api.example.com") with ".api.example.com".
      now destruct (ends_with domain ".api.example.com"). }
  split; [exact Hexact|]. split.
  - intros label. rewrite Hexact.
    rewrite (ends_with_append label ".api.example.com" ".api.example.com") by (simpl; lia).
    change (ends_with ".api.example.com" ".api.example.com") with true.
    now rewrite orb_true_r.
  - intros label. rewrite Hexact.
    rewrite (ends_with_append label ".auth.example.com" ".api.example.com") by (simpl; lia).
    change (ends_with ".auth.example.com" ".api.example.com") with false.
    rewrite orb_false_r.
    assert (Hlen : forall s, String.length (label +:+ ".auth.example.com") <> String.length s ->
                             String.eqb (label +:+ ".auth.example.com") s = false).
    { intros s Hl. apply String.eqb_neq. congruence. }
    rewrite !Hlen by (rewrite string_length_append; simpl; lia).
    now rewrite inherited_not_suffixed.
Qed.

(** ** What [secureFetch] rejects with *)

(** Whatever the libraries do, a rejection of [secureFetch] is either the
    fixed security error or an error whose message mentions none of
    "certificate", "SSL" and "pinning": the details of a certificate
    failure never reach the caller.  Every rejection is logged once with
    [console.error]. *)
Theorem secureFetch_rejections {R : Type} (h : host R)
    (url : string) (options : option request_options) (timeout : option Z)
    (tr : list call) :
  match secureFetch R h url options timeout tr with
  | (Throw e, tr') =>
      (e = security_error \/ certificate_related e = false) /\
      exists label before, tr' = before ++ [ConsoleError label]
  | (Normal _, tr') => forall label, ~ In (ConsoleError label) (skipn (length tr) tr')
  end.
Proof.
  unfold secureFetch, try_catch.
  match goal with |- context [bind ?m ?k tr] => destruct (bind m k tr) as [[r|e] tr1] eqn:Hbody end.
  - (* the body returned: what it recorded holds no console.error *)
    revert Hbody. unfold bind, record, modify, lift_completion, throw.
    destruct (isConnected h) as [[|]|e0]; cbn; try discriminate.
    destruct (hostname h url) as [domain|e0]; cbn; try discriminate.
    destruct (findPinnedDomain domain); cbn.
    + destruct (sslPinningFetch h url _); intros [= <- <-].
      intros label. rewrite <- app_assoc, skipn_app, Nat.sub_diag, skipn_all.
      cbn. intuition discriminate.
    + destruct (sslPinningFetch h url _); intros [= <- <-].
      intros label. rewrite <- app_assoc, skipn_app, Nat.sub_diag, skipn_all.
      cbn. intuition discriminate.
    + destruct (fetch h url _) as [response|e0]; cbn; try discriminate.
      destruct (processResponse R response); intros [= <- <-].
      intros label. rewrite <- !app_assoc, skipn_app, Nat.sub_diag, skipn_all.
      cbn. intuition discriminate.
  - (* the body threw: the catch block decides *)
    unfold secureFetch_catch, bind, record, modify, throw.
    fold (certificate_related e).
    destruct (certificate_related e) eqn:Hc; cbn; (split; [|eauto]).
    + now left.
    + now right.
Qed.

(** ** The client's requests *)

Lemma own_property_set_property obj k v k' :
  own_property (set_property obj k v) k' =
  if String.eqb k' k then Some v else own_property obj k'.
Proof.
  induction obj as [|[k0 v0] rest IH]; cbn.
  - now destruct (String.eqb k' k).
  - destruct (String.eqb_spec k k0) as [->|Hne]; cbn.
    + now destruct (String.eqb k' k0).
    + rewrite IH. destruct (String.eqb_spec k' k0) as [->|]; [|reflexivity].
      now rewrite (proj2 (String.eqb_neq k0 k)) by congruence.
Qed.

(** In [{ ...a, ...b }] a property of [b] wins over one of [a]. *)
Lemma own_property_spread a b k :
  own_property (spread a b) k =
  match own_property (rev b) k with
  | Some v => Some v
  | None => own_property a k
  end.
Proof.
  unfold spread. revert a. induction b as [|[k0 v0] b IH]; intros a; [reflexivity|].
  cbn [fold_left fst snd rev]. rewrite IH, own_property_set_property.
  assert (Happ : forall l, own_property (l ++ [(k0, v0)]) k =
                           match own_property l k with
                           | Some v => Some v
                           | None => if String.eqb k k0 then Some v0 else None
                           end).
  { induction l as [|[k1 v1] l IHl]; cbn; [reflexivity|].
    now destruct (String.eqb k k1). }
  rewrite Happ. destruct (own_property (rev b) k); [reflexivity|].
  now destruct (String.eqb k k0).
Qed.

(** What a caller can and cannot change in a request of the client.  The
    HTTP method is the caller's [options.method] when given, else the
    default options' method, and only then the verb of the method called.
    The body of [post] and [put] is always [JSON.stringify(data)].  A
    header given in [options] wins over one of the default options, which
    wins over the Content-Type the client sets for [post] and [put]. *)
Theorem client_request_options_precedence
    (v : verb) (json : option string) (defaultOptions options : client_options) :
  let o := client_request_options v json defaultOptions options in
  method o =
    Some (default (co_method options) (default (co_method defaultOptions) (verb_name v))) /\
  body o = (if sends_data v then json
            else first_some (co_body options) (co_body defaultOptions)) /\
  forall name,
    own_property (default (headers o) []) name =
    match own_property (rev (default (co_headers options) [])) name with
    | Some x => Some x
    | None =>
        match own_property (rev (default (co_headers defaultOptions) [])) name with
        | Some x => Some x
        | None => if sends_data v && String.eqb name "Content-Type"
                  then Some "application/json" else None
        end
    end.
Proof.
  intros o. subst o. unfold client_request_options, merged_options.
  destruct v; cbn [sends_data verb_name method body headers default];
    (split; [now destruct (co_method options), (co_method defaultOptions)|]);
    (split; [reflexivity|]); intros name; rewrite !own_property_spread; cbn;
    try reflexivity;
    destruct (own_property (rev (default (co_headers options) [])) name); try reflexivity;
    destruct (own_property (rev (default (co_headers defaultOptions) [])) name); reflexivity.
Qed.

(** Every request of the client reaches the network with the timeout
    [DEFAULT_TIMEOUT] (30000 ms): the methods call [secureFetch] with two
    arguments, so a [timeout] in the default options or in the options of
    a call has no effect. *)
Theorem client_timeout_is_default {R : Type} (h : host R)
    (baseURL : string) (defaultOptions options : client_options)
    (v : verb) (path : string) (json : option string) (tr : list call) :
  List.Forall (fun c => call_timeout c = None \/ call_timeout c = Some 30000)
    (skipn (length tr)
       (snd (client_call R h baseURL defaultOptions v path json options tr))).
Proof.
  apply List.Forall_forall. intros c. unfold client_call, secureFetch, try_catch, bind, record, modify,
    lift_completion, throw, secureFetch_catch.
  set (o := client_request_options v json defaultOptions options).
  cbn [default].
  repeat match goal with
  | |- context [match ?x with _ => _ end] =>
      match x with
      | isConnected h => destruct (isConnected h) as [[|]|?]
      | hostname h ?u => destruct (hostname h u) as [?|?]
      | findPinnedDomain ?d => destruct (findPinnedDomain d)
      | fetch h ?u ?fo => destruct (fetch h u fo) as [?|?]
      | processResponse R ?r => destruct (processResponse R r) as [?|?]
      | sslPinningFetch h ?u ?po => destruct (sslPinningFetch h u po) as [?|?]
      end; cbn [fst snd negb]
  | |- context [if ?b then _ else _] => destruct b; cbn [fst snd]
  end;
  unfold bind, record, modify, throw; cbn [fst snd];
  rewrite <- ?app_assoc, skipn_app, Nat.sub_diag, skipn_all; cbn;
  intuition (subst; cbn; auto).
Qed.

End PinnedClientFacts.

(* ===================================================================== *)
(** * Properties of the permission flow *)
(* ===================================================================== *)

Module PermissionFlowFacts.
Import Js PermissionsManager PermissionFlow PermissionsManagerFacts.
Import CertificatePinning (platform_os, ios, android, own_property).

(** ** Checking several permissions *)

Lemma forallb_map_compose {A B} (f : A -> B) (g : B -> bool) (l : list A) :
  forallb g (map f l) = forallb (fun a => g (f a)) l.
Proof. induction l as [|a l IH]; simpl; [reflexivity|now rewrite IH]. Qed.

Lemma forallb_pointwise {A} (f g : A -> bool) (l : list A) :
  (forall a, f a = g a) -> forallb f l = forallb g l.
Proof. intros H. induction l as [|a l IH]; simpl; [reflexivity|now rewrite H, IH]. Qed.

Lemma set_property_granted PERMISSIONS OS check acc k v :
  consistent PERMISSIONS OS acc -> platform_permission PERMISSIONS OS k = Some v ->
  forallb (granted check) (PinnedClient.set_property acc k v) =
  forallb (granted check) acc && granted check (k, v).
Proof.
  intros Hc Hk. induction acc as [|[k' v'] acc IH]; simpl.
  - now rewrite andb_true_r.
  - destruct (String.eqb_spec k k') as [->|Hne]; simpl.
    + assert (v' = v) as ->.
      { specialize (Hc k' v' (or_introl eq_refl)). congruence. }
      destruct (granted check (k', v)), (forallb (granted check) acc); reflexivity.
    + rewrite IH; [now rewrite andb_assoc|].
      intros k0 v0 Hin. apply Hc. now right.
Qed.

Lemma set_property_consistent PERMISSIONS OS acc k v :
  consistent PERMISSIONS OS acc -> platform_permission PERMISSIONS OS k = Some v ->
  consistent PERMISSIONS OS (PinnedClient.set_property acc k v).
Proof.
  intros Hc Hk. induction acc as [|[k' v'] acc IH]; simpl.
  - intros k0 v0 [[= <- <-]|[]]. exact Hk.
  - destruct (String.eqb_spec k k') as [->|Hne].
    + intros k0 v0 [[= <- <-]|Hin]; [exact Hk|]. apply Hc. now right.
    + intros k0 v0 [[= <- <-]|Hin]; [apply Hc; now left|].
      apply IH; [|exact Hin]. intros k1 v1 H1. apply Hc. now right.
Qed.

Lemma permissionsToCheck_granted PERMISSIONS OS check types : forall acc,
  consistent PERMISSIONS OS acc ->
  forallb (granted check) (permissionsToCheck PERMISSIONS OS types acc) =
  forallb (granted check) acc &&
  forallb (fun t => match platform_permission PERMISSIONS OS t with
                    | None => true
                    | Some p => granted check (t, p)
                    end) types.
Proof.
  induction types as [|t types IH]; intros acc Hc; simpl.
  - now rewrite andb_true_r.
  - destruct (platform_permission PERMISSIONS OS t) as [p|] eqn:Hp.
    + rewrite IH by now apply set_property_consistent.
      rewrite (set_property_granted PERMISSIONS OS) by assumption. now rewrite andb_assoc.
    + now rewrite IH.
Qed.

(** [hasRequiredPermissions] looks only at the types that have a
    permission on the running platform: it answers true exactly when
    each of those is granted, and a type that is unknown or has no
    permission on the platform (for which [getPermissionStatus] answers
    unavailable) does not make it false.  On Android the NOTIFICATIONS
    type is such a type. *)
Theorem hasRequiredPermissions_skips_unavailable
    (PERMISSIONS : platform_os -> string -> option string) (OS : platform_os)
    (check : string -> completion status) (types : list string) :
  hasRequiredPermissions PERMISSIONS OS check types =
    forallb (fun t => match platform_permission PERMISSIONS OS t with
                      | None => true
                      | Some _ => is_granted (getPermissionStatus PERMISSIONS OS check t)
                      end) types
  /\ hasRequiredPermissions PERMISSIONS android check ("NOTIFICATIONS" :: types) =
     hasRequiredPermissions PERMISSIONS android check types
  /\ getPermissionStatus PERMISSIONS android check "NOTIFICATIONS" = UNAVAILABLE.
Proof.
  assert (Hmain : forall os ts,
    hasRequiredPermissions PERMISSIONS os check ts =
    forallb (fun t => match platform_permission PERMISSIONS os t with
                      | None => true
                      | Some _ => is_granted (getPermissionStatus PERMISSIONS os check t)
                      end) ts).
  { intros os ts. unfold hasRequiredPermissions, checkMultiplePermissions.
    rewrite forallb_map_compose. cbn beta. cbn [fst snd].
    change (forallb _ (permissionsToCheck PERMISSIONS os ts []))
      with (forallb (granted check) (permissionsToCheck PERMISSIONS os ts [])).
    rewrite (permissionsToCheck_granted PERMISSIONS os check ts [])
      by (intros k v []).
    simpl. apply forallb_pointwise. intros t. unfold getPermissionStatus, granted.
    now destruct (platform_permission PERMISSIONS os t). }
  split; [apply Hmain|]. split; [|reflexivity].
  rewrite !Hmain. reflexivity.
Qed.

(** ** Requesting a permission *)

Lemma own_type_cases PERMISSIONS type c :
  own_property (PERMISSION_TYPES PERMISSIONS) type = Some c ->
  type <> "" /\ ObjectPrototype.is_inherited type = false.
Proof.
  unfold PERMISSION_TYPES. cbn [own_property].
  repeat match goal with
         | |- context [String.eqb type ?k] =>
             destruct (String.eqb_spec type k) as [->|?];
             [intros _; split; [discriminate|reflexivity]|]
         end.
  discriminate.
Qed.

Lemma getPermissionHistory_own type ok st :
  type <> "" -> ObjectPrototype.is_inherited type = false ->
  getPermissionHistory type ok st =
  (Normal (Entries (seen_entries type ok (store st))),
   mk_state (store st) (log st ++ read_failure_log ok (store st))).
Proof.
  intros Hne Hinh. unfold getPermissionHistory, seen_entries, read_failure_log, previous.
  apply String.eqb_neq in Hne. rewrite Hne, Hinh.
  destruct ok; simpl; [|reflexivity].
  destruct st as [[| |h] l]; simpl; try reflexivity.
  - rewrite lookup_empty. simpl. now rewrite app_nil_r.
  - destruct (h !! type); simpl; now rewrite app_nil_r.
Qed.

Lemma isTooManyRequests_own type ok st :
  type <> "" -> ObjectPrototype.is_inherited type = false ->
  isTooManyRequests type ok st =
  (Normal (3 <=? denials (seen_entries type ok (store st)))%nat,
   mk_state (store st) (log st ++ read_failure_log ok (store st))).
Proof.
  intros Hne Hinh. unfold isTooManyRequests, bind.
  now rewrite getPermissionHistory_own.
Qed.

Lemma new_effects_app s l st :
  new_effects s (mk_state st (log s ++ l)) = l.
Proof. unfold new_effects. simpl. apply drop_app_length. Qed.

Lemma asked_read_failure ok st : existsb is_request (read_failure_log ok st) = false.
Proof. unfold read_failure_log. now destruct ok, st. Qed.

Local Arguments isTooManyRequests : simpl never.
Local Arguments savePermissionHistory_try : simpl never.

Ltac trace :=
  cbn [snd fst store log]; rewrite <- ?app_assoc; rewrite ?new_effects_app;
  unfold asked; rewrite ?existsb_app, ?asked_read_failure; cbn.

Ltac run_flow :=
  unfold try_catch, bind, emit, modify, lift_completion, save, ret,
    showSettingsDialog, showPermissionRationale; cbn.

(** [requestPermission] calls [request] of the library exactly when the
    type has a permission on the platform, [check] answered denied,
    fewer than three denied or blocked entries are read back from the
    stored history after this check was recorded (none are read back
    when the item cannot be read or parsed), and the rationale was
    skipped or accepted. *)
Theorem requestPermission_asks_iff
    (PERMISSIONS : platform_os -> string -> option string) (OS : platform_os)
    (type : string) (skipRationale : bool) (a : answers) (s : state) :
  asked (new_effects s (snd (requestPermission PERMISSIONS OS type skipRationale a s))) = true
  <->
  (exists p, platform_permission PERMISSIONS OS type = Some p) /\
  check_result a = Normal DENIED /\
  (denials (seen_entries type (history_read_ok a)
              (savePermissionHistory type (status_name DENIED) (io_of (first_save a))
                 (store s))) < 3)%nat /\
  (skipRationale = true \/ rationale_continue a = true).
Proof.
  unfold requestPermission, platform_permission, getPermissionByPlatform.
  destruct (own_property (PERMISSION_TYPES PERMISSIONS) type) as [c|] eqn:Hown.
  2:{ destruct (ObjectPrototype.is_inherited type); run_flow; trace;
      (split; [discriminate|intros [[p [=]] _]]). }
  destruct (own_type_cases _ _ _ Hown) as [Hne Hinh].
  destruct (select_platform OS c) as [p|] eqn:Hsel.
  2:{ run_flow; trace; (split; [discriminate|intros [[p [=]] _]]). }
  destruct (check_result a) as [status|e] eqn:Hcheck.
  2:{ run_flow; trace; (split; [discriminate|intros (_ & [=] & _)]). }
  unfold savePermissionHistory.
  destruct status; run_flow;
    destruct (savePermissionHistory_try type _ (io_of (first_save a)) (store s))
      as [s1|e1] eqn:Hsave.
  all: try (trace; split; [discriminate|intros (_ & [=] & _)]).
  all: rewrite isTooManyRequests_own by assumption; cbn [store log].
  all: match goal with
       | |- context [(3 <=? ?n)%nat] => destruct (Nat.leb_spec 3 n)
       end.
  all: destruct skipRationale, (rationale_continue a) eqn:Hcont; cbn.
  all: try (destruct (request_result a) as [r|er]; cbn).
  all: try match goal with
       | |- context [savePermissionHistory_try ?t ?r (io_of (second_save ?a0)) ?st] =>
           destruct (savePermissionHistory_try t r (io_of (second_save a0)) st)
       end.
  all: trace.
  all: split; [try discriminate; intros _|].
  all: try (intros (_ & _ & Hlt & Hor); try lia; destruct Hor; discriminate).
  all: try (intros _; reflexivity).
  all: repeat split; eauto; lia.
Qed.

Lemma slice_last_snoc {A} (n : nat) (l : list A) (x : A) :
  slice_last (S n) (l ++ [x]) = slice_last n l ++ [x].
Proof.
  unfold slice_last. rewrite length_app. simpl.
  replace (length l + 1 - S n)%nat with (length l - n)%nat by lia.
  apply drop_app_le. lia.
Qed.

Lemma denials_app l1 l2 : denials (l1 ++ l2) = (denials l1 + denials l2)%nat.
Proof. unfold denials. now rewrite List.filter_app, length_app. Qed.

Lemma is_denial_status r ts :
  is_denial (mk_history_entry (status_name r) ts) =
  match r with DENIED | BLOCKED => true | _ => false end.
Proof. now destruct r. Qed.

(** A save that reaches AsyncStorage both ways writes the trimmed
    history back. *)
Lemma save_works type r env st :
  ObjectPrototype.is_inherited type = false ->
  save_getItem_ok env = true -> save_setItem_ok env = true -> st <> Unparsable ->
  savePermissionHistory_try type r (io_of env) st =
  Normal (History (<[type := slice_last 5 (previous type st ++ [mk_history_entry r (now env)])]>
                     (history_of st))).
Proof.
  intros Hinh Hg Hs Hst.
  assert (exists s', savePermissionHistory_try type r (io_of env) st = Normal s') as [s' Hs'].
  { unfold savePermissionHistory_try, io_of, push_entry. simpl. rewrite Hg, Hs, Hinh. simpl.
    destruct st as [| |h]; [| congruence |].
    - rewrite lookup_empty. eauto.
    - destruct (h !! type); eauto. }
  rewrite Hs'. f_equal.
  apply savePermissionHistory_try_ok in Hs' as (ts & [= <-] & ->). reflexivity.
Qed.

Lemma platform_permission_own PERMISSIONS OS type p :
  platform_permission PERMISSIONS OS type = Some p ->
  exists c, own_property (PERMISSION_TYPES PERMISSIONS) type = Some c /\
            select_platform OS c = Some p.
Proof.
  unfold platform_permission.
  destruct (own_property (PERMISSION_TYPES PERMISSIONS) type) as [c|]; [eauto|discriminate].
Qed.

Lemma previous_insert type l h : previous type (History (<[type := l]> h)) = l.
Proof. unfold previous. simpl. now rewrite lookup_insert_eq. Qed.

(** A denied check with two recent denials on record goes to the
    settings dialog. *)
Lemma denied_leads_to_settings PERMISSIONS OS type skipRationale a s p :
  platform_permission PERMISSIONS OS type = Some p ->
  check_result a = Normal DENIED ->
  history_read_ok a = true ->
  save_getItem_ok (first_save a) = true -> save_setItem_ok (first_save a) = true ->
  store s <> Unparsable ->
  recently_denied type (store s) ->
  exists message,
    requestPermission PERMISSIONS OS type skipRationale a s =
    (Normal (settings_result (settings a)),
     mk_state (savePermissionHistory type (status_name DENIED) (io_of (first_save a)) (store s))
              (log s ++ [Checked p; SettingsShown message])).
Proof.
  intros Hp Hcheck Hread Hg Hs Hst Hrecent.
  destruct (platform_permission_own _ _ _ _ Hp) as (c & Hown & Hsel).
  destruct (own_type_cases _ _ _ Hown) as [Hne Hinh].
  exists (message c +:+ " Please enable it in settings.").
  unfold requestPermission, getPermissionByPlatform, savePermissionHistory.
  rewrite Hown, Hsel, Hcheck. run_flow.
  rewrite (save_works type _ _ _ Hinh Hg Hs Hst).
  rewrite isTooManyRequests_own by assumption. cbn [store log].
  rewrite Hread. unfold seen_entries. rewrite previous_insert.
  rewrite slice_last_snoc, denials_app. unfold recently_denied in Hrecent.
  replace (3 <=? _)%nat with true.
  2:{ symmetry. apply Nat.leb_le. unfold denials at 2. simpl. lia. }
  cbn. unfold read_failure_log. rewrite app_nil_r, <- app_assoc. reflexivity.
Qed.

(** After a request that was answered denied or blocked, two recent
    denials are on record. *)
Lemma denied_request_recorded PERMISSIONS OS type skipRationale a s :
  asked (new_effects s (snd (requestPermission PERMISSIONS OS type skipRationale a s))) = true ->
  request_result a = Normal DENIED \/ request_result a = Normal BLOCKED ->
  save_getItem_ok (first_save a) = true -> save_setItem_ok (first_save a) = true ->
  save_getItem_ok (second_save a) = true -> save_setItem_ok (second_save a) = true ->
  store s <> Unparsable ->
  recently_denied type (store (snd (requestPermission PERMISSIONS OS type skipRationale a s)))
  /\ store (snd (requestPermission PERMISSIONS OS type skipRationale a s)) <> Unparsable
  /\ exists p, platform_permission PERMISSIONS OS type = Some p.
Proof.
  unfold requestPermission, platform_permission, getPermissionByPlatform.
  destruct (own_property (PERMISSION_TYPES PERMISSIONS) type) as [c|] eqn:Hown.
  2:{ destruct (ObjectPrototype.is_inherited type); run_flow; trace; discriminate. }
  destruct (own_type_cases _ _ _ Hown) as [Hne Hinh].
  destruct (select_platform OS c) as [p|] eqn:Hsel.
  2:{ run_flow; trace; discriminate. }
  destruct (check_result a) as [status|e] eqn:Hcheck.
  2:{ run_flow; trace; discriminate. }
  intros Hasked Hreq Hg1 Hs1 Hg2 Hs2 Hst. revert Hasked.
  destruct status; run_flow;
    rewrite (save_works type _ _ _ Hinh Hg1 Hs1 Hst).
  all: try (trace; discriminate).
  rewrite isTooManyRequests_own by assumption; cbn [store log].
  match goal with
  | |- context [(3 <=? ?n)%nat] => destruct (Nat.leb_spec 3 n)
  end.
  all: destruct skipRationale, (rationale_continue a) eqn:Hcont; cbn.
  all: try (trace; discriminate).
  all: assert (exists r : status, request_result a = Normal r /\
                match r with DENIED | BLOCKED => True | _ => False end)
         as (r & -> & Hr).
  all: try (destruct Hreq as [->| ->]; eexists; (split; [reflexivity|exact I])).
  all: cbn; rewrite save_works by (try assumption; discriminate).
  all: intros _; cbn; (split; [|split; [discriminate|eauto]]).
  all: unfold recently_denied; rewrite !previous_insert.
  all: rewrite !slice_last_snoc, !denials_app.
  all: unfold denials at 2 3; cbn [List.filter length]; rewrite !is_denial_status.
  all: destruct r; try contradiction; simpl; lia.
Qed.

(** For a permission type the platform has: when storage works for
    this call (the stored history parses, the check is written to it
    and the history is read back) and two of the last four entries
    stored for the type are denied or blocked, a denied check does not
    lead to another request: the settings dialog is shown and its
    answer is the result (true when the user opens the settings,
    whatever the permission then is). *)
Theorem recent_denials_open_settings
    (PERMISSIONS : platform_os -> string -> option string) (OS : platform_os)
    (type : string) (skipRationale : bool) (a : answers) (s : state) (p : string) :
  platform_permission PERMISSIONS OS type = Some p ->
  check_result a = Normal DENIED ->
  history_read_ok a = true ->
  storage_ok (first_save a) = true ->
  store s <> Unparsable ->
  recently_denied type (store s) ->
  fst (requestPermission PERMISSIONS OS type skipRationale a s) =
    Normal (settings_result (settings a)) /\
  asked (new_effects s (snd (requestPermission PERMISSIONS OS type skipRationale a s))) = false /\
  existsb is_settings_dialog
    (new_effects s (snd (requestPermission PERMISSIONS OS type skipRationale a s))) = true.
Proof.
  intros Hp Hcheck Hread Hok Hst Hrecent.
  apply andb_prop in Hok as [Hg Hs].
  destruct (denied_leads_to_settings PERMISSIONS OS type skipRationale a s p)
    as [message ->]; try assumption.
  cbn [fst snd]. rewrite new_effects_app. repeat split.
Qed.

Lemma recent_denials_open_settings_witness :
  let e := mk_history_entry "denied" "2024-01-01T00:00:00.000Z" in
  let s := mk_state (History {[ "CAMERA" := [e; e] ]}) [] in
  let a := mk_answers (Normal DENIED) (working "2024-01-02T00:00:00.000Z") true true
             OpenSettings (Normal GRANTED) (working "2024-01-02T00:00:01.000Z") in
  fst (requestPermission (fun _ name => Some name) ios "CAMERA" false a s) =
    Normal (Some true).
Proof.
  intros e s a.
  refine (proj1 (recent_denials_open_settings (fun _ name => Some name) ios "CAMERA" false
                   a s "CAMERA" _ _ _ _ _ _)).
  - reflexivity.
  - reflexivity.
  - reflexivity.
  - reflexivity.
  - discriminate.
  - unfold recently_denied, previous. simpl. rewrite lookup_singleton_eq. simpl.
    unfold denials. simpl. lia.
Defined.

(** A request that the platform answers denied or blocked is not made
    again by the next call: when storage works, the next call whose
    check is denied shows the settings dialog instead of calling
    [request]. *)
Theorem denied_request_is_not_repeated
    (PERMISSIONS : platform_os -> string -> option string) (OS : platform_os)
    (type : string) (skip1 skip2 : bool) (a1 a2 : answers) (s : state) :
  let s1 := snd (requestPermission PERMISSIONS OS type skip1 a1 s) in
  let s2 := snd (requestPermission PERMISSIONS OS type skip2 a2 s1) in
  asked (new_effects s s1) = true ->
  request_result a1 = Normal DENIED \/ request_result a1 = Normal BLOCKED ->
  storage_ok (first_save a1) = true -> storage_ok (second_save a1) = true ->
  store s <> Unparsable ->
  check_result a2 = Normal DENIED ->
  history_read_ok a2 = true ->
  storage_ok (first_save a2) = true ->
  fst (requestPermission PERMISSIONS OS type skip2 a2 s1) =
    Normal (settings_result (settings a2)) /\
  asked (new_effects s1 s2) = false /\
  existsb is_settings_dialog (new_effects s1 s2) = true.
Proof.
  intros s1 s2 Hasked Hreq Hok1 Hok2 Hst Hcheck Hread Hok3.
  apply andb_prop in Hok1 as [Hg1 Hs1]. apply andb_prop in Hok2 as [Hg2 Hs2].
  apply andb_prop in Hok3 as [Hg3 Hs3].
  destruct (denied_request_recorded PERMISSIONS OS type skip1 a1 s)
    as (Hrecent & Hst1 & p & Hp); try assumption.
  fold s1 in Hrecent, Hst1. subst s2.
  destruct (denied_leads_to_settings PERMISSIONS OS type skip2 a2 s1 p)
    as [message ->]; try assumption.
  cbn [fst snd]. rewrite new_effects_app. repeat split.
Qed.

Lemma denied_request_is_not_repeated_witness :
  let a1 := mk_answers (Normal DENIED) (working "2024-01-01T00:00:00.000Z") true true
              NotNow (Normal DENIED) (working "2024-01-01T00:00:01.000Z") in
  let a2 := mk_answers (Normal DENIED) (working "2024-01-02T00:00:00.000Z") true true
              NotNow (Normal GRANTED) (working "2024-01-02T00:00:01.000Z") in
  let s := mk_state NoItem [] in
  let s1 := snd (requestPermission (fun _ name => Some name) android "CAMERA" false a1 s) in
  fst (requestPermission (fun _ name => Some name) android "CAMERA" false a2 s1) =
    Normal (Some false).
Proof.
  intros a1 a2 s s1.
  refine (proj1 (denied_request_is_not_repeated (fun _ name => Some name) android "CAMERA"
                   false false a1 a2 s _ _ _ _ _ _ _ _)).
  - vm_compute. reflexivity.
  - left. reflexivity.
  - reflexivity.
  - reflexivity.
  - discriminate.
  - reflexivity.
  - reflexivity.
  - reflexivity.
Defined.

Lemma settings_read_failure ok st :
  existsb is_settings_dialog (read_failure_log ok st) = false.
Proof. unfold read_failure_log. now destruct ok, st. Qed.

Ltac trace_settings :=
  cbn [snd fst store log]; rewrite <- ?app_assoc; rewrite ?new_effects_app;
  unfold asked; rewrite ?existsb_app, ?asked_read_failure, ?settings_read_failure; cbn.

(** [requestPermission] never rejects.  It resolves to true only when
    [check] answered granted, or [request] was called and answered
    granted, or the settings dialog was shown and the user opened the
    settings; it stays pending only when the settings dialog was shown
    and opening the settings failed. *)
Theorem requestPermission_outcomes
    (PERMISSIONS : platform_os -> string -> option string) (OS : platform_os)
    (type : string) (skipRationale : bool) (a : answers) (s : state) :
  exists r,
    fst (requestPermission PERMISSIONS OS type skipRationale a s) = Normal r /\
    let new := new_effects s (snd (requestPermission PERMISSIONS OS type skipRationale a s)) in
    (r = Some true ->
       check_result a = Normal GRANTED \/
       (request_result a = Normal GRANTED /\ asked new = true) \/
       (settings a = OpenSettings /\ existsb is_settings_dialog new = true)) /\
    (r = None ->
       settings a = OpenSettingsFails /\ existsb is_settings_dialog new = true).
Proof.
  unfold requestPermission, getPermissionByPlatform.
  destruct (own_property (PERMISSION_TYPES PERMISSIONS) type) as [c|] eqn:Hown.
  2:{ destruct (ObjectPrototype.is_inherited type); run_flow;
      (eexists; split; [reflexivity|]); cbn zeta; split; discriminate. }
  destruct (own_type_cases _ _ _ Hown) as [Hne Hinh].
  destruct (select_platform OS c) as [p|] eqn:Hsel.
  2:{ run_flow; (eexists; split; [reflexivity|]); cbn zeta; split; discriminate. }
  destruct (check_result a) as [status|e] eqn:Hcheck.
  2:{ run_flow; (eexists; split; [reflexivity|]); cbn zeta; split; discriminate. }
  destruct status; run_flow;
    destruct (savePermissionHistory_try type _ (io_of (first_save a)) (store s))
      as [s1|e1] eqn:Hsave.
  all: try rewrite isTooManyRequests_own by assumption; cbn [store log].
  all: try match goal with
       | |- context [(3 <=? ?n)%nat] => destruct (Nat.leb_spec 3 n)
       end.
  all: try (destruct skipRationale, (rationale_continue a) eqn:Hcont; cbn).
  all: try (destruct (request_result a) as [r|er]; cbn).
  all: try match goal with
       | |- context [savePermissionHistory_try ?t ?r (io_of (second_save ?a0)) ?st] =>
           destruct (savePermissionHistory_try t r (io_of (second_save a0)) st)
       end.
  all: (eexists; split; [reflexivity|]); cbn zeta; trace_settings.
  all: split; intros Hr.
  all: repeat match goal with
       | H : Some (is_granted ?r) = _ |- _ =>
           destruct r; cbn in H; try discriminate H; clear H
       | H : settings_result ?x = _ |- _ =>
           destruct x; cbn in H; try discriminate H; clear H
       end.
  all: try discriminate.
  all: first [ left; reflexivity
             | right; left; split; reflexivity
             | right; right; split; reflexivity
             | split; reflexivity ].
Qed.

(** ** Clearing the history *)

Lemma clearPermissionHistory_previous type s :
  previous type (clearPermissionHistory (Some type) true true true s) = [].
Proof.
  unfold clearPermissionHistory, previous. simpl.
  destruct (String.eqb type ""); [reflexivity|].
  destruct s as [| |h]; simpl; try reflexivity.
  - rewrite lookup_empty.
    destruct (ObjectPrototype.is_inherited type); simpl; reflexivity.
  - destruct (h !! type) eqn:E; simpl.
    + now rewrite lookup_delete_eq.
    + destruct (ObjectPrototype.is_inherited type); simpl; now rewrite E.
Qed.

Lemma denials_after_save type r env ok s :
  previous type s = [] ->
  (denials (seen_entries type ok (savePermissionHistory type r env s)) <= 1)%nat.
Proof.
  intros Hprev. unfold savePermissionHistory, seen_entries.
  destruct (savePermissionHistory_try type r env s) as [s'|e] eqn:Hs.
  - apply savePermissionHistory_try_ok in Hs as (ts & _ & ->).
    destruct ok; [|unfold denials; simpl; lia].
    rewrite previous_insert, Hprev. simpl.
    unfold slice_last, denials. simpl.
    destruct (is_denial _); simpl; lia.
  - destruct ok; [|unfold denials; simpl; lia].
    destruct s; try (unfold denials; simpl; lia); rewrite Hprev; unfold denials; simpl; lia.
Qed.

(** [clearPermissionHistory(type)] resets the limit on asking: when it
    went through, the next call of [requestPermission] for this type
    whose check is denied calls [request] again as soon as the rationale
    is skipped or accepted, whatever was stored before; the entries of
    the other types are kept. *)
Theorem clearPermissionHistory_resets_limit
    (PERMISSIONS : platform_os -> string -> option string) (OS : platform_os)
    (type other : string) (skipRationale : bool) (a : answers)
    (before : stored) (l : list effect) (p : string) :
  platform_permission PERMISSIONS OS type = Some p ->
  check_result a = Normal DENIED ->
  skipRationale = true \/ rationale_continue a = true ->
  let s := mk_state (clearPermissionHistory (Some type) true true true before) l in
  asked (new_effects s (snd (requestPermission PERMISSIONS OS type skipRationale a s))) = true /\
  (other <> type -> previous other (store s) = previous other before).
Proof.
  intros Hp Hcheck Hor s. split.
  - destruct (platform_permission_own _ _ _ _ Hp) as (c & Hown & Hsel).
    destruct (own_type_cases _ _ _ Hown) as [Hne Hinh].
    pose proof (clearPermissionHistory_previous type before) as Hprev.
    subst s. set (cleared := clearPermissionHistory (Some type) true true true before) in *.
    clearbody cleared.
    pose proof (denials_after_save type "denied" (io_of (first_save a))
                  (history_read_ok a) cleared Hprev) as Hd.
    unfold savePermissionHistory in Hd.
    unfold requestPermission, getPermissionByPlatform.
    rewrite Hown, Hsel, Hcheck. run_flow.
    destruct (savePermissionHistory_try type "denied" (io_of (first_save a)) cleared)
      as [s1|e1] eqn:Hsave.
    all: rewrite isTooManyRequests_own by assumption; cbn [store log].
    all: match goal with
         | |- context [(3 <=? ?n)%nat] => destruct (Nat.leb_spec 3 n); [simpl in *; lia|]
         end.
    all: destruct skipRationale, (rationale_continue a) eqn:Hcont; cbn;
         try (destruct Hor; discriminate).
    all: destruct (request_result a) as [r|er]; cbn.
    all: try match goal with
         | |- context [savePermissionHistory_try ?t ?r (io_of (second_save ?a0)) ?st] =>
             destruct (savePermissionHistory_try t r (io_of (second_save a0)) st)
         end.
    all: unfold asked, new_effects; cbn [snd log]; rewrite <- ?app_assoc, drop_app_length.
    all: cbn; rewrite ?existsb_app, ?asked_read_failure; reflexivity.
  - intros Hother. subst s. cbn [store].
    unfold clearPermissionHistory, previous. simpl.
    destruct (platform_permission_own _ _ _ _ Hp) as (c & Hown & _).
    destruct (own_type_cases _ _ _ Hown) as [Hne Hinh].
    apply String.eqb_neq in Hne. rewrite Hne, Hinh.
    destruct before as [| |h]; simpl; rewrite ?lookup_empty; try reflexivity.
    destruct (h !! type); simpl; [|reflexivity].
    now rewrite lookup_delete_ne by congruence.
Qed.

Lemma clearPermissionHistory_resets_limit_witness :
  let e := mk_history_entry "denied" "2024-01-01T00:00:00.000Z" in
  let before := History {[ "CAMERA" := [e; e; e; e; e] ]} in
  let a := mk_answers (Normal DENIED) (working "2024-01-02T00:00:00.000Z") true true
             NotNow (Normal GRANTED) (working "2024-01-02T00:00:01.000Z") in
  let s := mk_state (clearPermissionHistory (Some "CAMERA") true true true before) [] in
  asked (new_effects s (snd (requestPermission (fun _ name => Some name) ios "CAMERA"
                               false a s))) = true.
Proof.
  intros e before a s.
  refine (proj1 (clearPermissionHistory_resets_limit (fun _ name => Some name) ios
                   "CAMERA" "LOCATION" false a before [] "CAMERA" _ _ _)).
  - reflexivity.
  - reflexivity.
  - right. reflexivity.
Defined.

End PermissionFlowFacts.

(* ===================================================================== *)
(** * More properties of the API client's refresh logic *)
(* ===================================================================== *)

Module ApiClientMoreFacts.
Import Js ApiClient ApiClientStates ApiClientFacts.

Lemma forallb_insert {A} (f : A -> bool) (l : list A) (i : nat) (x : A) :
  forallb f l = true -> f x = true -> forallb f (<[i := x]> l) = true.
Proof.
  revert i. induction l as [|a l IH]; intros i Hl Hx; [reflexivity|].
  simpl in Hl. apply andb_true_iff in Hl as [Ha Hl].
  destruct i as [|i]; simpl.
  - now rewrite Hx, Hl.
  - now rewrite Ha, IH.
Qed.

Lemma forallb_lookup {A} (f : A -> bool) (l : list A) (i : nat) (x : A) :
  forallb f l = true -> l !! i = Some x -> f x = true.
Proof.
  revert i. induction l as [|a l IH]; intros i Hl Hx; [discriminate|].
  simpl in Hl. apply andb_true_iff in Hl as [Ha Hl].
  destruct i as [|i]; simpl in Hx.
  - now injection Hx as <-.
  - eapply IH; eassumption.
Qed.

Lemma refresh_calls_emit es s :
  forallb (fun e => negb (is_refresh_call e)) es = true ->
  refresh_calls (emit es s) = refresh_calls s.
Proof.
  intros H. unfold refresh_calls. cbn [emit effects]. rewrite List.filter_app.
  replace (List.filter is_refresh_call es) with (@nil effect); [now rewrite app_nil_r|].
  induction es as [|e es IH]; [reflexivity|].
  simpl in H. apply andb_true_iff in H as [He H]. simpl.
  apply negb_true_iff in He. rewrite He. now apply IH.
Qed.

Lemma no_refresh_call_map {A} (f : A -> effect) (l : list A) :
  (forall a, is_refresh_call (f a) = false) ->
  forallb (fun e => negb (is_refresh_call e)) (map f l) = true.
Proof.
  intros H. induction l as [|a l IH]; [reflexivity|]. simpl. now rewrite H, IH.
Qed.

Lemma filter_replayed token (qs : list request) :
  List.filter is_refresh_call (map (fun r => Replayed (retried token r)) qs) = [].
Proof. induction qs as [|q qs IH]; simpl; [reflexivity|exact IH]. Qed.

Lemma filter_rejected e (qs : list request) :
  List.filter is_refresh_call (map (fun r => RequestRejected r e) qs) = [].
Proof. induction qs as [|q qs IH]; simpl; [reflexivity|exact IH]. Qed.

Ltac settle :=
  unfold stuck; repeat match goal with |- _ /\ _ => split end;
  try assumption; try reflexivity;
  first
  [ cbn [set_chain emit chains set_subscribers onTokenRefreshed];
    first [ assumption | apply forallb_insert; [assumption|reflexivity] ]
  | unfold refresh_calls, onTokenRefreshed;
    cbn [set_chain emit effects set_subscribers];
    rewrite ?List.filter_app; cbn [List.filter is_refresh_call];
    rewrite ?filter_replayed, ?filter_rejected, ?app_nil_r; reflexivity ].

(** Once stuck, always stuck: no reaction clears the flag or starts a
    refresh. *)
Lemma stuck_step ev s :
  stuck s -> stuck (step ev s) /\ refresh_calls (step ev s) = refresh_calls s.
Proof.
  intros [Hf Hc]. destruct ev as [connected rc error|c r|c r|c|url auth token]; cbn [step].
  - unfold response_error.
    destruct (String.eqb (message error) "Network Error" && negb connected); [settle|].
    destruct (bool_decide (response_status error = Some 401)
              && negb (_retry (config error)) && true).
    + rewrite Hf. cbv beta iota zeta.
      unfold attach_reject, subscribeTokenRefresh.
      cbn [set_subscribers tokenRefreshPromise chains].
      destruct (tokenRefreshPromise s) as [c|]; [|settle].
      destruct (chains s !! c) as [[ph ws]|] eqn:Hch; [|settle].
      pose proof (forallb_lookup _ _ _ _ Hc Hch) as Hph.
      destruct ph; try discriminate Hph; cbn [chain_phase]; settle.
    + destruct (response_status error) as [z|]; [|settle].
      destruct (Z.eqb_spec z 429) as [->|Hne]; [settle|].
      replace (match z with 429 => _ | _ => _ end)
        with (emit [ErrorPassedOn (config error)] s); [settle|].
      destruct z as [|q|q]; try reflexivity.
      repeat (destruct q as [q|q|]; try reflexivity). congruence.
  - unfold refresh_settled.
    destruct (chains s !! c) as [[ph ws]|] eqn:Hch; [|settle].
    pose proof (forallb_lookup _ _ _ _ Hc Hch) as Hph.
    destruct ph; try discriminate Hph; settle.
  - unfold access_token_settled.
    destruct (chains s !! c) as [[ph ws]|] eqn:Hch; [|settle].
    destruct ph; try settle. destruct r as [newToken|e]; settle.
  - unfold refresh_failed.
    destruct (chains s !! c) as [[ph ws]|] eqn:Hch; [|settle].
    destruct ph; settle.
  - unfold securePinnedRequest. settle.
Qed.

Lemma stuck_run evs : forall s,
  stuck s -> stuck (run evs s) /\ refresh_calls (run evs s) = refresh_calls s.
Proof.
  induction evs as [|ev evs IH]; intros s Hs; [split; trivial|].
  cbn [run fold_left]. fold (run evs (step ev s)).
  destruct (stuck_step ev s Hs) as [Hs' Hr].
  destruct (IH _ Hs') as [Hs'' Hr'']. split; [assumption|congruence].
Qed.

Lemma run_cons ev evs s : run (ev :: evs) s = run evs (step ev s).
Proof. reflexivity. Qed.

Lemma queued_state r rs :
  not_retried (r :: rs) = true ->
  run (map unauthorized (r :: rs)) initial =
  mk_state [] true (Some 0%nat) (r :: rs) [mk_chain AwaitingRefresh (r :: rs)]
    [RefreshTokenCalled].
Proof.
  intros H. cbn [not_retried forallb] in H. apply andb_true_iff in H as [Hr H].
  apply negb_true_iff in Hr.
  cbn [map run fold_left]. rewrite first_unauthorized by exact Hr.
  fold (run (map unauthorized rs)). now rewrite queue_grows.
Qed.

(** When [authProvider.refreshToken()] rejects, nothing clears
    [isRefreshingToken]: whatever happens afterwards, the flag stays set
    and the client never calls [refreshToken] a second time. *)
Theorem rejected_refresh_is_never_retried
    (r : request) (rs : list request) (e : error) (evs : list event) :
  not_retried (r :: rs) = true ->
  let s := run (map unauthorized (r :: rs) ++ RefreshSettled 0 (Throw e) :: evs) initial in
  isRefreshingToken s = true /\ refresh_calls s = [RefreshTokenCalled].
Proof.
  intros H s. subst s. rewrite run_app, (queued_state r rs H).
  rewrite run_cons.
  set (s1 := step (RefreshSettled 0 (Throw e)) _).
  assert (Hs1 : stuck s1) by (split; reflexivity).
  destruct (stuck_run evs s1 Hs1) as [[Hf _] Hr].
  split; [exact Hf|]. rewrite Hr. reflexivity.
Qed.

Lemma rejected_refresh_is_never_retried_witness :
  let r1 := mk_request "/user/profile" (Some "Bearer old") false in
  let r2 := mk_request "/user/avatar" (Some "Bearer old") false in
  let s := run [unauthorized r1; RefreshSettled 0 (Throw (Error "offline")); RefreshFailed 0;
                unauthorized r2] initial in
  isRefreshingToken s = true /\ refresh_calls s = [RefreshTokenCalled].
Proof.
  intros r1 r2.
  exact (rejected_refresh_is_never_retried r1 [] (Error "offline")
           [RefreshFailed 0; unauthorized r2] eq_refl).
Defined.

Lemma rejected_later rs' : forall q subs ws e effs,
  not_retried rs' = true ->
  run (map unauthorized rs')
      (mk_state q true (Some 0%nat) subs [mk_chain (Rejected e) ws] effs) =
  mk_state q true (Some 0%nat) (subs ++ rs') [mk_chain (Rejected e) ws]
    (effs ++ map (fun r => RequestRejected r e) rs').
Proof.
  induction rs' as [|r rs' IH]; intros q subs ws e effs H.
  - cbn. now rewrite !app_nil_r.
  - cbn [not_retried forallb] in H. apply andb_true_iff in H as [Hr H].
    apply negb_true_iff in Hr.
    cbn [map]. rewrite run_cons.
    assert (Hstep : step (unauthorized r)
                      (mk_state q true (Some 0%nat) subs [mk_chain (Rejected e) ws] effs) =
                    mk_state q true (Some 0%nat) (subs ++ [r]) [mk_chain (Rejected e) ws]
                      (effs ++ [RequestRejected r e])).
    { unfold unauthorized, step, response_error. cbn [message config response_status].
      rewrite bool_decide_eq_true_2 by reflexivity. rewrite Hr. reflexivity. }
    rewrite Hstep, IH by exact H. now rewrite <- !app_assoc.
Qed.

(** After a rejected [refreshToken()] every later 401 answer is rejected
    at once with the error of that first refresh, and the callbacks of
    these requests pile up in [refreshSubscribers], which nothing empties
    any more. *)
Theorem later_requests_fail_with_first_error
    (r : request) (rs later : list request) (e : error) :
  not_retried (r :: rs) = true -> not_retried later = true ->
  let s := run (map unauthorized (r :: rs) ++ [RefreshSettled 0 (Throw e); RefreshFailed 0])
             initial in
  effects (run (map unauthorized later) s) =
    effects s ++ map (fun q => RequestRejected q e) later /\
  refreshSubscribers (run (map unauthorized later) s) = later.
Proof.
  intros H Hl s. subst s. rewrite run_app, (queued_state r rs H).
  rewrite !run_cons.
  change (run [] ?x) with x.
  cbn [step]. unfold refresh_settled, refresh_failed. cbn -[run].
  unfold set_chain, emit, set_subscribers. cbn -[run].
  rewrite rejected_later by exact Hl. split; reflexivity.
Qed.

Lemma later_requests_fail_with_first_error_witness :
  let r1 := mk_request "/user/profile" (Some "Bearer old") false in
  let r2 := mk_request "/user/avatar" (Some "Bearer old") false in
  let s := run [unauthorized r1; RefreshSettled 0 (Throw (Error "offline")); RefreshFailed 0]
             initial in
  refreshSubscribers (run [unauthorized r2] s) = [r2].
Proof.
  intros r1 r2.
  exact (proj2 (later_requests_fail_with_first_error r1 [] [r2] (Error "offline")
                  eq_refl eq_refl)).
Defined.

Lemma emit_emit es1 es2 s : emit es2 (emit es1 s) = emit (es1 ++ es2) s.
Proof. unfold emit. cbn. now rewrite app_assoc. Qed.

Lemma emit_nil s : emit [] s = s.
Proof. destruct s. unfold emit. cbn. now rewrite app_nil_r. Qed.

Lemma retried_passed_on token qs : forall s,
  run (map unauthorized (map (retried token) qs)) s =
  emit (map ErrorPassedOn (map (retried token) qs)) s.
Proof.
  induction qs as [|q qs IH]; intros s.
  - cbn. now rewrite emit_nil.
  - cbn [map]. rewrite run_cons, IH.
    assert (Hstep : step (unauthorized (retried token q)) s =
                    emit [ErrorPassedOn (retried token q)] s).
    { unfold unauthorized, step, response_error. cbn [message config response_status].
      rewrite bool_decide_eq_true_2 by reflexivity. reflexivity. }
    rewrite Hstep, emit_emit. reflexivity.
Qed.

(** A request is refreshed for at most once: when the requests replayed
    after a successful refresh are answered 401 again, the errors are
    passed on to the callers; no second refresh starts and nothing is
    queued. *)
Theorem replayed_requests_are_not_refreshed_again
    (r : request) (rs : list request) (token : string) :
  not_retried (r :: rs) = true ->
  let replayed := map (retried token) (r :: rs) in
  let s := run (map unauthorized (r :: rs)
                ++ [RefreshSettled 0 (Normal true); AccessTokenSettled 0 (Normal token)]
                ++ map unauthorized replayed) initial in
  effects s = [RefreshTokenCalled; GetAccessTokenCalled]
              ++ map Replayed replayed ++ map ErrorPassedOn replayed /\
  refreshSubscribers s = [] /\
  isRefreshingToken s = false.
Proof.
  intros H replayed s. subst s replayed.
  rewrite run_app, (queued_state r rs H), run_app.
  rewrite retried_passed_on, !run_cons.
  change (run [] ?x) with x.
  cbn [step]. unfold refresh_settled, access_token_settled.
  cbn. repeat split. now rewrite (map_map (retried token) Replayed).
Qed.

Lemma replayed_requests_are_not_refreshed_again_witness :
  let r1 := mk_request "/user/profile" (Some "Bearer old") false in
  let s := run [unauthorized r1; RefreshSettled 0 (Normal true);
                AccessTokenSettled 0 (Normal "new");
                unauthorized (retried "new" r1)] initial in
  isRefreshingToken s = false.
Proof.
  intros r1.
  exact (proj2 (proj2 (replayed_requests_are_not_refreshed_again r1 [] "new" eq_refl))).
Defined.

End ApiClientMoreFacts.

(* ===================================================================== *)
(** * Properties of the input masks *)
(* ===================================================================== *)

Module SecureInputMasksFacts.
Import Js Encoding SecureInputMasks.

Local Arguments is_digit : simpl never.

Lemma is_digit_space : is_digit 32 = false. Proof. reflexivity. Qed.
Lemma is_digit_plus : is_digit 43 = false. Proof. reflexivity. Qed.
Lemma is_digit_dash : is_digit 45 = false. Proof. reflexivity. Qed.
Lemma is_digit_slash : is_digit 47 = false. Proof. reflexivity. Qed.

Lemma digit_not_plus z : is_digit z = true -> (z =? 43) = false.
Proof. unfold is_digit. intros H. apply andb_prop in H as [H1 H2]. lia. Qed.

Lemma digits_only_digits text : forallb is_digit (digits_only text) = true.
Proof.
  unfold digits_only. induction text as [|c text IH]; [reflexivity|].
  simpl. destruct (is_digit c) eqn:E; [|exact IH]. simpl. now rewrite E.
Qed.

Lemma forallb_take {A} (f : A -> bool) n (l : list A) :
  forallb f l = true -> forallb f (take n l) = true.
Proof.
  revert n. induction l as [|a l IH]; intros [|n] H; try reflexivity.
  simpl in *. apply andb_true_iff in H as [Ha H]. now rewrite Ha, IH.
Qed.

Lemma digits_only_id d : forallb is_digit d = true -> digits_only d = d.
Proof.
  unfold digits_only. induction d as [|c d IH]; [reflexivity|].
  simpl. intros H. apply andb_true_iff in H as [Hc H]. now rewrite Hc, IH.
Qed.

Lemma substring_prefix n (s : jsstring) : substring 0 n s = take n s.
Proof. unfold substring. now rewrite Nat.max_0_l, Nat.min_0_l, Nat.sub_0_r. Qed.

(** Splits the hypothesis that all of a list of known length are digits. *)
Ltac digits H :=
  cbn [forallb] in H;
  repeat match type of H with
         | (_ && _ = true) => let H1 := fresh "Hd" in apply andb_prop in H as [H1 H]
         end;
  clear H.

Lemma digits_only_nil : digits_only [] = [].
Proof. reflexivity. Qed.

Lemma digits_only_cons_digit z l :
  is_digit z = true -> digits_only (z :: l) = z :: digits_only l.
Proof. intros H. unfold digits_only. simpl. now rewrite H. Qed.

Lemma digits_only_cons_other z l :
  is_digit z = false -> digits_only (z :: l) = digits_only l.
Proof. intros H. unfold digits_only. simpl. now rewrite H. Qed.

Local Arguments digits_only : simpl never.

(** Filters a list whose elements are known digits or separators. *)
Ltac filter_digits :=
  repeat first
    [ rewrite digits_only_nil
    | rewrite digits_only_cons_digit by assumption
    | rewrite digits_only_cons_other by reflexivity ].

Ltac all_digits :=
  cbn [forallb];
  repeat match goal with
         | H : is_digit ?d = true |- context [is_digit ?d] => rewrite H
         | H : is_digit ?d = true |- context [?d =? 43] => rewrite (digit_not_plus d H)
         end;
  rewrite ?is_digit_space, ?is_digit_plus, ?is_digit_dash, ?is_digit_slash.

Ltac crunch :=
  cbn; filter_digits; cbn; filter_digits; repeat (progress (all_digits; cbn)).

(** The masked card number keeps the first sixteen digits of the input
    and nothing else but single spaces between groups of four: removing
    the non-digits gives those digits back, the result has at most 19
    code units, and masking a masked value changes nothing. *)
Theorem creditCard_mask_keeps_digits (text : jsstring) :
  digits_only (Masks.creditCard text) = take 16 (digits_only text) /\
  (length (Masks.creditCard text) <= 19)%nat /\
  Masks.creditCard (Masks.creditCard text) = Masks.creditCard text.
Proof.
  assert (Hshape : forall d, forallb is_digit d = true -> (length d <= 16)%nat ->
            let out := join space (Masks.push_groups (length d) 0 d []) in
            digits_only out = d /\ (length out <= 19)%nat).
  { intros d Hd Hlen.
    do 17 (destruct d as [|? d]; [digits Hd; crunch; split; [reflexivity|lia]|]).
    simpl in Hlen. lia. }
  pose proof (digits_only_digits text) as Hd.
  apply (forallb_take _ 16) in Hd.
  assert (Hlen : (length (take 16 (digits_only text)) <= 16)%nat)
    by (rewrite length_take; lia).
  destruct (Hshape _ Hd Hlen) as [H1 H2].
  assert (Hcc : forall t, Masks.creditCard t =
            join space (Masks.push_groups (length (take 16 (digits_only t))) 0
                          (take 16 (digits_only t)) [])).
  { intros t. unfold Masks.creditCard. now rewrite substring_prefix. }
  rewrite Hcc at 1 2. split; [exact H1|]. split; [exact H2|].
  rewrite (Hcc (Masks.creditCard text)). rewrite (Hcc text) at 1 2. rewrite H1.
  rewrite take_take. replace (16 `min` 16)%nat with 16%nat by reflexivity.
  symmetry. apply Hcc.
Qed.

(** The card validator never accepts a masked card number, and the phone
    validator never accepts a masked phone number: a masked value of more
    than four (three) digits contains spaces, a shorter one has too few
    digits.  [validateInput] on a masked value therefore always fails
    with the validator's message. *)
Theorem masked_values_never_validate (text : jsstring) (errorMessage : option string) :
  validateInput Validators.creditCard errorMessage (Masks.creditCard text) =
    ("Please enter a valid 16-digit card number", false) /\
  validateInput Validators.phone errorMessage (Masks.phone text) =
    ("Please enter a valid phone number", false).
Proof.
  pose proof (digits_only_digits text) as Hd. split.
  - apply (forallb_take _ 16) in Hd.
    assert (Hlen : (length (take 16 (digits_only text)) <= 16)%nat)
      by (rewrite length_take; lia).
    unfold validateInput, Masks.creditCard. rewrite substring_prefix.
    set (d := take 16 (digits_only text)) in *. clearbody d.
    replace (matches Validators.creditCard _) with false; [reflexivity|].
    symmetry. cbn [matches Validators.creditCard].
    do 17 (destruct d as [|? d]; [digits Hd; crunch; reflexivity|]).
    simpl in Hlen. lia.
  - unfold validateInput, Masks.phone.
    set (d := digits_only text) in *. clearbody d.
    replace (matches Validators.phone _) with false; [reflexivity|].
    symmetry. cbn [matches Validators.phone].
    do 11 (destruct d as [|? d]; [digits Hd; crunch; reflexivity|]).
    cbn [forallb] in Hd.
    repeat match type of Hd with
           | (_ && _ = true) => let H1 := fresh "Hd" in apply andb_prop in Hd as [H1 Hd]
           end.
    crunch. reflexivity.
Qed.

(** A masked expiry date passes the validator exactly when the input has
    at least four digits and the first two are a month from 01 to 12;
    digits after the fourth are dropped. *)
Theorem masked_expiry_validates_iff (text : jsstring) :
  matches Validators.expiryDate (Masks.expiryDate text) =
  match digits_only text with
  | m1 :: m2 :: y1 :: y2 :: _ => is_month m1 m2
  | _ => false
  end.
Proof.
  pose proof (digits_only_digits text) as Hd.
  unfold Masks.expiryDate. rewrite substring_prefix.
  set (d := digits_only text) in *. clearbody d.
  do 4 (destruct d as [|? d]; [digits Hd; crunch; reflexivity|]).
  cbn [forallb] in Hd.
  repeat match type of Hd with
         | (_ && _ = true) => let H1 := fresh "Hd" in apply andb_prop in Hd as [H1 Hd]
         end.
  destruct d; crunch; now rewrite !andb_true_r.
Qed.

(** The phone mask keeps up to ten digits as they are and of a longer
    input only the first eleven; masking a masked value changes nothing. *)
Theorem phone_mask_keeps_digits (text : jsstring) :
  digits_only (Masks.phone text) =
    (if (length (digits_only text) <=? 10)%nat then digits_only text
     else take 11 (digits_only text)) /\
  Masks.phone (Masks.phone text) = Masks.phone text.
Proof.
  pose proof (digits_only_digits text) as Hd.
  unfold Masks.phone.
  set (d := digits_only text) in *. clearbody d.
  do 11 (destruct d as [|? d]; [digits Hd; crunch; split; reflexivity|]).
  cbn [forallb] in Hd.
  repeat match type of Hd with
         | (_ && _ = true) => let H1 := fresh "Hd" in apply andb_prop in Hd as [H1 Hd]
         end.
  crunch. split; reflexivity.
Qed.

(** The SSN mask keeps the first nine digits and the expiry mask the
    first four; both are within their display length and masking a
    masked value changes nothing. *)
Theorem ssn_and_expiry_masks_keep_digits (text : jsstring) :
  (digits_only (Masks.ssn text) = take 9 (digits_only text) /\
   (length (Masks.ssn text) <= 11)%nat /\
   Masks.ssn (Masks.ssn text) = Masks.ssn text) /\
  (digits_only (Masks.expiryDate text) = take 4 (digits_only text) /\
   (length (Masks.expiryDate text) <= 5)%nat /\
   Masks.expiryDate (Masks.expiryDate text) = Masks.expiryDate text).
Proof.
  pose proof (digits_only_digits text) as Hd.
  unfold Masks.ssn, Masks.expiryDate. rewrite !substring_prefix.
  set (d := digits_only text) in *. clearbody d.
  split.
  - do 9 (destruct d as [|? d]; [digits Hd; crunch; (split; [|split]); first [reflexivity|lia]|]).
    cbn [forallb] in Hd.
    repeat match type of Hd with
           | (_ && _ = true) => let H1 := fresh "Hd" in apply andb_prop in Hd as [H1 Hd]
           end.
    crunch. (split; [|split]); first [reflexivity|lia].
  - do 4 (destruct d as [|? d]; [digits Hd; crunch; (split; [|split]); first [reflexivity|lia]|]).
    cbn [forallb] in Hd.
    repeat match type of Hd with
           | (_ && _ = true) => let H1 := fresh "Hd" in apply andb_prop in Hd as [H1 Hd]
           end.
    crunch. (split; [|split]); first [reflexivity|lia].
Qed.

End SecureInputMasksFacts.

(* ===================================================================== *)
(** * Properties of the authorization middleware *)
(* ===================================================================== *)

Module AuthMiddlewareFacts.
Import Js AuthMiddleware.
Import CertificatePinning (own_property).

Ltac role_cases r :=
  destruct (String.eqb_spec r "") as [->|?];
  [|destruct (String.eqb_spec r "admin") as [->|?];
    [|destruct (String.eqb_spec r "user") as [->|?];
      [|destruct (String.eqb_spec r "guest") as [->|?]]]].

Lemma hasAccess_true userRole required' :
  hasAccess userRole required' = Normal true <->
  (userRole = Some "admin" /\ (required' = "admin" \/ required' = "user" \/ required' = "guest"))
  \/ (userRole = Some "user" /\ (required' = "user" \/ required' = "guest"))
  \/ (userRole = Some "guest" /\ required' = "guest").
Proof.
  unfold hasAccess. destruct userRole as [r|].
  2:{ split; [discriminate|]. intros [[[=] _]|[[[=] _]|[[=] _]]]. }
  assert (Heqb : forall a b : string, String.eqb a b = true <-> a = b)
    by (intros; apply String.eqb_eq).
  role_cases r; cbn [own_property roleHierarchy String.eqb Ascii.eqb Bool.eqb existsb].
  - split; [discriminate|]. intros [[[=] _]|[[[=] _]|[[=] _]]].
  - rewrite orb_false_r. split.
    + intros [= H]. left. split; [reflexivity|].
      apply orb_true_iff in H as [H|H]; [left; now apply Heqb|].
      apply orb_true_iff in H as [H|H]; [right; left|right; right]; now apply Heqb.
    + intros [[_ H]|[[[=] _]|[[=] _]]]. f_equal.
      destruct H as [->|[->| ->]]; reflexivity.
  - rewrite orb_false_r. split.
    + intros [= H]. right. left. split; [reflexivity|].
      apply orb_true_iff in H as [H|H]; [left|right]; now apply Heqb.
    + intros [[[=] _]|[[_ H]|[[=] _]]]. f_equal. destruct H as [->| ->]; reflexivity.
  - rewrite orb_false_r. split.
    + intros [= H]. right. right. split; [reflexivity|]. now apply Heqb.
    + intros [[[=] _]|[[[=] _]|[_ ->]]]. reflexivity.
  - repeat match goal with
           | H : r <> ?k |- context [String.eqb r ?k] =>
               rewrite (proj2 (String.eqb_neq r k) H)
           end.
    split.
    + destruct (ObjectPrototype.is_inherited r); discriminate.
    + intros [[[= ->] _]|[[[= ->] _]|[[= ->] _]]]; congruence.
Qed.

Lemma with_headers_secure : with_headers secureHeaders [] = secureHeaders.
Proof. vm_compute. reflexivity. Qed.

Lemma content_type_not_secure : own_property secureHeaders "Content-Type" = None.
Proof. vm_compute. reflexivity. Qed.

Local Opaque secureHeaders.

Lemma existsb_find {A} (f : A -> bool) (l : list A) :
  existsb f l = match List.find f l with Some _ => true | None => false end.
Proof. induction l as [|a l IH]; simpl; [reflexivity|]. now destruct (f a). Qed.

(** A path no protected route matches is passed on with the headers. *)
Lemma middleware_unprotected pathname getToken :
  List.find (route_matches pathname) protectedRoutes = None ->
  middleware pathname getToken =
  (mk_response Pass (with_headers secureHeaders []), false).
Proof.
  intros Hfind. unfold middleware. rewrite existsb_find, Hfind. reflexivity.
Qed.

(** On a protected path the answer depends on the token and on the role
    the first matching route requires. *)
Lemma middleware_protected pathname getToken r :
  List.find (route_matches pathname) protectedRoutes = Some r ->
  middleware pathname getToken =
  match getToken with
  | Throw _ =>
      if startsWith pathname "/api/"
      then (json_error 401 "Authentication error", true)
      else (redirect "/auth/error" [], true)
  | Normal None => (redirect "/auth/login" [("returnUrl", pathname)], false)
  | Normal (Some token) =>
      match hasAccess (role token) (requiredRole r) with
      | Throw _ =>
          if startsWith pathname "/api/"
          then (json_error 401 "Authentication error", true)
          else (redirect "/auth/error" [], true)
      | Normal true => (mk_response Pass (with_headers secureHeaders []), false)
      | Normal false =>
          if startsWith pathname "/api/"
          then (json_error 403 "Insufficient permissions", false)
          else (redirect "/unauthorized" [], false)
      end
  end.
Proof.
  intros Hfind. unfold middleware. rewrite existsb_find, Hfind. cbn [negb].
  assert (Hreq : String.eqb (requiredRole r) "" = false).
  { apply List.find_some in Hfind as [Hin _].
    destruct Hin as [<-|[<-|[<-|[]]]]; reflexivity. }
  rewrite Hreq.
  destruct getToken as [[t|]|e]; try reflexivity.
  destruct (hasAccess (role t) (requiredRole r)) as [[|]|e]; try reflexivity.
  destruct (startsWith pathname "/api/"); reflexivity.
Qed.

Lemma required_role pathname r :
  List.find (route_matches pathname) protectedRoutes = Some r ->
  requiredRole r = "user" \/ requiredRole r = "admin".
Proof.
  intros Hfind. apply List.find_some in Hfind as [Hin _].
  destruct Hin as [<-|[<-|[<-|[]]]]; auto.
Qed.

(** Which requests the middleware lets through: those to a path no
    protected route matches, and those with a token whose role is admin,
    or user where the first matching route requires user.  Without a
    token, with any other role, or when reading the token fails, a
    protected path is not passed on. *)
Theorem middleware_passes_iff (pathname : string) (getToken : completion (option jwt)) :
  passes (fst (middleware pathname getToken)) = true <->
  required pathname = None \/
  exists t, getToken = Normal (Some t) /\
    (role t = Some "admin" \/ (role t = Some "user" /\ required pathname = Some "user")).
Proof.
  unfold required.
  destruct (List.find (route_matches pathname) protectedRoutes) as [r|] eqn:Hfind.
  2:{ rewrite middleware_unprotected by exact Hfind. split; [now left|reflexivity]. }
  rewrite (middleware_protected _ _ _ Hfind).
  pose proof (required_role _ _ Hfind) as Hrole.
  destruct getToken as [[t|]|e].
  - destruct (hasAccess (role t) (requiredRole r)) as [[|]|e] eqn:E.
    + split; [intros _|reflexivity]. right. exists t. split; [reflexivity|].
      apply hasAccess_true in E.
      destruct E as [[E _]|[[E H]|[E H]]].
      * now left.
      * right. split; [exact E|]. destruct Hrole as [Hq|Hq]; [now rewrite Hq|].
        rewrite Hq in H. destruct H as [H|H]; discriminate H.
      * rewrite H in Hrole. destruct Hrole as [Hq|Hq]; discriminate Hq.
    + split.
      * destruct (startsWith pathname "/api/"); discriminate.
      * intros [[=]|(t' & [= <-] & Hr)].
        assert (hasAccess (role t) (requiredRole r) = Normal true); [|congruence].
        apply hasAccess_true. destruct Hr as [Hr|[Hr [= Hq]]].
        -- left. split; [exact Hr|]. destruct Hrole as [->| ->]; auto.
        -- right. left. split; [exact Hr|]. now left.
    + split.
      * destruct (startsWith pathname "/api/"); discriminate.
      * intros [[=]|(t' & [= <-] & Hr)].
        assert (hasAccess (role t) (requiredRole r) = Normal true); [|congruence].
        apply hasAccess_true. destruct Hr as [Hr|[Hr [= Hq]]].
        -- left. split; [exact Hr|]. destruct Hrole as [->| ->]; auto.
        -- right. left. split; [exact Hr|]. now left.
  - split; [discriminate|]. intros [[=]|(t' & [=] & _)].
  - split.
    + destruct (startsWith pathname "/api/"); discriminate.
    + intros [[=]|(t' & [=] & _)].
Qed.

(** The admin area is for admins only: a request to /admin, /api/admin
    or a path below one of them is let through only with a token whose
    role is admin. *)
Theorem admin_routes_require_admin
    (rest pathname : string) (getToken : completion (option jwt)) :
  In pathname ["/admin"; "/admin/" +:+ rest; "/api/admin"; "/api/admin/" +:+ rest] ->
  passes (fst (middleware pathname getToken)) = true ->
  exists t, getToken = Normal (Some t) /\ role t = Some "admin".
Proof.
  intros Hin.
  assert (Hfind : exists r, List.find (route_matches pathname) protectedRoutes = Some r /\
                            requiredRole r = "admin").
  { destruct Hin as [<-|[<-|[<-|[<-|[]]]]].
    - exists (mk_route "/admin" "admin"). split; reflexivity.
    - exists (mk_route "/admin" "admin"). split; [|reflexivity].
      cbn. destruct rest; reflexivity.
    - exists (mk_route "/api/admin" "admin"). split; reflexivity.
    - exists (mk_route "/api/admin" "admin"). split; [|reflexivity].
      cbn. destruct rest; reflexivity. }
  destruct Hfind as (r & Hfind & Hreq).
  rewrite (middleware_protected _ _ _ Hfind), Hreq.
  destruct getToken as [[t|]|e].
  - destruct (hasAccess (role t) "admin") as [[|]|e] eqn:E.
    + intros _. exists t. split; [reflexivity|].
      apply hasAccess_true in E as [[E _]|[[_ [[=]|[=]]]|[_ [=]]]]. exact E.
    + destruct (startsWith pathname "/api/"); discriminate.
    + destruct (startsWith pathname "/api/"); discriminate.
  - discriminate.
  - destruct (startsWith pathname "/api/"); discriminate.
Qed.

Lemma admin_routes_require_admin_witness :
  exists t, Normal (Some (mk_jwt (Some "admin"))) = Normal (Some t) /\ role t = Some "admin".
Proof.
  apply (admin_routes_require_admin "users" "/admin/users"
           (Normal (Some (mk_jwt (Some "admin"))))).
  - right. left. reflexivity.
  - vm_compute. reflexivity.
Defined.

(** The secure headers are on the response the middleware passes on and
    on no other: the redirects and the 401 and 403 answers it creates
    itself carry none of them. *)
Theorem secure_headers_only_when_passed
    (pathname : string) (getToken : completion (option jwt)) :
  let r := fst (middleware pathname getToken) in
  if passes r then headers r = secureHeaders
  else forall name, own_property secureHeaders name <> None ->
                    own_property (headers r) name = None.
Proof.
  assert (Hnone : forall name : string,
            own_property secureHeaders name <> None ->
            own_property [("Content-Type", "application/json")] name = None).
  { intros name H. cbn [own_property].
    destruct (String.eqb_spec name "Content-Type") as [->|Hne]; [|reflexivity].
    exfalso. apply H. exact content_type_not_secure. }
  cbv zeta.
  destruct (List.find (route_matches pathname) protectedRoutes) as [r|] eqn:Hfind.
  2:{ rewrite middleware_unprotected by exact Hfind. apply with_headers_secure. }
  rewrite (middleware_protected _ _ _ Hfind).
  destruct getToken as [[t|]|e].
  - destruct (hasAccess (role t) (requiredRole r)) as [[|]|e].
    + apply with_headers_secure.
    + destruct (startsWith pathname "/api/"); [exact Hnone|intros name _; reflexivity].
    + destruct (startsWith pathname "/api/"); [exact Hnone|intros name _; reflexivity].
  - intros name _. reflexivity.
  - destruct (startsWith pathname "/api/"); [exact Hnone|intros name _; reflexivity].
Qed.

End AuthMiddlewareFacts.

(* ===================================================================== *)
(** * Properties of the input validation helpers *)
(* ===================================================================== *)

Module InputValidationFacts.
Import Js InputValidation.

Lemma last_cons_default {A} (x : A) (l : list A) :
  last (x :: l) = Some (default (last l) x).
Proof.
  revert x. induction l as [|y l IH]; intros x; [reflexivity|].
  change (last (x :: y :: l)) with (last (y :: l)). rewrite IH.
  unfold default. now destruct (last l).
Qed.

Lemma assign_lookup acc k v key :
  key <> "__proto__" ->
  assign acc k v !! key = if String.eqb k key then Some v else acc !! key.
Proof.
  intros Hkey. unfold assign.
  destruct (String.eqb_spec k key) as [->|Hne].
  - apply String.eqb_neq in Hkey. rewrite Hkey. apply lookup_insert_eq.
  - destruct (String.eqb k "__proto__"); [reflexivity|]. now apply lookup_insert_ne.
Qed.

Lemma fold_assign_lookup errs key : forall acc,
  key <> "__proto__" ->
  fold_left (fun acc err => assign acc (join_path (issue_path err)) (issue_message err))
    errs acc !! key =
  match last (issues_at key errs) with
  | Some err => Some (issue_message err)
  | None => acc !! key
  end.
Proof.
  induction errs as [|e errs IH]; intros acc Hkey; [reflexivity|].
  cbn [fold_left issues_at List.filter]. fold (issues_at key errs).
  rewrite IH by exact Hkey. rewrite assign_lookup by exact Hkey.
  destruct (String.eqb (join_path (issue_path e)) key).
  - rewrite last_cons_default. unfold default. now destruct (last (issues_at key errs)).
  - reflexivity.
Qed.

Lemma fold_assign_proto errs : forall acc,
  fold_left (fun acc err => assign acc (join_path (issue_path err)) (issue_message err))
    errs acc !! "__proto__" = acc !! "__proto__".
Proof.
  induction errs as [|e errs IH]; intros acc; [reflexivity|].
  cbn [fold_left]. rewrite IH. unfold assign.
  destruct (String.eqb_spec (join_path (issue_path e)) "__proto__") as [E|E]; [reflexivity|].
  now apply lookup_insert_ne.
Qed.

(** The errors [validateInput] returns for a Zod error, path by path.
    For every path but [__proto__]: when the error holds several issues
    for the path, only the message of the last of them is kept; a path
    without issue has no entry.  The path [__proto__] never gets an
    entry, whatever issues the error holds for it. *)
Theorem last_issue_wins {D : Type} (errs : list issue) (key : string) :
  errors (fst (validateInput (@ZodError D errs))) =
    Some (formattedErrors errs) /\
  formattedErrors errs !! key =
    if String.eqb key "__proto__" then None
    else issue_message <$> last (issues_at key errs).
Proof.
  split; [reflexivity|].
  unfold formattedErrors.
  destruct (String.eqb_spec key "__proto__") as [->|Hkey].
  - rewrite fold_assign_proto. apply lookup_empty.
  - rewrite fold_assign_lookup by exact Hkey.
    destruct (last (issues_at key errs)); [reflexivity|]. apply lookup_empty.
Qed.

(** [validateRequest] calls [next] exactly when the data parsed, and
    then [req[source]] holds the validated data; otherwise the request
    keeps its data and is answered 400 with the formatted errors.  When
    sending the 400 answer or [next] throws, the answer is 500. *)
Theorem validateRequest_outcomes {D : Type}
    (parse : parsed D) (respond next : completion unit) (x : exchange D) :
  let x' := validateRequest parse respond next x in
  match parse with
  | Valid d =>
      next_calls x' = S (next_calls x) /\ req_source x' = Some d /\
      answered x' = match next with
                    | Normal _ => answered x
                    | Throw _ => Some (500, InternalError)
                    end
  | _ =>
      next_calls x' = next_calls x /\ req_source x' = req_source x /\
      answered x' = match respond with
                    | Normal _ =>
                        Some (400, Errors (default (errors (fst (validateInput parse))) ∅))
                    | Throw _ => Some (500, InternalError)
                    end
  end.
Proof.
  destruct parse as [d|errs|e]; cbv zeta; unfold validateRequest; cbn.
  - destruct next; repeat split.
  - destruct respond; repeat split.
  - destruct respond; repeat split.
Qed.

End InputValidationFacts.
